(** * NLP query engine for employee data: a shallow embedding and its properties

  Part 1 follows the Python sources of the backend, one module each:
  - [backend/services/schema_discovery.py]     (module [schema_discovery])
  - [backend/services/text_to_sql.py]          (module [text_to_sql])
  - [backend/services/document_processor.py]   (module [document_processor])
  - [backend/core/cache.py]                    (module [cache])
  - [backend/services/query_engine.py]         (module [query_engine])
  - [backend/api/routes/documents.py]          (module [routes_documents])
  - [backend/api/routes/query.py]              (module [routes_query])
  - [backend/api/routes/database.py]           (module [routes_database])
  after the Python primitives they use (module [py]); it ends with sample
  data (modules [samples] and [fixtures]) and the vocabulary of the
  statements (module [spec]). Part 2 holds the properties, Part 3 further
  properties of the same code, of the schema analysis and of the routes.

  Modelling conventions.
  - A Python [str] is a [string]; the text handled is ASCII, so [lower] and
    [upper] act on the letters a-z / A-Z and leave every other character
    alone, exactly as Python does on ASCII text.
  - A regular expression is the scanner that finds its matches.
  - A Python exception is a value of type [exn]; code that may raise returns
    a [res], and [try ... except Exception] is [try_except].
  - A Python [dict] whose insertion order is observable is an association
    list updated in place ([dict_set]); the inverted index, whose order is
    never observed, is a [gmap].
  - A Python [set] is iterated in an order that depends on string hashing;
    the order is supplied by a [HashOrder].
  - What comes from outside (the files, the language model, the database,
    the Redis server, the clock) is a parameter.
  - The connexion to the database has a state; a coroutine on it is a
    function from the state to a result or an exception and the next
    state ([schema_discovery.io]).
  - A route responds or raises ([routes.outcome]); an [HTTPException]
    keeps its status code and detail. *)

From Stdlib Require Import ZArith QArith Qabs Ascii String.
From stdpp Require Import base decidable list strings pretty gmap sorting.

Local Open Scope nat_scope.

(* ===================================================================== *)
(** * Part 1: definitions                                                *)
(* ===================================================================== *)

(** ** Python primitives *)

Module py.

(** *** Characters *)

Definition code (c : ascii) : N := N_of_ascii c.

Definition is_upper (c : ascii) : bool :=
  ((65 <=? code c) && (code c <=? 90))%N.
Definition is_lower (c : ascii) : bool :=
  ((97 <=? code c) && (code c <=? 122))%N.
Definition is_digit (c : ascii) : bool :=
  ((48 <=? code c) && (code c <=? 57))%N.

(** the class [[a-zA-Z]] *)
Definition is_alpha (c : ascii) : bool := is_upper c || is_lower c.
(** the class [\w] on ASCII text: letters, digits and the underscore *)
Definition is_word (c : ascii) : bool :=
  is_alpha c || is_digit c || (code c =? 95)%N.
(** the characters removed by [str.strip()] on ASCII text:
    tab, newline, vertical tab, form feed, carriage return,
    the four separators 0x1c-0x1f, and the space *)
Definition is_space (c : ascii) : bool :=
  (((9 <=? code c) && (code c <=? 13))
   || ((28 <=? code c) && (code c <=? 31))
   || (code c =? 32))%N.

Definition ascii_lower (c : ascii) : ascii :=
  if is_upper c then ascii_of_N (code c + 32) else c.
Definition ascii_upper (c : ascii) : ascii :=
  if is_lower c then ascii_of_N (code c - 32) else c.

(** *** Strings *)

Fixpoint smap (f : ascii → ascii) (s : string) : string :=
  match s with
  | EmptyString => EmptyString
  | String c s' => String (f c) (smap f s')
  end.

(** [s.lower()] and [s.upper()] *)
Definition lower : string → string := smap ascii_lower.
Definition upper : string → string := smap ascii_upper.

(** [len(s)] *)
Definition len (s : string) : nat := String.length s.

Fixpoint sforall (P : ascii → bool) (s : string) : bool :=
  match s with
  | EmptyString => true
  | String c s' => P c && sforall P s'
  end.

(** [s.startswith(p)] *)
Fixpoint startswith (p s : string) : bool :=
  match p, s with
  | EmptyString, _ => true
  | String _ _, EmptyString => false
  | String a p', String b s' =>
      if decide (a = b) then startswith p' s' else false
  end.

(** [needle in hay] on strings: substring test *)
Fixpoint contains (needle hay : string) : bool :=
  startswith needle hay ||
  match hay with
  | EmptyString => false
  | String _ hay' => contains needle hay'
  end.

(** [s.lstrip(chars)], [s.rstrip(chars)] for a character class *)
Fixpoint lstrip_by (P : ascii → bool) (s : string) : string :=
  match s with
  | EmptyString => EmptyString
  | String c s' => if P c then lstrip_by P s' else s
  end.
Definition rstrip_by (P : ascii → bool) (s : string) : string :=
  String.rev (lstrip_by P (String.rev s)).

(** [s.strip()] *)
Definition strip (s : string) : string :=
  rstrip_by is_space (lstrip_by is_space s).

(** [s.rstrip(';')] *)
Definition rstrip_semicolon (s : string) : string :=
  rstrip_by (λ c, bool_decide (c = ";"%char)) s.

(** [s.split(sep)[-1]] for a one-character separator: the part of [s]
    after the last occurrence of [sep], or all of [s] when there is
    none. [cur] is the segment read so far. *)
Fixpoint last_segment_go (sep : ascii) (cur : string) (s : string) : string :=
  match s with
  | EmptyString => String.rev cur
  | String c s' =>
      if decide (c = sep) then last_segment_go sep EmptyString s'
      else last_segment_go sep (String c cur) s'
  end.
Definition last_segment (sep : ascii) (s : string) : string :=
  last_segment_go sep EmptyString s.

(** [os.path.basename(p)] (POSIX): everything after the last slash *)
Definition basename (p : string) : string := last_segment "/"%char p.

(** [s[:n]] for [0 <= n] *)
Fixpoint stake (n : nat) (s : string) : string :=
  match n, s with
  | O, _ => EmptyString
  | S _, EmptyString => EmptyString
  | S n', String c s' => String c (stake n' s')
  end.

(** [s[n:]] for [0 <= n] *)
Fixpoint sdrop (n : nat) (s : string) : string :=
  match n, s with
  | O, _ => s
  | S _, EmptyString => EmptyString
  | S n', String _ s' => sdrop n' s'
  end.

(** [s[-1:]]: the last character, if any *)
Fixpoint slast (s : string) : string :=
  match s with
  | EmptyString => EmptyString
  | String c EmptyString => s
  | String _ s' => slast s'
  end.

(** [s.endswith(p)] *)
Definition endswith (p s : string) : bool :=
  startswith (String.rev p) (String.rev s).

(** The first occurrence of the lower-case [word] in [s], compared
    without regard to case: the occurrence as written in [s] and the text
    after it. This is where a pattern beginning with [word] starts to
    match under [re.IGNORECASE]. *)
Fixpoint find_ci (word s : string) : option (string * string) :=
  if startswith word (lower s)
  then Some (stake (len word) s, sdrop (len word) s)
  else match s with
       | EmptyString => None
       | String _ s' => find_ci word s'
       end.

(** [sum(1 for kw in kws if kw in text)] *)
Definition count_in (kws : list string) (text : string) : nat :=
  length (filter (λ kw, contains kw text = true) kws).

(** [any(term in text for term in terms)] *)
Definition any_in (terms : list string) (text : string) : bool :=
  existsb (λ term, contains term text) terms.

(** *** Exceptions *)

(** An exception, of a subclass of [Exception]: its class name and
    [str(e)]. *)
Inductive exn := Exn (cls msg : string).
Definition exn_str (e : exn) : string := let 'Exn _ msg := e in msg.

Inductive res (A : Type) :=
| Ret (a : A)
| Raise (e : exn).
Global Arguments Ret {A} a.
Global Arguments Raise {A} e.

#[global] Instance res_ret : MRet res := λ A a, Ret a.
#[global] Instance res_bind : MBind res := λ A B k m,
  match m with
  | Ret a => k a
  | Raise e => Raise e
  end.

(** [try: body  except Exception as e: handler(e)] *)
Definition try_except {A} (body : res A) (handler : exn → res A) : res A :=
  match body with
  | Ret a => Ret a
  | Raise e => handler e
  end.

(** *** Values and insertion-ordered dictionaries *)

#[local] Set Warnings "-register-all".
Inductive value :=
| VNone
| VBool (b : bool)
| VInt (n : Z)
| VFloat (q : Q)
| VStr (s : string)
| VList (l : list value)
| VDict (d : list (string * value)).

Abbreviation dict := (list (string * value)).

(** [d.get(k)] *)
Fixpoint dict_get {K V} `{EqDecision K} (d : list (K * V)) (k : K) : option V :=
  match d with
  | [] => None
  | (k', v) :: d' => if decide (k' = k) then Some v else dict_get d' k
  end.

(** [d[k] = v]: an existing key keeps its position *)
Fixpoint dict_set {K V} `{EqDecision K} (d : list (K * V)) (k : K) (v : V)
  : list (K * V) :=
  match d with
  | [] => [(k, v)]
  | (k', v') :: d' =>
      if decide (k' = k) then (k, v) :: d' else (k', v') :: dict_set d' k v
  end.

(** [d.update(e)] *)
Definition dict_update {K V} `{EqDecision K} (d e : list (K * V))
  : list (K * V) :=
  foldl (λ acc kv, dict_set acc kv.1 kv.2) d e.

(** the truth value of a Python object, as tested by [if] *)
Definition truthy (v : value) : bool :=
  match v with
  | VNone => false
  | VBool b => b
  | VInt n => negb (n =? 0)%Z
  | VFloat q => negb (Qeq_bool q 0)
  | VStr s => negb (bool_decide (s = ""))
  | VList l => negb (bool_decide (length l = 0))
  | VDict d => negb (bool_decide (length d = 0))
  end.

(** [round(x, 3)], with floats read as the rationals they denote:
    the nearest multiple of 1/1000, a tie going to the even one *)
Definition round_half_even (x : Q) : Z :=
  let n := Qnum x in
  let d := Zpos (Qden x) in
  let q := (n / d)%Z in
  let r := (n mod d)%Z in
  if (2 * r <? d)%Z then q
  else if (d <? 2 * r)%Z then (q + 1)%Z
  else if Z.even q then q else (q + 1)%Z.
Definition round3 (x : Q) : Q :=
  Qmake (round_half_even (x * 1000)) 1000.

(** [l[:k]] for any Python integer [k]: a negative [k] counts from the
    end of the list *)
Definition slice_to {A} (k : Z) (l : list A) : list A :=
  if (0 <=? k)%Z then take (Z.to_nat k) l
  else take (length l - Z.to_nat (- k)) l.

End py.

(** ** [backend/services/schema_discovery.py]: table purpose *)

Module schema_discovery.

Record column := { col_name : string; col_type : string;
                   col_nullable : bool; col_default : option string }.

Definition _infer_table_purpose (table_name : string) (columns : list column)
  : string :=
  let name_lower := py.lower table_name in
  let column_names := map (λ c, py.lower (col_name c)) columns in
  if py.any_in ["employee"; "staff"; "personnel"; "emp"] name_lower
  then "Employee information"
  else if py.any_in ["department"; "dept"; "division"] name_lower
  then "Department/organizational structure"
  else if py.any_in ["salary"; "compensation"; "pay"] name_lower
  then "Salary and compensation data"
  else if py.any_in ["document"; "file"; "attachment"] name_lower
  then "Document storage"
  else "General data table".

(** The classification as the specification words it: the same cascade
    over the keyword groups the specification lists. *)
Definition purpose_as_specified (table_name : string) : string :=
  let name_lower := py.lower table_name in
  if py.any_in ["employee"; "staff"; "personnel"] name_lower
  then "Employee information"
  else if py.any_in ["department"; "division"] name_lower
  then "Department/organizational structure"
  else if py.any_in ["salary"; "compensation"; "pay"] name_lower
  then "Salary and compensation data"
  else if py.any_in ["document"; "file"; "attachment"] name_lower
  then "Document storage"
  else "General data table".

(** *** The analysis of a database *)

Import py.

(** A row of [PRAGMA table_info(t)], with the columns SQLite gives it. *)
Record pragma_row := {
  cid : Z;
  pragma_name : string;
  pragma_type : string;
  notnull : Z;
  dflt_value : option string;
  pk : Z
}.

(** A row of the statement on [information_schema.columns]. *)
Record columns_row := {
  column_name : string;
  data_type : string;
  is_nullable : string;
  column_default : option string
}.

Record relationship := {
  from_table : string;
  from_column : string;
  to_table : string;
  to_column : string
}.

(** The session is the connexion to the database, in some state [Σ]. Each
    field stands for [await self.session.execute(...)] on one kind of
    statement together with the reading of its rows, which the code
    always does under the same [try] as the call, or as unprotected as
    the call: it gives the rows read, or the exception raised, and the
    state the connexion is left in. [exec] runs a statement whose
    rows are not read, [scalar_str] gives [str(result.scalar())],
    [first_column] gives [row[0]] of each row, [mapping_rows] gives
    [dict(row._mapping)] of each row, [column_rows] is the statement on
    [information_schema.columns] bound to a table name, and [key_rows] the
    statement on the foreign-key constraints, its rows read as
    relationships. *)
Record Session (Σ : Type) := {
  exec : string → Σ → res unit * Σ;
  scalar_str : string → Σ → res string * Σ;
  first_column : string → Σ → res (list string) * Σ;
  pragma_rows : string → Σ → res (list pragma_row) * Σ;
  column_rows : string → Σ → res (list columns_row) * Σ;
  mapping_rows : string → Σ → res (list dict) * Σ;
  key_rows : Σ → res (list relationship) * Σ
}.
Global Arguments exec {Σ} _ _ _.
Global Arguments scalar_str {Σ} _ _ _.
Global Arguments first_column {Σ} _ _ _.
Global Arguments pragma_rows {Σ} _ _ _.
Global Arguments column_rows {Σ} _ _ _.
Global Arguments mapping_rows {Σ} _ _ _.
Global Arguments key_rows {Σ} _ _.

(** a coroutine on the session: a result or an exception, and the state
    of the connexion afterwards *)
Definition io (Σ A : Type) : Type := Σ → res A * Σ.

Definition io_ret {Σ A} (a : A) : io Σ A := λ σ, (Ret a, σ).

Definition io_bind {Σ A B} (m : io Σ A) (k : A → io Σ B) : io Σ B :=
  λ σ, match m σ with
       | (Ret a, σ') => k a σ'
       | (Raise e, σ') => (Raise e, σ')
       end.

(** [try: m  except: handler] *)
Definition io_try {Σ A} (m : io Σ A) (handler : io Σ A) : io Σ A :=
  λ σ, match m σ with
       | (Ret a, σ') => (Ret a, σ')
       | (Raise _, σ') => handler σ'
       end.

(** [for x in l: acc.append(await f(x))] *)
Fixpoint io_for {Σ A B} (f : A → io Σ B) (l : list A) : io Σ (list B) :=
  match l with
  | [] => io_ret []
  | x :: l' =>
      io_bind (f x) (λ y, io_bind (io_for f l') (λ ys, io_ret (y :: ys)))
  end.

Record table_info := {
  table_name : string;
  table_purpose : string;
  table_columns : list column;
  table_sample_data : list dict
}.

Record summary := {
  total_tables : nat;
  total_columns : nat;
  total_relationships : nat;
  database_type : string
}.

Record schema_info := {
  schema_tables : list table_info;
  schema_relationships : list relationship;
  schema_summary : summary
}.

Definition _detect_database_type {Σ} (S : Session Σ) : io Σ string :=
  io_try
    (io_bind (scalar_str S "SELECT version()") (λ version,
       if contains "PostgreSQL" version then io_ret "postgresql"
       else if contains "MySQL" version then io_ret "mysql"
       else io_ret "sqlite"))
    (io_ret "sqlite").

(** the line feed of the statements written over several lines *)
Definition nl : string := String "010"%char "".

Definition tables_of_postgresql : string :=
  nl +:+ "                SELECT table_name"
  +:+ nl +:+ "                FROM information_schema.tables"
  +:+ nl +:+ "                WHERE table_schema = 'public'"
  +:+ nl +:+ "                AND table_type = 'BASE TABLE'"
  +:+ nl +:+ "            ".

Definition tables_of_sqlite : string :=
  nl +:+ "                SELECT name FROM sqlite_master"
  +:+ nl +:+ "                WHERE type='table'"
  +:+ nl +:+ "                AND name NOT LIKE 'sqlite_%'"
  +:+ nl +:+ "            ".

Definition _get_table_names {Σ} (S : Session Σ) (db_type : string)
  : io Σ (list string) :=
  if decide (db_type = "postgresql") then first_column S tables_of_postgresql
  else if decide (db_type = "sqlite") then first_column S tables_of_sqlite
  else first_column S "SHOW TABLES".

Definition _analyze_table {Σ} (S : Session Σ) (table_name db_type : string)
  : io Σ table_info :=
  io_bind
    (if decide (db_type = "sqlite")
     then
       io_bind (pragma_rows S ("PRAGMA table_info(" +:+ table_name +:+ ")"))
         (λ result,
            io_ret ((λ row, {| col_name := pragma_name row;
                               col_type := pragma_type row;
                               col_nullable := bool_decide (notnull row = 0%Z);
                               col_default := dflt_value row |}) <$> result))
     else
       io_bind (column_rows S table_name)
         (λ result,
            io_ret ((λ row, {| col_name := column_name row;
                               col_type := data_type row;
                               col_nullable :=
                                 bool_decide (is_nullable row = "YES");
                               col_default := column_default row |}) <$> result)))
    (λ columns,
       io_bind
         (io_try
            (mapping_rows S ("SELECT * FROM " +:+ table_name +:+ " LIMIT 5"))
            (io_ret []))
         (λ sample_data,
            io_ret {| table_name := table_name;
                      table_purpose := _infer_table_purpose table_name columns;
                      table_columns := columns;
                      table_sample_data := sample_data |})).

Definition _discover_relationships {Σ} (S : Session Σ) (db_type : string)
  : io Σ (list relationship) :=
  if decide (db_type = "sqlite") then io_ret []
  else if decide (db_type = "postgresql") then io_try (key_rows S) (io_ret [])
  else io_ret [].

(** [analyze_database]; its [except] clause logs the exception and raises
    it again. *)
Definition analyze_database {Σ} (S : Session Σ) : io Σ schema_info :=
  io_bind (_detect_database_type S) (λ db_type,
  io_bind (_get_table_names S db_type) (λ table_names,
  io_bind (io_for (λ table_name, _analyze_table S table_name db_type)
             table_names) (λ tables,
  io_bind (_discover_relationships S db_type) (λ relationships,
  io_ret {| schema_tables := tables;
            schema_relationships := relationships;
            schema_summary :=
              {| total_tables := length table_names;
                 total_columns := sum_list (length ∘ table_columns <$> tables);
                 total_relationships := length relationships;
                 database_type := db_type |} |})))).

(** the schema as the dictionary [analyze_database] builds *)
Definition option_value (o : option string) : value :=
  match o with Some s => VStr s | None => VNone end.

Definition column_value (c : column) : value :=
  VDict [("name", VStr (col_name c)); ("type", VStr (col_type c));
         ("nullable", VBool (col_nullable c));
         ("default", option_value (col_default c))].

Definition table_value (t : table_info) : value :=
  VDict [("name", VStr (table_name t)); ("purpose", VStr (table_purpose t));
         ("columns", VList (column_value <$> table_columns t));
         ("sample_data", VList (VDict <$> table_sample_data t))].

Definition relationship_value (r : relationship) : value :=
  VDict [("from_table", VStr (from_table r));
         ("from_column", VStr (from_column r));
         ("to_table", VStr (to_table r));
         ("to_column", VStr (to_column r))].

Definition summary_value (s : summary) : value :=
  VDict [("total_tables", VInt (Z.of_nat (total_tables s)));
         ("total_columns", VInt (Z.of_nat (total_columns s)));
         ("total_relationships", VInt (Z.of_nat (total_relationships s)));
         ("database_type", VStr (database_type s))].

Definition schema_value (s : schema_info) : value :=
  VDict [("tables", VList (table_value <$> schema_tables s));
         ("relationships",
           VList (relationship_value <$> schema_relationships s));
         ("summary", summary_value (schema_summary s))].


End schema_discovery.

(** ** [backend/services/text_to_sql.py]: validation and optimisation *)

Module text_to_sql.

Definition dangerous : list string :=
  ["DROP"; "DELETE"; "TRUNCATE"; "ALTER"; "CREATE"; "UPDATE"].

(** the [for keyword in dangerous] loop: the first keyword found *)
Definition first_dangerous (sql_upper : string) : option string :=
  find (λ keyword, py.contains keyword sql_upper) dangerous.

Definition _validate_sql (sql : string) : bool * string :=
  if decide (sql = "") then (false, "Empty SQL query")
  else
    let sql_upper := py.upper sql in
    match first_dangerous sql_upper with
    | Some keyword => (false, "Dangerous operation: " +:+ keyword)
    | None =>
        if negb (py.startswith "SELECT" (py.strip sql_upper))
        then (false, "Query must start with SELECT")
        else (true, "")
    end.

Definition _optimize_sql (sql : string) : string :=
  if negb (py.contains "LIMIT" (py.upper sql))
  then py.rstrip_semicolon sql +:+ " LIMIT 100;"
  else sql.

(** [schema] is represented by the names of its tables, the only part of
    it read here. *)
Definition _extract_tables (sql : string) (schema : list string) : list string :=
  let sql_upper := py.upper sql in
  filter (λ name, py.contains (py.upper name) sql_upper = true) schema.

(** [re.search(r'sql\s*(.+?)', text, re.DOTALL | re.IGNORECASE)], group 1.
    The lazy group is the last item of the pattern, so it takes one
    character: the first one after "sql" and the whitespace following it,
    or, when only whitespace follows, the last whitespace character.
    Nothing matches when the text ends with the first "sql". *)
Definition search_sql_marker (text : string) : option string :=
  match py.find_ci "sql" text with
  | Some (_, EmptyString) => None
  | Some (_, rest) =>
      match py.lstrip_by py.is_space rest with
      | String c _ => Some (String c "")
      | EmptyString => Some (py.slast rest)
      end
  | None => None
  end.

(** [re.search(r'(SELECT.+?;?)', text, re.DOTALL | re.IGNORECASE)], group 1:
    the first "select", the character after it, and the semicolon after
    that when there is one *)
Definition search_select (text : string) : option string :=
  match py.find_ci "select" text with
  | Some (word, String c rest) =>
      Some (word +:+ String c "" +:+
            (if py.startswith ";" rest then ";" else ""))
  | _ => None
  end.

Definition _extract_sql (text : string) : string :=
  match search_sql_marker text with
  | Some group => py.strip group
  | None =>
      match search_select text with
      | Some group =>
          let sql := py.strip group in
          if negb (py.endswith ";" sql) then sql +:+ ";" else sql
      | None => py.strip text
      end
  end.

(** What [generate_sql] and the SQL handler obtain from outside: the
    answer of the language model to the prompt built for a query (or the
    exception of the call), the rows the database returns for a statement
    (or the exception of the execution), and the exception SQLAlchemy's
    [text] raises when it is given [None]. Everything below holds
    whatever these are. *)
Record Backend := {
  generate_content : string → py.res string;
  execute : string → py.res (list py.value);
  text_of_None : py.exn
}.

Definition generate_sql (B : Backend) (user_query : string)
    (schema : list string) : py.dict :=
  let body : py.res py.dict :=
    sql_text ← generate_content B user_query;
    let sql := _extract_sql sql_text in
    let '(is_valid, error) := _validate_sql sql in
    if negb is_valid
    then mret [("sql", py.VNone); ("error", py.VStr error);
               ("explanation", py.VStr sql_text)]
    else
      let optimized_sql := _optimize_sql sql in
      mret [("sql", py.VStr optimized_sql);
            ("explanation", py.VStr sql_text);
            ("tables_used",
              py.VList (py.VStr <$> _extract_tables optimized_sql schema))] in
  match body with
  | py.Ret d => d
  | py.Raise e => [("sql", py.VNone); ("error", py.VStr (py.exn_str e))]
  end.

End text_to_sql.

(** ** [backend/services/document_processor.py] *)

Module document_processor.
Import py.

(** The iteration order of a Python set of strings. [set_of l] is the
    sequence in which the set built from the elements of [l] is iterated:
    it has no duplicates and holds exactly the elements of [l]. The order
    itself depends on the hash seed of the process. *)
Record HashOrder := {
  set_of : list string → list string;
  set_of_NoDup : ∀ l, NoDup (set_of l);
  set_of_elem : ∀ l x, x ∈ set_of l ↔ x ∈ l
}.

(** The text extractors read files through PyPDF2, python-docx and
    [open]; each returns the text of the file or raises. *)
Record Extractors := {
  _extract_pdf : string → res string;
  _extract_docx : string → res string;
  _extract_txt : string → res string
}.

Record document := {
  doc_id : nat;
  doc_file : string;
  doc_text : string;
  doc_keywords : list string;
  doc_preview : string
}.

(** the two mutable attributes of a [KeywordDocumentProcessor] *)
Record processor := {
  documents : list document;
  keyword_index : gmap string (list nat)
}.

(** the [results] dictionary of [process_documents] *)
Record report := {
  processed : nat;
  failed : nat;
  total_documents : nat;
  report_documents : list (string * nat)
}.

(** a search hit: the copied document with its two added fields *)
Record hit := {
  hit_doc : document;
  match_score : nat;
  matched_keywords : list string
}.

Definition _extract_text (X : Extractors) (file_path : string) : res string :=
  let ext := lower (last_segment "."%char file_path) in
  if decide (ext = "pdf") then _extract_pdf X file_path
  else if decide (ext = "docx") then _extract_docx X file_path
  else if decide (ext = "txt") then _extract_txt X file_path
  else Raise (Exn "ValueError" ("Unsupported file type: " +:+ ext)).

Definition stopwords : list string :=
  [ "the"; "is"; "at"; "which"; "on"; "and"; "a"; "an"; "as"; "are";
    "was"; "were"; "been"; "be"; "have"; "has"; "had"; "do"; "does";
    "did"; "will"; "would"; "should"; "could"; "may"; "might"; "must";
    "can"; "this"; "that"; "these"; "those"; "with"; "from"; "for";
    "but"; "not"; "all"; "any"; "some"; "such"; "into"; "just"; "than";
    "very"; "too"; "also"; "only"; "then"; "when"; "where"; "how"; "why" ].

(** [re.findall(r'\b[a-zA-Z]{3,}\b', text)]. A match starts and ends at a
    word boundary, so it is a maximal run of word characters; it is
    reported when all its characters are letters and there are at least
    three. [run] is the run of word characters being read and [alpha]
    tells whether all of them are letters. *)
Definition flush (run : string) (alpha : bool) : list string :=
  if alpha && (3 <=? len run) then [run] else [].

Fixpoint findall_words_go (run : string) (alpha : bool) (text : string)
  : list string :=
  match text with
  | EmptyString => flush run alpha
  | String c text' =>
      if is_word c
      then findall_words_go (run +:+ String c "") (alpha && is_alpha c) text'
      else flush run alpha ++ findall_words_go "" true text'
  end.

Definition findall_words (text : string) : list string :=
  findall_words_go "" true text.

Definition _extract_keywords (H : HashOrder) (text : string) : list string :=
  let words := findall_words (lower text) in
  set_of H (filter (λ w, (w ∉ stopwords) ∧ 2 < len w) words).

(** [self.keyword_index[k]] on the [defaultdict(list)], for reading *)
Definition posting (self : processor) (k : string) : list nat :=
  keyword_index self !!! k.

(** [self.keyword_index[keyword.lower()].append(doc_id)] *)
Definition index_add (doc_id : nat) (index : gmap string (list nat))
    (keyword : string) : gmap string (list nat) :=
  let k := lower keyword in
  <[k := (index !!! k) ++ [doc_id]]> index.

Definition make_preview (text : string) : string :=
  if 200 <? len text then stake 200 text +:+ "..." else text.

(** The body of the [try] block for one file. Only the text extraction
    can raise, and it runs before anything is mutated. *)
Definition ingest_file (H : HashOrder) (X : Extractors)
    (self : processor) (results : report) (file_path : string)
  : res (processor * report) :=
  text ← _extract_text X file_path;
  let keywords := _extract_keywords H text in
  let doc_id := length (documents self) in
  let doc := {| doc_id := doc_id;
                doc_file := basename file_path;
                doc_text := text;
                doc_keywords := keywords;
                doc_preview := make_preview text |} in
  let self' := {| documents := documents self ++ [doc];
                  keyword_index :=
                    foldl (index_add doc_id) (keyword_index self) keywords |} in
  mret (self',
        {| processed := processed results + 1;
           failed := failed results;
           total_documents := total_documents results;
           report_documents :=
             report_documents results ++ [(doc_file doc, length keywords)] |}).

(** one iteration of [for file_path in file_paths] *)
Definition process_file (H : HashOrder) (X : Extractors)
    (acc : processor * report) (file_path : string) : processor * report :=
  match ingest_file H X acc.1 acc.2 file_path with
  | Ret acc' => acc'
  | Raise e =>
      (acc.1, {| processed := processed acc.2;
                 failed := failed acc.2 + 1;
                 total_documents := total_documents acc.2;
                 report_documents := report_documents acc.2 |})
  end.

Definition empty_report : report :=
  {| processed := 0; failed := 0; total_documents := 0;
     report_documents := [] |}.

(** [process_documents]: the processor after the batch, and the report.
    [_save_index] writes the index to disk inside its own [try]/[except]
    and changes neither of them. *)
Definition process_documents (H : HashOrder) (X : Extractors)
    (self : processor) (file_paths : list string) : processor * report :=
  let '(self', results) :=
    foldl (process_file H X) (self, empty_report) file_paths in
  (self', {| processed := processed results;
             failed := failed results;
             total_documents := length (documents self');
             report_documents := report_documents results |}).

(** [doc_scores[doc_id] += 1] on the [defaultdict(int)] *)
Definition bump (doc_scores : list (nat * nat)) (doc_id : nat)
  : list (nat * nat) :=
  dict_set doc_scores doc_id (default 0 (dict_get doc_scores doc_id) + 1).

(** one iteration of [for keyword in query_keywords] *)
Definition score_keyword (self : processor) (doc_scores : list (nat * nat))
    (keyword : string) : list (nat * nat) :=
  let keyword_lower := lower keyword in
  match keyword_index self !! keyword_lower with
  | Some ids => foldl bump doc_scores ids
  | None => doc_scores
  end.

(** [sorted(items, key=lambda x: x[1], reverse=True)]: Python's sort is
    stable, also with [reverse=True], so entries with equal scores keep
    the order they have in [items]. *)
Fixpoint insert_desc (x : nat * nat) (l : list (nat * nat))
  : list (nat * nat) :=
  match l with
  | [] => [x]
  | y :: l' => if x.2 <? y.2 then y :: insert_desc x l' else x :: y :: l'
  end.
Definition sorted_desc (items : list (nat * nat)) : list (nat * nat) :=
  foldr insert_desc [] items.

(** one iteration of [for doc_id, score in sorted_docs] *)
Definition hit_for (self : processor) (query_keywords : list string)
    (entry : nat * nat) : list hit :=
  match documents self !! entry.1 with
  | Some doc =>
      [ {| hit_doc := doc;
           match_score := entry.2;
           matched_keywords :=
             filter (λ kw, lower kw ∈ doc_keywords doc) query_keywords |} ]
  | None => []
  end.

Definition scores (self : processor) (query_keywords : list string)
  : list (nat * nat) :=
  foldl (score_keyword self) [] query_keywords.

Definition search (H : HashOrder) (self : processor) (query : string)
    (top_k : Z) : list hit :=
  let query_keywords := _extract_keywords H query in
  match query_keywords with
  | [] => []
  | _ =>
      let doc_scores := scores self query_keywords in
      let sorted_docs := slice_to top_k (sorted_desc doc_scores) in
      flat_map (hit_for self query_keywords) sorted_docs
  end.

Definition empty_processor : processor :=
  {| documents := []; keyword_index := ∅ |}.

(** a hash order: each element at the place of its last occurrence *)
Program Definition order_of_last_occurrence : HashOrder :=
  {| set_of := remove_dups |}.
Next Obligation. apply NoDup_remove_dups. Qed.
Next Obligation. intros. apply elem_of_remove_dups. Qed.

(** another one: the reverse of that order *)
Program Definition reverse_order : HashOrder :=
  {| set_of := λ l, reverse (remove_dups l) |}.
Next Obligation. intros. rewrite reverse_Permutation. apply NoDup_remove_dups. Qed.
Next Obligation. intros. rewrite elem_of_reverse. apply elem_of_remove_dups. Qed.

End document_processor.

(** ** [backend/core/cache.py] *)

Module cache.
Import py.

(** the attributes [__init__] gives to an instance; [client] is the Redis
    client, named by the URL it was made from *)
Record SmartCache := {
  use_redis : bool;
  redis_url : string;
  client : option string
}.

Definition __init__ (use_redis : bool) (redis_url : string) : SmartCache :=
  {| use_redis := use_redis; redis_url := redis_url; client := None |}.

(** the methods the class body defines besides [__init__] *)
Inductive method := connect | close.

(** attribute lookup for a method call on a [SmartCache] *)
Definition class_method (name : string) : option method :=
  if decide (name = "connect") then Some connect
  else if decide (name = "close") then Some close
  else None.

(** [ping] tells whether the Redis server answers. *)
Definition run_method (ping : bool) (m : method) (self : SmartCache)
    (args : list value) : res value * SmartCache :=
  match m with
  | connect =>
      if negb (use_redis self) then (Ret VNone, self)
      else
        let self' := {| use_redis := use_redis self;
                        redis_url := redis_url self;
                        client := Some (redis_url self) |} in
        if ping then (Ret VNone, self')
        else (Raise (Exn "ConnectionError" "Error connecting to Redis"), self')
  | close => (Ret VNone, self)
  end.

(** [await self.name(args)]: the outcome and the instance afterwards *)
Definition call_method (ping : bool) (self : SmartCache) (name : string)
    (args : list value) : res value * SmartCache :=
  match class_method name with
  | Some m => run_method ping m self args
  | None =>
      (Raise (Exn "AttributeError"
                ("'SmartCache' object has no attribute '" +:+ name +:+ "'")),
       self)
  end.

(** the module-level instance *)
Definition cache : SmartCache := __init__ false "redis://localhost:6379".

(** [cached(prefix, ttl)(func)] called with [args]: the wrapper of the
    decorator, run against the cache instance [c]. [func] returns its
    result together with the effects [E] it had. *)
Definition cached {E} (prefix : string) (ttl : value)
    (func : list value → res value * list E)
    (ping : bool) (c : SmartCache) (args : list value)
  : res value * list E * SmartCache :=
  match call_method ping c "cache_key" (VStr prefix :: args) with
  | (Raise e, c1) => (Raise e, [], c1)
  | (Ret cache_key, c1) =>
      match call_method ping c1 "get" [cache_key] with
      | (Raise e, c2) => (Raise e, [], c2)
      | (Ret cached_result, c2) =>
          match cached_result with
          | VNone =>
              let '(r, effects) := func args in
              match r with
              | Raise e => (Raise e, effects, c2)
              | Ret result =>
                  match call_method ping c2 "set" [cache_key; result; ttl] with
                  | (Raise e, c3) => (Raise e, effects, c3)
                  | (Ret _, c3) => (Ret result, effects, c3)
                  end
              end
          | _ => (Ret cached_result, [], c2)
          end
      end
  end.

End cache.

(** ** [backend/services/query_engine.py] *)

Module query_engine.

Inductive query_type := sql | document | hybrid.

Definition sql_keywords : list string :=
  [ "how many"; "count"; "average"; "total"; "sum";
    "list all"; "show me"; "find employees"; "department";
    "salary"; "highest"; "lowest"; "hired" ].

Definition doc_keywords : list string :=
  [ "skills"; "experience"; "resume"; "review";
    "performance"; "feedback"; "qualified"; "expertise";
    "python"; "javascript"; "java" ].

Definition sql_score (query : string) : nat :=
  py.count_in sql_keywords (py.lower query).
Definition doc_score (query : string) : nat :=
  py.count_in doc_keywords (py.lower query).

Definition _classify_query (query : string) : query_type :=
  let sql_score := sql_score query in
  let doc_score := doc_score query in
  if (0 <? sql_score) && (0 <? doc_score) then hybrid
  else if doc_score <? sql_score then sql
  else if 0 <? doc_score then document
  else sql.

Definition query_type_str (t : query_type) : string :=
  match t with sql => "sql" | document => "document" | hybrid => "hybrid" end.

Import py.

(** *** The handlers *)

(** The body of [_handle_sql_query], before decoration: its result and
    the statements it sent to the database. *)
Definition sql_handler_body (B : text_to_sql.Backend) (schema : list string)
    (query : string) : dict * list string :=
  let sql_result := text_to_sql.generate_sql B query schema in
  let error := default VNone (dict_get sql_result "error") in
  if truthy error then ([("error", error)], [])
  else
    match dict_get sql_result "sql" with
    | Some (VStr sql_query) =>
        match text_to_sql.execute B sql_query with
        | Ret data =>
            ([("sql", VStr sql_query); ("data", VList data);
              ("row_count", VInt (Z.of_nat (length data)))], [sql_query])
        | Raise e =>
            ([("error", VStr ("SQL execution failed: " +:+ exn_str e))],
             [sql_query])
        end
    | _ =>
        ([("error", VStr ("SQL execution failed: "
                          +:+ exn_str (text_to_sql.text_of_None B)))], [])
    end.

(** [_handle_sql_query]: the body under [@cached(prefix="sql_query", ttl=300)];
    [self] stands for the engine, the first positional argument. *)
Definition _handle_sql_query (B : text_to_sql.Backend) (schema : list string)
    (ping : bool) (c : cache.SmartCache) (self : value) (query : string)
  : res value * list string * cache.SmartCache :=
  cache.cached "sql_query" (VInt 300)
    (λ _, let '(d, sent) := sql_handler_body B schema query in
          (Ret (VDict d), sent))
    ping c [self; VStr query].

Definition document_value (d : document_processor.document) : dict :=
  [("id", VInt (Z.of_nat (document_processor.doc_id d)));
   ("file", VStr (document_processor.doc_file d));
   ("text", VStr (document_processor.doc_text d));
   ("keywords", VList (VStr <$> document_processor.doc_keywords d));
   ("preview", VStr (document_processor.doc_preview d))].

Definition hit_value (h : document_processor.hit) : value :=
  VDict (document_value (document_processor.hit_doc h)
         ++ [("match_score", VInt (Z.of_nat (document_processor.match_score h)));
             ("matched_keywords",
               VList (VStr <$> document_processor.matched_keywords h))]).

Definition _handle_document_query (H : document_processor.HashOrder)
    (doc_processor : document_processor.processor) (query : string) : dict :=
  let results := document_processor.search H doc_processor query 5 in
  [("documents", VList (hit_value <$> results));
   ("count", VInt (Z.of_nat (length results)))].

(** *** [process_query] *)

(** the dispatch on [query_type], for any behaviour of the two handlers *)
Definition route (handle_sql handle_document : string → res dict)
    (t : query_type) (result : dict) (user_query : string) : res dict :=
  match t with
  | sql =>
      sql_results ← handle_sql user_query;
      let result := dict_update result sql_results in
      let result :=
        dict_set result "results" (default VNone (dict_get sql_results "data")) in
      mret (dict_set result "sources" (VList [VStr "database"]))
  | document =>
      doc_results ← handle_document user_query;
      let result := dict_update result doc_results in
      let result :=
        dict_set result "results"
          (default VNone (dict_get doc_results "documents")) in
      mret (dict_set result "sources" (VList [VStr "documents"]))
  | hybrid =>
      sql_results ← handle_sql user_query;
      doc_results ← handle_document user_query;
      let result :=
        dict_set result "results"
          (VDict [("database", VDict sql_results);
                  ("documents", VDict doc_results)]) in
      mret (dict_set result "sources"
              (VList [VStr "database"; VStr "documents"]))
  end.

(** [start_time] and [end_time] are the two readings of [time.time()]. *)
Definition process_query_with (handle_sql handle_document : string → res dict)
    (start_time end_time : Q) (user_query : string) : res dict :=
  try_except
    (let query_type := _classify_query user_query in
     let result : dict :=
       [("query", VStr user_query);
        ("query_type", VStr (query_type_str query_type));
        ("results", VList []);
        ("sources", VList []);
        ("performance", VDict []);
        ("cached", VBool false)] in
     result ← route handle_sql handle_document query_type result user_query;
     mret (dict_set result "performance"
             (VDict [("response_time",
                       VFloat (round3 (end_time - start_time)))])))
    (λ e, mret [("query", VStr user_query);
                ("error", VStr (exn_str e));
                ("query_type", VStr "unknown")]).

(** the result of a handler as [process_query] uses it: a dictionary *)
Definition as_dict (r : res value) : res dict :=
  v ← r;
  match v with
  | VDict d => mret d
  | _ => Raise (Exn "AttributeError" "object has no attribute 'get'")
  end.

(** [process_query] of an engine made of the given parts *)
Definition process_query (H : document_processor.HashOrder)
    (B : text_to_sql.Backend) (schema : list string)
    (doc_processor : document_processor.processor)
    (ping : bool) (c : cache.SmartCache)
    (start_time end_time : Q) (user_query : string) : res dict :=
  process_query_with
    (λ q, as_dict (_handle_sql_query B schema ping c (VStr "self") q).1.1)
    (λ q, Ret (_handle_document_query H doc_processor q))
    start_time end_time user_query.

End query_engine.

(** ** [backend/api/routes]: the HTTP routes *)

Module routes.
Import py.

(** What a route raises: an [HTTPException], which the framework answers
    with that status code and detail, or any other exception. *)
Inductive raised :=
| HTTPException (status_code : Z) (detail : string)
| Unhandled (e : exn).

Inductive outcome (A : Type) :=
| Responds (a : A)
| Fails (r : raised).
Global Arguments Responds {A} a.
Global Arguments Fails {A} r.

(** [except HTTPException: raise] followed by
    [except Exception as e: raise HTTPException(status_code, detail=str(e))] *)
Definition reraise_as {A} (status_code : Z) (o : outcome A) : outcome A :=
  match o with
  | Fails (Unhandled e) => Fails (HTTPException status_code (exn_str e))
  | _ => o
  end.

(** [os.path.join(a, b)] of [posixpath] *)
Definition path_join (a b : string) : string :=
  if startswith "/" b then b
  else if bool_decide (a = "") || endswith "/" a then a +:+ b
  else a +:+ "/" +:+ b.

End routes.

(** *** [backend/api/routes/documents.py] *)

Module routes_documents.
Import py document_processor routes.

(** the two settings of [core/config.py] the routes read *)
Record Settings := { MAX_UPLOAD_SIZE : Z; UPLOAD_DIR : string }.

(** their default values *)
Definition settings : Settings :=
  {| MAX_UPLOAD_SIZE := 10 * 1024 * 1024; UPLOAD_DIR := "data/uploads" |}.

(** an uploaded file: its name, the position [file.file.tell()] gives at
    its end, and what [file.read()] returns *)
Record UploadFile := { filename : string; size : Z; content : string }.

Record UploadResponse := {
  ur_job_id : string;
  ur_status : string;
  ur_message : string
}.

Record StatusResponse := {
  sr_job_id : string;
  sr_status : value;
  sr_progress : value;
  sr_processed : value;
  sr_total : value;
  sr_details : value;
  sr_error : value
}.

(** The state the routes of this file act on: the two globals of the
    module, the files written through [open(file_path, 'wb')], oldest
    first, and the tasks handed to [BackgroundTasks], oldest first. *)
Record state := {
  doc_processor : processor;
  job_status : gmap string dict;
  written : list (string * string);
  background_tasks : list (string * list string)
}.

Definition allowed (ext : string) : bool :=
  bool_decide (ext ∈ ["pdf"; "docx"; "txt"]).

(** the path an uploaded file is saved under *)
Definition saved_path (s : Settings) (job_id : string) (name : string)
  : string :=
  path_join (UPLOAD_DIR s) (job_id +:+ "_" +:+ name).

(** The loop [for file in files] of [upload_documents]. [open_wb] tells
    whether [open(file_path, 'wb')] succeeds or what it raises. *)
Fixpoint save_files (s : Settings) (open_wb : string → res unit)
    (job_id : string) (files : list UploadFile) (file_paths : list string)
    (written : list (string * string))
  : outcome (list string) * list (string * string) :=
  match files with
  | [] => (Responds file_paths, written)
  | file :: files' =>
      let ext := lower (last_segment "."%char (filename file)) in
      if negb (allowed ext)
      then (Fails (HTTPException 400 ("File type not allowed: " +:+ ext)),
            written)
      else if (MAX_UPLOAD_SIZE s <? size file)%Z
      then (Fails (HTTPException 400 ("File too large: " +:+ filename file)),
            written)
      else
        let file_path := saved_path s job_id (filename file) in
        match open_wb file_path with
        | Raise e => (Fails (Unhandled e), written)
        | Ret _ =>
            save_files s open_wb job_id files' (file_paths ++ [file_path])
              (written ++ [(file_path, content file)])
        end
  end.

(** [upload_documents]; [job_id] is the value of [str(uuid.uuid4())]. *)
Definition upload_documents (s : Settings) (open_wb : string → res unit)
    (job_id : string) (files : list UploadFile) (st : state)
  : outcome UploadResponse * state :=
  match save_files s open_wb job_id files [] (written st) with
  | (Responds file_paths, w) =>
      (Responds {| ur_job_id := job_id;
                   ur_status := "processing";
                   ur_message := "Processing " +:+ pretty (length files)
                                 +:+ " documents" |},
       {| doc_processor := doc_processor st;
          job_status :=
            <[job_id := [("status", VStr "processing");
                         ("progress", VFloat 0);
                         ("processed", VInt 0);
                         ("total", VInt (Z.of_nat (length files)))]]>
              (job_status st);
          written := w;
          background_tasks := background_tasks st ++ [(job_id, file_paths)] |})
  | (Fails r, w) =>
      (reraise_as 500 (Fails r),
       {| doc_processor := doc_processor st;
          job_status := job_status st;
          written := w;
          background_tasks := background_tasks st |})
  end.

(** the [results] dictionary of [process_documents] *)
Definition report_value (r : report) : dict :=
  [("processed", VInt (Z.of_nat (processed r)));
   ("failed", VInt (Z.of_nat (failed r)));
   ("total_documents", VInt (Z.of_nat (total_documents r)));
   ("documents",
     VList ((λ d : string * nat,
               VDict [("file", VStr d.1);
                      ("keywords_found", VInt (Z.of_nat d.2))])
            <$> report_documents r))].

(** [process_documents_task]. [process_documents] catches what each file
    raises and what saving the index raises, so the [except] clause of
    the task has nothing to catch. *)
Definition process_documents_task (H : HashOrder) (X : Extractors)
    (job_id : string) (file_paths : list string) (st : state) : state :=
  let '(self', result) :=
    process_documents H X (doc_processor st) file_paths in
  {| doc_processor := self';
     job_status :=
       <[job_id := [("status", VStr "completed");
                    ("progress", VFloat 1);
                    ("processed", VInt (Z.of_nat (processed result)));
                    ("total",
                      VInt (Z.of_nat (processed result)
                            + Z.of_nat (failed result)));
                    ("details", VDict (report_value result))]]>
         (job_status st);
     written := written st;
     background_tasks := background_tasks st |}.

(** [get_status]; [StatusResponse(...)] is the record of its arguments *)
Definition get_status (job_id : string) (st : state)
  : outcome StatusResponse :=
  match job_status st !! job_id with
  | None => Fails (HTTPException 404 "Job not found")
  | Some status =>
      match dict_get status "status", dict_get status "progress" with
      | Some status_, Some progress =>
          Responds {| sr_job_id := job_id;
                      sr_status := status_;
                      sr_progress := progress;
                      sr_processed :=
                        default (VInt 0) (dict_get status "processed");
                      sr_total := default (VInt 0) (dict_get status "total");
                      sr_details := default VNone (dict_get status "details");
                      sr_error := default VNone (dict_get status "error") |}
      | None, _ => Fails (Unhandled (Exn "KeyError" "'status'"))
      | _, None => Fails (Unhandled (Exn "KeyError" "'progress'"))
      end
  end.

End routes_documents.

(** *** [backend/api/routes/query.py] *)

Module routes_query.
Import py cache routes.

(** [result["performance"]["cached"] = True] *)
Definition mark_cached (result : dict) : res dict :=
  match dict_get result "performance" with
  | Some (VDict performance) =>
      Ret (dict_set result "performance"
             (VDict (dict_set performance "cached" (VBool true))))
  | Some _ =>
      Raise (Exn "TypeError" "object does not support item assignment")
  | None => Raise (Exn "KeyError" "'performance'")
  end.

(** The route [process_query]. [engine schema query] stands for
    [QueryEngine(db, schema, doc_processor).process_query(query)], [now]
    for [str(datetime.now())] and [QueryResponse] for the validation of
    the response model; [c] is the cache and [query_history] the list of
    the module. *)
Definition process_query (engine : value → string → res dict)
    (now : string) (QueryResponse : dict → res dict)
    (ping : bool) (c : SmartCache) (query_history : list dict)
    (request_query : string)
  : outcome dict * list dict * SmartCache :=
  let '(body, history, c') :=
    match call_method ping c "get" [VStr "database_schema"] with
    | (Raise e, c') => (Fails (Unhandled e), query_history, c')
    | (Ret schema, c') =>
        if negb (truthy schema)
        then (Fails (HTTPException 400
                       "Database not connected. Please connect first."),
              query_history, c')
        else
          match engine schema request_query with
          | Raise e => (Fails (Unhandled e), query_history, c')
          | Ret result =>
              match dict_get result "query_type" with
              | None =>
                  (Fails (Unhandled (Exn "KeyError" "'query_type'")),
                   query_history, c')
              | Some query_type =>
                  let history :=
                    query_history
                    ++ [[("query", VStr request_query);
                         ("timestamp", VStr now);
                         ("query_type", query_type)]] in
                  let marked :=
                    if truthy (default (VBool false) (dict_get result "cached"))
                    then mark_cached result else Ret result in
                  match marked ≫= QueryResponse with
                  | Ret response => (Responds response, history, c')
                  | Raise e => (Fails (Unhandled e), history, c')
                  end
              end
          end
    end in
  (reraise_as 500 body, history, c').

(** [query_history[-50:]] *)
Definition get_history (query_history : list dict) : list dict :=
  drop (length query_history - 50) query_history.

End routes_query.

(** *** [backend/api/routes/database.py] *)

Module routes_database.
Import py cache schema_discovery routes.

Record ConnectionResponse := {
  success : bool;
  message : string;
  response_summary : summary
}.

(** The route [connect_database], on the session [S] in the state [σ]
    and the cache [c]. Its only [except] clause catches every exception. *)
Definition connect_database {Σ} (S : Session Σ) (ping : bool)
    (c : SmartCache) (test_connection : bool) (σ : Σ)
  : outcome ConnectionResponse * Σ * SmartCache :=
  let '(body, σ', c') :=
    match (if test_connection then exec S "SELECT 1" σ else (Ret (), σ)) with
    | (Raise e, σ1) => (Raise e, σ1, c)
    | (Ret _, σ1) =>
        match analyze_database S σ1 with
        | (Raise e, σ2) => (Raise e, σ2, c)
        | (Ret schema, σ2) =>
            match call_method ping c "set"
                    [VStr "database_schema"; schema_value schema; VInt 3600] with
            | (Raise e, c') => (Raise e, σ2, c')
            | (Ret _, c') =>
                (Ret {| success := true;
                        message := "Database connected successfully";
                        response_summary := schema_summary schema |}, σ2, c')
            end
        end
    end in
  (match body with
   | Ret response => Responds response
   | Raise e => Fails (HTTPException 400 (exn_str e))
   end, σ', c').

(** The route [get_schema]: nothing catches what [cache.get] raises. *)
Definition get_schema (ping : bool) (c : SmartCache)
  : outcome value * SmartCache :=
  match call_method ping c "get" [VStr "database_schema"] with
  | (Raise e, c') => (Fails (Unhandled e), c')
  | (Ret schema, c') =>
      if negb (truthy schema)
      then (Fails (HTTPException 404
                     "No schema found. Connect to database first."), c')
      else (Responds schema, c')
  end.

End routes_database.

(** ** Sample data *)

Module samples.
Import py document_processor.

(** a disk holding five text files and nothing else *)
Definition read_txt (path : string) : res string :=
  if decide (path = "ann.txt") then Ret "Ann writes Python"
  else if decide (path = "bob.txt") then Ret "Bob writes Java"
  else if decide (path = "cid.txt") then Ret "Cid reviews Java"
  else if decide (path = "dee.txt") then Ret "Dee reviews Python"
  else if decide (path = "eve.txt") then Ret "Eve knows Python and Java"
  else Raise (Exn "FileNotFoundError" "No such file or directory").

Definition disk : Extractors :=
  {| _extract_pdf := λ _, Raise (Exn "FileNotFoundError" "No such file or directory");
     _extract_docx := λ _, Raise (Exn "PackageNotFoundError" "Package not found");
     _extract_txt := read_txt |}.

(** the index after ingesting the five files, with a missing one and an
    unsupported one in between *)
Definition batch : list string :=
  ["ann.txt"; "bob.txt"; "missing.txt"; "cid.txt"; "notes.md"; "dee.txt";
   "eve.txt"].
Definition index : processor :=
  (process_documents order_of_last_occurrence disk empty_processor batch).1.

(** the best hit for the query "python java" on that index *)
Definition eve_hit : hit :=
  {| hit_doc := {| doc_id := 4;
                   doc_file := "eve.txt";
                   doc_text := "Eve knows Python and Java";
                   doc_keywords := _extract_keywords order_of_last_occurrence
                                     "Eve knows Python and Java";
                   doc_preview := "Eve knows Python and Java" |};
     match_score := 2;
     matched_keywords := ["python"; "java"] |}.

(** a backend whose model answers every question with a DROP statement *)
Definition hostile : text_to_sql.Backend :=
  {| text_to_sql.generate_content := λ _, Ret "DROP TABLE employees;";
     text_to_sql.execute := λ _, Ret [];
     text_to_sql.text_of_None := Exn "ArgumentError" "Textual SQL expression expected" |}.

End samples.

(** ** Vocabulary of the statements *)

Module spec.
Import py document_processor.

(** [needle] occurs in [hay] *)
Definition occurs_in (needle hay : string) : Prop :=
  ∃ pre post, hay = pre +:+ needle +:+ post.

(** [s] begins with [p] *)
Definition begins_with (p s : string) : Prop :=
  ∃ rest, s = p +:+ rest.

(** the lower-cased table name mentions one of [terms] *)
Definition names_one_of (terms : list string) (table_name : string) : Prop :=
  ∃ term, term ∈ terms ∧ occurs_in term (lower table_name).

(** the extraction of the text of [file_path] succeeds *)
Definition extracts (X : Extractors) (file_path : string) : bool :=
  match _extract_text X file_path with
  | Ret _ => true
  | Raise _ => false
  end.

(** the extension read by [_extract_text] is not one it supports *)
Definition unsupported (file_path : string) : Prop :=
  lower (last_segment "."%char file_path) ∉ ["pdf"; "docx"; "txt"].

(** a document's [id] is its position in the document list *)
Definition ids_dense (self : processor) : Prop :=
  ∀ i d, documents self !! i = Some d → doc_id d = i.

(** every id in a posting list is an index into the document list *)
Definition postings_in_range (self : processor) : Prop :=
  ∀ k i, i ∈ posting self k → i < length (documents self).

(** the number of times [i] is listed in [ids] *)
Definition occurrences (i : nat) (ids : list nat) : nat :=
  length (filter (λ j, j = i) ids).

(** The stored keywords of the document [d] at position [i] agree with
    the posting lists: the list of a keyword of [d] refers to [i] once,
    every other list not at all. *)
Definition doc_consistent (self : processor) (i : nat) (d : document) : Prop :=
  ∀ k, occurrences i (posting self k) =
       if decide (k ∈ doc_keywords d) then 1 else 0.

(** the state of an index built by ingestion *)
Definition well_formed (self : processor) : Prop :=
  ids_dense self ∧ postings_in_range self
  ∧ ∀ i d, documents self !! i = Some d → doc_consistent self i d.

(** two runs of the loop that differ by [n] failures counted so far *)
Definition differ_by_failures (n : nat) (acc acc' : processor * report)
  : Prop :=
  acc'.1 = acc.1
  ∧ processed acc'.2 = processed acc.2
  ∧ failed acc'.2 = failed acc.2 + n
  ∧ report_documents acc'.2 = report_documents acc.2.

(** the processor after the successful ingestion of a file with the
    given text: the effect of the [try] block of [process_documents] *)
Definition with_document (H : HashOrder) (self : processor)
    (file_path text : string) : processor :=
  let doc_id := length (documents self) in
  let keywords := _extract_keywords H text in
  {| documents :=
       documents self ++
       [ {| doc_id := doc_id;
            doc_file := basename file_path;
            doc_text := text;
            doc_keywords := keywords;
            doc_preview := make_preview text |} ];
     keyword_index := foldl (index_add doc_id) (keyword_index self) keywords |}.

(** [self'] is [self] after some ingestion: the documents and every
    posting list have only been appended to, and every added document has
    its position as id and is listed under each of its keywords *)
Definition grows_from (self self' : processor) : Prop :=
  documents self `prefix_of` documents self'
  ∧ (∀ k, posting self k `prefix_of` posting self' k)
  ∧ (∀ i d, documents self' !! i = Some d →
            length (documents self) ≤ i →
            doc_id d = i
            ∧ ∀ kw, kw ∈ doc_keywords d → i ∈ posting self' kw).

(** [doc_scores.get(i, 0)] *)
Definition score_of (doc_scores : list (nat * nat)) (i : nat) : nat :=
  default 0 (dict_get doc_scores i).

(** the posting lists read for the query keywords, one after the other *)
Definition scanned (self : processor) (query_keywords : list string)
  : list nat :=
  flat_map (λ kw, posting self (lower kw)) query_keywords.

(** the order in which ids are met for the first time *)
Definition add_new (seen : list nat) (i : nat) : list nat :=
  if decide (i ∈ seen) then seen else seen ++ [i].
Definition encounter_order (self : processor) (query_keywords : list string)
  : list nat :=
  foldl add_new [] (scanned self query_keywords).

(** equal scores are listed by ascending document id *)
Definition ties_by_ascending_id (hits : list hit) : Prop :=
  ∀ i j hi hj,
    hits !! i = Some hi → hits !! j = Some hj → i < j →
    match_score hi = match_score hj →
    doc_id (hit_doc hi) < doc_id (hit_doc hj).

(** what a hit shows of the entry it was made from *)
Definition hit_entry (h : hit) : nat * nat :=
  (doc_id (hit_doc h), match_score h).

(** *** Vocabulary of the further properties *)

(** [pre] is empty or ends with a character that is no word character,
    and [post] is empty or begins with one: the two word boundaries
    around a match that has [pre] before it and [post] after it *)
Definition boundary_before (pre : string) : Prop :=
  pre = "" ∨ ∃ p c, pre = p +:+ String c "" ∧ is_word c = false.
Definition boundary_after (post : string) : Prop :=
  post = "" ∨ ∃ c p, post = String c p ∧ is_word c = false.

(** [w] is a whole word of [text]: at least three letters, between two
    word boundaries *)
Definition whole_word (w text : string) : Prop :=
  ∃ pre post,
    text = pre +:+ w +:+ post
    ∧ boundary_before pre ∧ boundary_after post
    ∧ sforall is_alpha w = true ∧ 3 ≤ len w.

(** a stored document holds the keywords and the preview of its text *)
Definition doc_from_text (d : document) : Prop :=
  (∀ w, w ∈ doc_keywords d ↔
        w ∈ findall_words (lower (doc_text d)) ∧ (w ∉ stopwords) ∧ 2 < len w)
  ∧ doc_preview d = make_preview (doc_text d).
Definition documents_from_text (self : processor) : Prop :=
  ∀ d, d ∈ documents self → doc_from_text d.

(** every posting list is in strictly ascending order *)
Definition postings_ascending (self : processor) : Prop :=
  ∀ k, StronglySorted lt (posting self k).

(** the sum of two reports of consecutive batches *)
Definition report_add (r1 r2 : report) : report :=
  {| processed := processed r1 + processed r2;
     failed := failed r1 + failed r2;
     total_documents := total_documents r2;
     report_documents := report_documents r1 ++ report_documents r2 |}.


(** the statements whose failure the analysis of a database does not
    catch: the listing of the tables and the listings of the columns *)
Definition raised_by_a_listing {Σ} (S : schema_discovery.Session Σ)
    (e : exn) : Prop :=
  (∃ statement σ, (schema_discovery.first_column S statement σ).1 = Raise e)
  ∨ (∃ statement σ, (schema_discovery.pragma_rows S statement σ).1 = Raise e)
  ∨ (∃ table σ, (schema_discovery.column_rows S table σ).1 = Raise e).

Definition purpose_inferred (t : schema_discovery.table_info) : Prop :=
  schema_discovery.table_purpose t
  = schema_discovery._infer_table_purpose (schema_discovery.table_name t)
      (schema_discovery.table_columns t).

(** an uploaded file passes the two checks of [upload_documents] *)
Definition acceptable (s : routes_documents.Settings)
    (file : routes_documents.UploadFile) : Prop :=
  routes_documents.allowed
    (lower (last_segment "."%char (routes_documents.filename file))) = true
  ∧ (routes_documents.size file ≤ routes_documents.MAX_UPLOAD_SIZE s)%Z.

(** what saving an uploaded file writes: the path and the content *)
Definition saved (s : routes_documents.Settings) (job_id : string)
    (file : routes_documents.UploadFile) : string * string :=
  (routes_documents.saved_path s job_id (routes_documents.filename file),
   routes_documents.content file).

End spec.

(** ** More sample data *)

Module fixtures.
Import py.

(** a backend whose model answers every question with a full statement *)
Definition helpful : text_to_sql.Backend :=
  {| text_to_sql.generate_content := λ _, Ret "SELECT name FROM employees;";
     text_to_sql.execute := λ _, Ret [];
     text_to_sql.text_of_None :=
       Exn "ArgumentError" "Textual SQL expression expected" |}.

Definition no_such_function : exn :=
  Exn "OperationalError" "no such function: version".

(** A SQLite database with one table. It has no [version()] function, its
    sample statement and its foreign-key statement fail; the state counts
    the statements received. *)
Definition sqlite_session : schema_discovery.Session nat :=
  {| schema_discovery.exec := λ _ n, (Ret (), S n);
     schema_discovery.scalar_str := λ _ n, (Raise no_such_function, S n);
     schema_discovery.first_column := λ _ n, (Ret ["employees"], S n);
     schema_discovery.pragma_rows := λ _ n,
       (Ret [ {| schema_discovery.cid := 0;
                 schema_discovery.pragma_name := "id";
                 schema_discovery.pragma_type := "INTEGER";
                 schema_discovery.notnull := 1;
                 schema_discovery.dflt_value := None;
                 schema_discovery.pk := 1 |};
              {| schema_discovery.cid := 1;
                 schema_discovery.pragma_name := "name";
                 schema_discovery.pragma_type := "TEXT";
                 schema_discovery.notnull := 0;
                 schema_discovery.dflt_value := None;
                 schema_discovery.pk := 0 |} ], S n);
     schema_discovery.column_rows := λ _ n, (Ret [], S n);
     schema_discovery.mapping_rows := λ _ n,
       (Raise (Exn "OperationalError" "database is locked"), S n);
     schema_discovery.key_rows := λ n,
       (Raise (Exn "OperationalError" "no such table"), S n) |}.

(** the schema [analyze_database] returns for it *)
Definition sqlite_schema : schema_discovery.schema_info :=
  {| schema_discovery.schema_tables :=
       [ {| schema_discovery.table_name := "employees";
            schema_discovery.table_purpose := "Employee information";
            schema_discovery.table_columns :=
              [ {| schema_discovery.col_name := "id";
                   schema_discovery.col_type := "INTEGER";
                   schema_discovery.col_nullable := false;
                   schema_discovery.col_default := None |};
                {| schema_discovery.col_name := "name";
                   schema_discovery.col_type := "TEXT";
                   schema_discovery.col_nullable := true;
                   schema_discovery.col_default := None |} ];
            schema_discovery.table_sample_data := [] |} ];
     schema_discovery.schema_relationships := [];
     schema_discovery.schema_summary :=
       {| schema_discovery.total_tables := 1;
          schema_discovery.total_columns := 2;
          schema_discovery.total_relationships := 0;
          schema_discovery.database_type := "sqlite" |} |}.

(** a connexion on which the listing of the tables fails *)
Definition locked : exn := Exn "OperationalError" "database is locked".

Definition locked_session : schema_discovery.Session nat :=
  {| schema_discovery.exec := λ _ n, (Ret (), S n);
     schema_discovery.scalar_str := λ _ n, (Ret "PostgreSQL 16.2", S n);
     schema_discovery.first_column := λ _ n, (Raise locked, S n);
     schema_discovery.pragma_rows := λ _ n, (Ret [], S n);
     schema_discovery.column_rows := λ _ n, (Ret [], S n);
     schema_discovery.mapping_rows := λ _ n, (Ret [], S n);
     schema_discovery.key_rows := λ n, (Ret [], S n) |}.

(** an upload of two files, the second named by its extension alone *)
Definition upload : list routes_documents.UploadFile :=
  [ {| routes_documents.filename := "cv.txt";
       routes_documents.size := 17;
       routes_documents.content := "Ann writes Python" |};
    {| routes_documents.filename := "txt";
       routes_documents.size := 15;
       routes_documents.content := "Bob writes Java" |} ].

(** the state of the documents module when nothing was ever uploaded *)
Definition fresh : routes_documents.state :=
  {| routes_documents.doc_processor := document_processor.empty_processor;
     routes_documents.job_status := ∅;
     routes_documents.written := [];
     routes_documents.background_tasks := [] |}.

(** a disk on which every file can be opened for writing *)
Definition writable (path : string) : res unit := Ret ().

(** the extractors reading the upload back *)
Definition uploaded : document_processor.Extractors :=
  {| document_processor._extract_pdf := λ _,
       Raise (Exn "FileNotFoundError" "No such file or directory");
     document_processor._extract_docx := λ _,
       Raise (Exn "PackageNotFoundError" "Package not found");
     document_processor._extract_txt := λ path,
       if decide (path = "data/uploads/job_cv.txt")
       then Ret "Ann writes Python"
       else Raise (Exn "FileNotFoundError" "No such file or directory") |}.

End fixtures.

(* ===================================================================== *)
(** * Part 2: properties                                                 *)
(* ===================================================================== *)

Import py spec.

(** ** Strings *)

Lemma append_cons a s t : String a s +:+ t = String a (s +:+ t).
Proof. reflexivity. Qed.

Lemma append_nil_l s : "" +:+ s = s.
Proof. reflexivity. Qed.

Lemma startswith_spec p s : startswith p s = true ↔ begins_with p s.
Proof.
  revert s. induction p as [|a p IH]; intros s; simpl.
  - split; [intros _; by exists s | done].
  - destruct s as [|b s].
    + split; [done | intros [rest Hr]; discriminate Hr].
    + destruct (decide (a = b)) as [->|Hne].
      * rewrite IH. split; intros [rest Hr]; exists rest.
        -- by rewrite append_cons, Hr.
        -- rewrite append_cons in Hr. by injection Hr.
      * split; [done | intros [rest Hr]].
        rewrite append_cons in Hr. by injection Hr as ? ?.
Qed.

Lemma contains_unfold needle hay :
  contains needle hay =
  startswith needle hay ||
  match hay with "" => false | String _ hay' => contains needle hay' end.
Proof. by destruct hay. Qed.

Lemma contains_spec needle hay : contains needle hay = true ↔ occurs_in needle hay.
Proof.
  split.
  - induction hay as [|c hay IH]; rewrite contains_unfold.
    + rewrite orb_false_r, startswith_spec. intros [rest ->]. by exists "", rest.
    + intros [Hs | Hc]%orb_true_iff.
      * apply startswith_spec in Hs as [rest ->]. by exists "", rest.
      * destruct (IH Hc) as (pre & post & ->). by exists (String c pre), post.
  - intros (pre & post & ->). induction pre as [|c pre IH].
    + rewrite append_nil_l, contains_unfold.
      apply orb_true_iff. left. apply startswith_spec. by exists post.
    + rewrite append_cons, contains_unfold, IH. apply orb_true_r.
Qed.

Lemma any_in_spec terms text :
  any_in terms text = true ↔ ∃ term, term ∈ terms ∧ occurs_in term text.
Proof.
  unfold any_in. rewrite existsb_exists. split.
  - intros (term & Hin & Hc). exists term.
    by rewrite <- list_elem_of_In, <- contains_spec in *.
  - intros (term & Hin & Hc). exists term.
    by rewrite <- list_elem_of_In, <- contains_spec in *.
Qed.

Lemma any_in_false terms text :
  any_in terms text = false ↔ ¬ ∃ term, term ∈ terms ∧ occurs_in term text.
Proof. rewrite <- any_in_spec. by destruct (any_in terms text). Qed.

#[global] Instance begins_with_dec p s : Decision (begins_with p s).
Proof.
  refine (cast_if (decide (startswith p s = true))); by rewrite <- startswith_spec.
Defined.

#[global] Instance occurs_in_dec needle hay : Decision (occurs_in needle hay).
Proof.
  refine (cast_if (decide (contains needle hay = true))); by rewrite <- contains_spec.
Defined.

Lemma count_in_spec kws text :
  count_in kws text = length (filter (λ kw, occurs_in kw text) kws).
Proof.
  unfold count_in. f_equal. apply list_filter_iff. intros kw. apply contains_spec.
Qed.

(** ** Query classification *)

Section classification.
Import query_engine.

(** C2, as the specification states it, fails: the third of its examples
    is routed to the document path, not to the hybrid one, because none
    of the SQL phrases occurs in it. *)
Lemma C2_example_is_not_hybrid :
  sql_score "list employees with python skills" = 0 ∧
  doc_score "list employees with python skills" = 2 ∧
  _classify_query "list employees with python skills" = document ∧
  _classify_query "list employees with python skills" ≠ hybrid.
Proof. by vm_compute. Qed.

(** C2 (amended): classification is a function of the two scores (the
    numbers of fixed phrases occurring in the lower-cased query), decided
    in this order: both positive gives hybrid; otherwise a SQL score above
    the document score gives sql; otherwise a positive document score
    gives document; otherwise sql. The four example queries are classified
    sql, document, document and sql. *)
Theorem C2_classification :
  (∀ query,
     let s := sql_score query in
     let d := doc_score query in
     let r := _classify_query query in
     (0 < s ∧ 0 < d ∧ r = hybrid)
     ∨ ((s = 0 ∨ d = 0) ∧ d < s ∧ r = sql)
     ∨ ((s = 0 ∨ d = 0) ∧ s ≤ d ∧ 0 < d ∧ r = document)
     ∨ ((s = 0 ∨ d = 0) ∧ s ≤ d ∧ d = 0 ∧ r = sql))
  ∧ (∀ query,
       sql_score query = length (filter (λ kw, occurs_in kw (lower query)) sql_keywords)
     ∧ doc_score query = length (filter (λ kw, occurs_in kw (lower query)) doc_keywords))
  ∧ _classify_query "how many employees are in engineering" = sql
  ∧ _classify_query "what are this candidate's skills" = document
  ∧ _classify_query "list employees with python skills" = document
  ∧ _classify_query "hello" = sql.
Proof.
  split; [|split; [|by vm_compute]].
  - intros query s d r. subst r. unfold _classify_query. fold s d.
    destruct (Nat.ltb_spec 0 s), (Nat.ltb_spec 0 d),
      (Nat.ltb_spec d s); simpl; try lia; eauto 10 with lia.
  - intros query. unfold sql_score, doc_score. by rewrite !count_in_spec.
Qed.

End classification.

(** ** Table purpose *)

Section table_purpose.
Import schema_discovery.

(** C7, as the specification states it, fails: the code also looks for
    the abbreviations "emp" and "dept", so a table named [dept] is a
    department table and one named [temp_data] an employee table, where
    the keyword groups of the specification give the general purpose. *)
Lemma C7_abbreviations_match :
  _infer_table_purpose "dept" [] = "Department/organizational structure"
  ∧ purpose_as_specified "dept" = "General data table"
  ∧ _infer_table_purpose "temp_data" [] = "Employee information"
  ∧ purpose_as_specified "temp_data" = "General data table"
  ∧ _infer_table_purpose "dept" [] ≠ purpose_as_specified "dept".
Proof. by vm_compute. Qed.

(** C7 (amended): the purpose of a table is decided by the first of these
    groups one of whose terms occurs in the lower-cased table name:
    employee/staff/personnel/emp, department/dept/division,
    salary/compensation/pay, document/file/attachment; a name matching
    none of them is a general data table. The columns play no part. *)
Theorem C7_table_purpose table_name columns :
  let r := _infer_table_purpose table_name columns in
  let g1 := names_one_of ["employee"; "staff"; "personnel"; "emp"] table_name in
  let g2 := names_one_of ["department"; "dept"; "division"] table_name in
  let g3 := names_one_of ["salary"; "compensation"; "pay"] table_name in
  let g4 := names_one_of ["document"; "file"; "attachment"] table_name in
  (g1 ∧ r = "Employee information")
  ∨ (¬ g1 ∧ g2 ∧ r = "Department/organizational structure")
  ∨ (¬ g1 ∧ ¬ g2 ∧ g3 ∧ r = "Salary and compensation data")
  ∨ (¬ g1 ∧ ¬ g2 ∧ ¬ g3 ∧ g4 ∧ r = "Document storage")
  ∨ (¬ g1 ∧ ¬ g2 ∧ ¬ g3 ∧ ¬ g4 ∧ r = "General data table").
Proof.
  intros r g1 g2 g3 g4. subst r g1 g2 g3 g4.
  unfold _infer_table_purpose, names_one_of.
  repeat match goal with
  | |- context [any_in ?ts ?s] =>
      let E := fresh "E" in
      destruct (any_in ts s) eqn:E;
      [apply any_in_spec in E | apply any_in_false in E]
  end; tauto.
Qed.

End table_purpose.

(** ** SQL validation *)

Section validation.
Import text_to_sql query_engine.

Lemma first_dangerous_None sql_upper :
  first_dangerous sql_upper = None ↔
  ¬ ∃ keyword, keyword ∈ dangerous ∧ occurs_in keyword sql_upper.
Proof.
  unfold first_dangerous. rewrite <- any_in_spec. unfold any_in.
  induction dangerous as [|k ks IH]; simpl; [done|].
  destruct (contains k sql_upper); simpl; [done|]. exact IH.
Qed.

Lemma first_dangerous_Some sql_upper keyword :
  first_dangerous sql_upper = Some keyword →
  keyword ∈ dangerous ∧ occurs_in keyword sql_upper.
Proof.
  unfold first_dangerous. intros Hf.
  apply find_some in Hf as [Hin Hc].
  by rewrite <- list_elem_of_In, <- contains_spec in *.
Qed.

(** the three ways a statement is rejected *)
Lemma validate_rejects sql :
  (_validate_sql sql).1 = false ↔
  sql = ""
  ∨ (∃ keyword, keyword ∈ dangerous ∧ occurs_in keyword (upper sql))
  ∨ ¬ begins_with "SELECT" (strip (upper sql)).
Proof.
  unfold _validate_sql. destruct (decide (sql = "")) as [->|Hne]; cbn [fst].
  { tauto. }
  destruct (first_dangerous (upper sql)) as [keyword|] eqn:Hd; cbn [fst].
  { apply first_dangerous_Some in Hd. split; [|done]. intros _. right. left. eauto. }
  apply first_dangerous_None in Hd.
  destruct (startswith "SELECT" (strip (upper sql))) eqn:Hs; cbn [fst negb].
  - apply startswith_spec in Hs. split; [done|]. tauto.
  - split; [|done]. intros _. right. right. rewrite <- startswith_spec. congruence.
Qed.

(** a rejection always comes with a message *)
Lemma validate_message sql :
  (_validate_sql sql).1 = false → truthy (VStr (_validate_sql sql).2) = true.
Proof.
  unfold _validate_sql. destruct (decide (sql = "")); [done|].
  destruct (first_dangerous (upper sql)); [done|].
  by destruct (startswith "SELECT" (strip (upper sql))).
Qed.

(** a rejected statement: [generate_sql] reports the error *)
Lemma generate_sql_rejected B user_query schema sql_text :
  generate_content B user_query = Ret sql_text →
  (_validate_sql (_extract_sql sql_text)).1 = false →
  generate_sql B user_query schema =
    [("sql", VNone);
     ("error", VStr (_validate_sql (_extract_sql sql_text)).2);
     ("explanation", VStr sql_text)].
Proof.
  intros Hgen Hbad. unfold generate_sql. rewrite Hgen. simpl.
  destruct (_validate_sql (_extract_sql sql_text)) as [ok msg].
  simpl in *. by subst ok.
Qed.

(** the row-count ceiling is put before the statement terminator *)
Example optimize_adds_limit :
  _optimize_sql "SELECT * FROM t" = "SELECT * FROM t LIMIT 100;"
  ∧ _optimize_sql "SELECT * FROM t;" = "SELECT * FROM t LIMIT 100;"
  ∧ _optimize_sql "select * from t limit 5;" = "select * from t limit 5;".
Proof. by vm_compute. Qed.

(** what [_extract_sql] hands to the validation *)
Example extract_sql_samples :
  _extract_sql "  DROP TABLE employees;  " = "DROP TABLE employees;"
  ∧ _extract_sql "SELECT * FROM employees" = "SELECT;"
  ∧ _extract_sql "my sql   " = "".
Proof. by vm_compute. Qed.

(** C3: a statement is rejected exactly when it is empty, or one of DROP,
    DELETE, TRUNCATE, ALTER, CREATE, UPDATE occurs anywhere in its
    upper-cased text, or its upper-cased text, trimmed of whitespace, does
    not begin with SELECT; every other statement is accepted. A SELECT
    over a column named update_count is rejected. A rejected statement is
    never sent to the database: the handler returns the error alone. *)
Theorem C3_validation :
  (∀ sql,
     (_validate_sql sql).1 = false ↔
     sql = ""
     ∨ (∃ keyword, keyword ∈ dangerous ∧ occurs_in keyword (upper sql))
     ∨ ¬ begins_with "SELECT" (strip (upper sql)))
  ∧ (∀ sql,
       (_validate_sql sql).1 = true ↔
       sql ≠ ""
       ∧ (∀ keyword, keyword ∈ dangerous → ¬ occurs_in keyword (upper sql))
       ∧ begins_with "SELECT" (strip (upper sql)))
  ∧ _validate_sql "SELECT update_count FROM t" = (false, "Dangerous operation: UPDATE")
  ∧ _validate_sql "drop table x" = (false, "Dangerous operation: DROP")
  ∧ _validate_sql "  select name from employees ;  " = (true, "")
  ∧ (∀ B schema user_query sql_text,
       generate_content B user_query = Ret sql_text →
       (_validate_sql (_extract_sql sql_text)).1 = false →
       sql_handler_body B schema user_query =
         ([("error", VStr (_validate_sql (_extract_sql sql_text)).2)], [])).
Proof.
  split; [exact validate_rejects|].
  split; [|split; [by vm_compute|split; [by vm_compute|split; [by vm_compute|]]]].
  - intros sql. pose proof (validate_rejects sql) as Hr.
    destruct (_validate_sql sql).1.
    + assert (¬ (sql = ""
                 ∨ (∃ keyword, keyword ∈ dangerous ∧ occurs_in keyword (upper sql))
                 ∨ ¬ begins_with "SELECT" (strip (upper sql)))) as Hn.
      { intros HR. by apply Hr in HR. }
      clear Hr. split; [intros _|done].
      destruct (decide (begins_with "SELECT" (strip (upper sql)))); naive_solver.
    + split; [done|]. intros (Hne & Hk & Hb).
      destruct Hr as [Hrej _]. destruct (Hrej eq_refl) as [?|[(k & ? & ?)|?]];
        [done|by destruct (Hk k)|done].
  - intros B schema user_query sql_text Hgen Hbad.
    unfold sql_handler_body.
    rewrite (generate_sql_rejected _ _ _ _ Hgen Hbad).
    pose proof (validate_message _ Hbad) as Ht.
    destruct (_validate_sql (_extract_sql sql_text)) as [ok msg].
    simpl in *. by rewrite Ht.
Qed.

End validation.

(** ** Keyword extraction *)

Section keywords.
Import document_processor.

Lemma append_assoc (s t u : string) : (s +:+ t) +:+ u = s +:+ t +:+ u.
Proof. induction s as [|c s IH]; [done|]. by rewrite !append_cons, IH. Qed.

Lemma append_nil_r (s : string) : s +:+ "" = s.
Proof. induction s as [|c s IH]; [done|]. by rewrite append_cons, IH. Qed.

Lemma len_append (s t : string) : len (s +:+ t) = len s + len t.
Proof. induction s as [|c s IH]; [done|]. rewrite append_cons. simpl. by rewrite IH. Qed.

Lemma sforall_append P (s t : string) :
  sforall P (s +:+ t) = sforall P s && sforall P t.
Proof.
  induction s as [|c s IH]; [done|].
  rewrite append_cons. simpl. by rewrite IH, andb_assoc.
Qed.

Lemma sforall_smap P f (s : string) :
  (∀ c, P (f c) = true) → sforall P (smap f s) = true.
Proof. intros Hf. induction s as [|c s IH]; [done|]. simpl. by rewrite Hf, IH. Qed.

Lemma ascii_lower_not_upper c : negb (is_upper (ascii_lower c)) = true.
Proof. by destruct c as [[] [] [] [] [] [] [] []]; vm_compute. Qed.

Lemma alpha_not_upper c :
  is_alpha c = true → negb (is_upper c) = true → is_lower c = true.
Proof. unfold is_alpha. by destruct (is_upper c). Qed.

Lemma lower_fixed (s : string) :
  sforall (λ c, negb (is_upper c)) s = true → lower s = s.
Proof.
  induction s as [|c s IH]; [done|]. simpl.
  intros [Hc Hs]%andb_true_iff. unfold lower in *. simpl.
  rewrite (IH Hs). unfold ascii_lower.
  by destruct (is_upper c).
Qed.

Lemma flush_elem w run alpha :
  w ∈ flush run alpha → w = run ∧ alpha = true ∧ 3 ≤ len run.
Proof.
  unfold flush.
  destruct alpha, (Nat.leb_spec 3 (len run)); cbn [andb];
    try (by intros ?%elem_of_nil).
  by intros ->%list_elem_of_singleton.
Qed.

(** every reported word is a run of at least three letters *)
Lemma findall_words_go_alpha text : ∀ run alpha w,
  (alpha = true → sforall is_alpha run = true) →
  w ∈ findall_words_go run alpha text →
  sforall is_alpha w = true ∧ 3 ≤ len w.
Proof.
  induction text as [|c text IH]; intros run alpha w Hrun; simpl.
  - intros (-> & Ha & Hl)%flush_elem. auto.
  - destruct (is_word c).
    + apply IH. intros [Ha Hc]%andb_true_iff.
      by rewrite sforall_append, (Hrun Ha); simpl; rewrite Hc.
    + intros [(-> & Ha & Hl)%flush_elem | Hw]%elem_of_app; [auto|].
      by eapply IH, Hw.
Qed.

(** every reported word is made of characters of the text *)
Lemma findall_words_go_chars P text : ∀ run alpha w,
  sforall P run = true → sforall P text = true →
  w ∈ findall_words_go run alpha text → sforall P w = true.
Proof.
  induction text as [|c text IH]; intros run alpha w Hrun; simpl.
  - by intros _ (-> & _)%flush_elem.
  - intros [Hc Ht]%andb_true_iff. destruct (is_word c).
    + apply IH; [|done]. by rewrite sforall_append, Hrun; simpl; rewrite Hc.
    + intros [(-> & _)%flush_elem | Hw]%elem_of_app; [done|].
      by eapply IH, Hw.
Qed.

(** every reported word occurs in the text *)
Lemma findall_words_go_occurs text : ∀ pre run alpha w,
  w ∈ findall_words_go run alpha text →
  occurs_in w (pre +:+ run +:+ text).
Proof.
  induction text as [|c text IH]; intros pre run alpha w; simpl.
  - intros (-> & _)%flush_elem. by exists pre, "".
  - destruct (is_word c).
    + intros Hw. apply (IH pre) in Hw.
      by rewrite append_assoc in Hw.
    + intros [(-> & _)%flush_elem | Hw]%elem_of_app.
      * by exists pre, (String c text).
      * apply (IH (pre +:+ run +:+ String c "")) in Hw.
        by rewrite append_nil_l, !append_assoc in Hw.
Qed.

Lemma findall_words_spec text w :
  w ∈ findall_words text →
  occurs_in w text ∧ sforall is_alpha w = true ∧ 3 ≤ len w.
Proof.
  intros Hw. split.
  - by apply (findall_words_go_occurs text "" "" true).
  - by eapply findall_words_go_alpha, Hw.
Qed.

Lemma findall_words_lower text w :
  w ∈ findall_words (lower text) → sforall is_lower w = true.
Proof.
  intros Hw.
  assert (sforall (λ c, negb (is_upper c)) w = true) as Hnu.
  { eapply findall_words_go_chars, Hw; [done|].
    apply sforall_smap, ascii_lower_not_upper. }
  apply findall_words_spec in Hw as (_ & Ha & _).
  clear -Ha Hnu. induction w as [|c w IH]; [done|]. simpl in *.
  apply andb_true_iff in Ha as [??], Hnu as [??].
  by rewrite alpha_not_upper, IH.
Qed.

Lemma lower_is_lower (w : string) : sforall is_lower w = true → lower w = w.
Proof.
  intros Hw. apply lower_fixed. induction w as [|c w IH]; [done|].
  simpl in *. apply andb_true_iff in Hw as [Hc Hw]. rewrite (IH Hw), andb_true_r.
  clear -Hc. by destruct c as [[] [] [] [] [] [] [] []]; vm_compute in *.
Qed.

(** membership in the extracted set *)
Lemma extract_keywords_elem H text w :
  w ∈ _extract_keywords H text ↔
  w ∈ findall_words (lower text) ∧ (w ∉ stopwords) ∧ 2 < len w.
Proof.
  unfold _extract_keywords. rewrite set_of_elem, list_elem_of_filter. tauto.
Qed.

Lemma extract_keywords_NoDup H text : NoDup (_extract_keywords H text).
Proof. apply set_of_NoDup. Qed.

Lemma extract_keywords_lower H text w :
  w ∈ _extract_keywords H text → lower w = w.
Proof.
  intros (Hw & _)%extract_keywords_elem.
  by apply lower_is_lower, findall_words_lower with text.
Qed.

(** two hash orders give the same set *)
Lemma extract_keywords_order H1 H2 text :
  _extract_keywords H1 text ≡ₚ _extract_keywords H2 text.
Proof.
  apply NoDup_Permutation; [apply set_of_NoDup..|].
  intros w. by rewrite !extract_keywords_elem.
Qed.

Lemma search_no_keywords H self query top_k :
  _extract_keywords H query = [] → search H self query top_k = [].
Proof. unfold search. by intros ->. Qed.

(** C5: keyword extraction is a function of the text alone: it reads and
    writes no state, so repeated calls agree, and the same text gives the
    same set in whatever order the set is iterated; every keyword is a run of at least three letters
    of the lower-cased text, is lower-case, is no stopword and has more
    than two characters; the result has no duplicates; the example text
    yields exactly employee, python and skills; and a query without
    keywords makes [search] return the empty list. *)
Theorem C5_keyword_extraction :
  (∀ H1 H2 text, _extract_keywords H1 text ≡ₚ _extract_keywords H2 text)
  ∧ (∀ H text, NoDup (_extract_keywords H text))
  ∧ (∀ H text w,
       w ∈ _extract_keywords H text →
       occurs_in w (lower text)
       ∧ 3 ≤ len w
       ∧ sforall is_lower w = true
       ∧ (w ∉ stopwords)
       ∧ ¬ len w ≤ 2)
  ∧ (∀ H text w,
       w ∈ findall_words (lower text) → w ∉ stopwords → 2 < len w →
       w ∈ _extract_keywords H text)
  ∧ (∀ H, _extract_keywords H "The Employee has Python skills"
           ≡ₚ ["employee"; "python"; "skills"])
  ∧ (∀ H self query top_k,
       _extract_keywords H query = [] → search H self query top_k = []).
Proof.
  split; [apply extract_keywords_order|].
  split; [apply extract_keywords_NoDup|]. split; [|split; [|split]].
  - intros H text w Hw.
    pose proof Hw as (Hf & Hs & Hl)%extract_keywords_elem.
    pose proof (findall_words_spec _ _ Hf) as (Ho & _ & H3).
    pose proof (findall_words_lower _ _ Hf). repeat split; auto with lia.
  - intros H text w ???. by apply extract_keywords_elem.
  - intros H. rewrite (extract_keywords_order H order_of_last_occurrence).
    by vm_compute.
  - apply search_no_keywords.
Qed.

End keywords.

(** ** Batch ingestion *)

Section ingestion.
Import document_processor.
Context (H : HashOrder) (X : Extractors).

Lemma extract_text_unsupported file_path :
  unsupported file_path →
  _extract_text X file_path =
    Raise (Exn "ValueError"
             ("Unsupported file type: " +:+ lower (last_segment "."%char file_path))).
Proof.
  unfold unsupported, _extract_text. intros Hu.
  repeat case_decide; try done; exfalso; apply Hu; set_solver.
Qed.

Lemma unsupported_fails file_path :
  unsupported file_path → extracts X file_path = false.
Proof. intros Hu. unfold extracts. by rewrite extract_text_unsupported. Qed.

(** a file whose extraction raises: one more failure, nothing else *)
Lemma process_file_failure acc file_path :
  extracts X file_path = false →
  process_file H X acc file_path =
    (acc.1, {| processed := processed acc.2;
               failed := failed acc.2 + 1;
               total_documents := total_documents acc.2;
               report_documents := report_documents acc.2 |}).
Proof.
  unfold extracts, process_file, ingest_file.
  by destruct (_extract_text X file_path).
Qed.

(** a file whose extraction succeeds: one more document *)
Lemma process_file_success acc file_path :
  extracts X file_path = true →
  ∃ text,
    _extract_text X file_path = Ret text ∧
    process_file H X acc file_path =
      ({| documents :=
            documents acc.1 ++
            [ {| doc_id := length (documents acc.1);
                 doc_file := basename file_path;
                 doc_text := text;
                 doc_keywords := _extract_keywords H text;
                 doc_preview := make_preview text |} ];
          keyword_index :=
            foldl (index_add (length (documents acc.1)))
              (keyword_index acc.1) (_extract_keywords H text) |},
       {| processed := processed acc.2 + 1;
          failed := failed acc.2;
          total_documents := total_documents acc.2;
          report_documents :=
            report_documents acc.2 ++
            [(basename file_path, length (_extract_keywords H text))] |}).
Proof.
  unfold extracts, process_file, ingest_file.
  destruct (_extract_text X file_path) as [text|]; [|done].
  intros _. by exists text.
Qed.

(** the counters after the loop *)
Lemma process_files_counts file_paths : ∀ acc,
  let acc' := foldl (process_file H X) acc file_paths in
  let ok := length (filter (λ f, extracts X f = true) file_paths) in
  let ko := length (filter (λ f, extracts X f = false) file_paths) in
  processed acc'.2 = processed acc.2 + ok
  ∧ failed acc'.2 = failed acc.2 + ko
  ∧ length (documents acc'.1) = length (documents acc.1) + ok
  ∧ length (report_documents acc'.2) = length (report_documents acc.2) + ok.
Proof.
  induction file_paths as [|f fs IH]; intros acc; simpl.
  { repeat split; lia. }
  specialize (IH (process_file H X acc f)). simpl in IH.
  destruct IH as (IH1 & IH2 & IH3 & IH4).
  rewrite IH1, IH2, IH3, IH4. rewrite !filter_cons.
  destruct (extracts X f) eqn:Hf.
  - destruct (process_file_success acc f Hf) as (text & _ & ->).
    repeat case_decide; try done. simpl. rewrite !length_app. simpl.
    repeat split; lia.
  - rewrite (process_file_failure acc f Hf).
    repeat case_decide; try done. simpl. repeat split; lia.
Qed.

Lemma process_documents_unfold self file_paths :
  process_documents H X self file_paths =
  let acc := foldl (process_file H X) (self, empty_report) file_paths in
  (acc.1, {| processed := processed acc.2;
             failed := failed acc.2;
             total_documents := length (documents acc.1);
             report_documents := report_documents acc.2 |}).
Proof.
  unfold process_documents.
  by destruct (foldl (process_file H X) (self, empty_report) file_paths).
Qed.

(** the loop picks up after a file that failed *)
Lemma process_files_app acc fs1 fs2 :
  foldl (process_file H X) acc (fs1 ++ fs2) =
  foldl (process_file H X) (foldl (process_file H X) acc fs1) fs2.
Proof. apply foldl_app. Qed.

Lemma process_file_differ n acc acc' f :
  differ_by_failures n acc acc' →
  differ_by_failures n (process_file H X acc f) (process_file H X acc' f).
Proof.
  intros (E1 & E2 & E3 & E4). destruct (extracts X f) eqn:Hf.
  - destruct (process_file_success acc f Hf) as (text & Ht & ->).
    destruct (process_file_success acc' f Hf) as (text' & Ht' & ->).
    assert (text' = text) as -> by congruence.
    unfold differ_by_failures. simpl. by rewrite E1, E2, E3, E4.
  - rewrite !(process_file_failure _ f Hf).
    unfold differ_by_failures. simpl. rewrite E3. repeat split; auto with lia.
Qed.

Lemma process_files_differ n fs : ∀ acc acc',
  differ_by_failures n acc acc' →
  differ_by_failures n (foldl (process_file H X) acc fs)
    (foldl (process_file H X) acc' fs).
Proof.
  induction fs as [|f fs IH]; intros acc acc' Hd; [done|].
  simpl. by apply IH, process_file_differ.
Qed.

(** C6: a batch always completes with its report. A file whose text
    extraction raises (any unsupported extension raises ValueError) adds
    exactly one to [failed] and leaves [processed], the documents, the
    index and the per-file list as they were, and the files after it are
    processed all the same: the batch ends as it would without that file,
    but for the one failure more. [failed] counts the files whose extraction
    fails, [processed] and the per-file list those whose extraction
    succeeds, and [total_documents] is the length of the document list. *)
Theorem C6_partial_failure :
  (∀ file_path,
     unsupported file_path →
     extracts X file_path = false
     ∧ ∃ msg, _extract_text X file_path = Raise (Exn "ValueError" msg))
  ∧ (∀ acc file_path,
       extracts X file_path = false →
       let acc' := process_file H X acc file_path in
       acc'.1 = acc.1
       ∧ failed acc'.2 = failed acc.2 + 1
       ∧ processed acc'.2 = processed acc.2
       ∧ report_documents acc'.2 = report_documents acc.2)
  ∧ (∀ self before file_path after,
       extracts X file_path = false →
       let without := process_documents H X self (before ++ after) in
       let out := process_documents H X self (before ++ file_path :: after) in
       out.1 = without.1
       ∧ processed out.2 = processed without.2
       ∧ failed out.2 = failed without.2 + 1
       ∧ total_documents out.2 = total_documents without.2
       ∧ report_documents out.2 = report_documents without.2)
  ∧ (∀ self file_paths,
       let out := process_documents H X self file_paths in
       processed out.2 = length (filter (λ f, extracts X f = true) file_paths)
       ∧ failed out.2 = length (filter (λ f, extracts X f = false) file_paths)
       ∧ processed out.2 + failed out.2 = length file_paths
       ∧ total_documents out.2 = length (documents out.1)
       ∧ length (documents out.1) = length (documents self) + processed out.2
       ∧ length (report_documents out.2) = processed out.2).
Proof.
  split; [|split; [|split]].
  - intros f Hu. split; [by apply unsupported_fails|].
    eexists. by apply extract_text_unsupported.
  - intros acc f Hf. simpl. by rewrite process_file_failure.
  - intros self before f after Hf. simpl.
    rewrite !process_documents_unfold. simpl.
    rewrite !process_files_app. simpl.
    set (acc := foldl (process_file H X) (self, empty_report) before).
    destruct (process_files_differ 1 after acc (process_file H X acc f))
      as (E1 & E2 & E3 & E4).
    { rewrite (process_file_failure _ f Hf). by unfold differ_by_failures. }
    by rewrite E1, E2, E3, E4.
  - intros self fs. simpl. rewrite process_documents_unfold. simpl.
    destruct (process_files_counts fs (self, empty_report))
      as (E1 & E2 & E3 & E4). simpl in *.
    rewrite E1, E2, E3, E4. repeat split; try lia.
    clear. induction fs as [|f fs IH]; [done|]. rewrite !filter_cons.
    destruct (extracts X f); repeat case_decide; try done; simpl; lia.
Qed.

End ingestion.

(** ** The index under ingestion *)

Section index_invariants.
Import document_processor.
Context (H : HashOrder) (X : Extractors).

Lemma occurrences_app i l1 l2 :
  occurrences i (l1 ++ l2) = occurrences i l1 + occurrences i l2.
Proof. unfold occurrences. by rewrite filter_app, length_app. Qed.

Lemma occurrences_absent i l : i ∉ l → occurrences i l = 0.
Proof.
  unfold occurrences. induction l as [|j l IH]; [done|].
  intros [Hne Hl]%not_elem_of_cons. rewrite filter_cons.
  case_decide; [congruence|]. by apply IH.
Qed.

Lemma occurrences_absent_inv i l : occurrences i l = 0 → i ∉ l.
Proof.
  unfold occurrences. intros Hz Hin.
  assert (i ∈ filter (λ j, j = i) l) as Hf by by apply list_elem_of_filter.
  destruct (filter (λ j, j = i) l); [by apply elem_of_nil in Hf|done].
Qed.

Lemma occurrences_present i l : 0 < occurrences i l → i ∈ l.
Proof.
  intros Hpos. destruct (decide (i ∈ l)) as [|Hn]; [done|].
  apply occurrences_absent in Hn. lia.
Qed.

Lemma posting_index_add n kws : ∀ index k,
  foldl (index_add n) index kws !!! k =
  index !!! k ++ replicate (length (filter (λ kw, lower kw = k) kws)) n.
Proof.
  induction kws as [|kw kws IH]; intros index k; simpl.
  { by rewrite app_nil_r. }
  rewrite IH, filter_cons. unfold index_add.
  destruct (decide (lower kw = k)) as [->|Hne].
  - rewrite lookup_total_insert_eq. simpl. by rewrite <- app_assoc.
  - by rewrite lookup_total_insert_ne.
Qed.

Lemma count_keyword (kws : list string) k :
  NoDup kws → (∀ kw, kw ∈ kws → lower kw = kw) →
  length (filter (λ kw, lower kw = k) kws) = if decide (k ∈ kws) then 1 else 0.
Proof.
  induction 1 as [|kw kws Hnin Hnd IH]; intros Hlow; [done|].
  assert (length (filter (λ kw, lower kw = k) kws)
          = if decide (k ∈ kws) then 1 else 0) as IH'.
  { apply IH. intros kw' Hin. apply Hlow. by right. }
  rewrite filter_cons.
  destruct (decide (lower kw = k)) as [E|E]; rewrite (Hlow kw) in E by left.
  - subst k. simpl. rewrite IH', decide_False by done.
    by rewrite decide_True by left.
  - rewrite IH'. destruct (decide (k ∈ kws)).
    + by rewrite decide_True by by right.
    + rewrite decide_False; [done|]. by intros [?|?]%elem_of_cons.
Qed.

(** what a successful ingestion appends to a posting list *)
Lemma posting_with_document self file_path text k :
  posting (with_document H self file_path text) k =
  posting self k ++
  (if decide (k ∈ _extract_keywords H text)
   then [length (documents self)] else []).
Proof.
  unfold posting, with_document. simpl. rewrite posting_index_add.
  rewrite count_keyword;
    [|apply extract_keywords_NoDup|apply extract_keywords_lower].
  by case_decide.
Qed.

Lemma process_file_processor acc file_path :
  (process_file H X acc file_path).1 =
  match _extract_text X file_path with
  | Ret text => with_document H acc.1 file_path text
  | Raise _ => acc.1
  end.
Proof.
  unfold process_file, ingest_file.
  by destruct (_extract_text X file_path).
Qed.

(** *** Append-only growth *)

Lemma grows_from_refl self : grows_from self self.
Proof.
  split; [done|]. split; [done|].
  intros i d Hd Hi. apply lookup_lt_Some in Hd. lia.
Qed.

Lemma grows_from_with_document self self1 file_path text :
  grows_from self self1 →
  grows_from self (with_document H self1 file_path text).
Proof.
  intros (Hdocs & Hpost & Hnew). split; [|split].
  - by apply prefix_app_r.
  - intros k. rewrite posting_with_document. by apply prefix_app_r.
  - intros i d Hd Hi. simpl in Hd.
    apply lookup_app_Some in Hd as [Hd | [Hlen Hd]].
    + destruct (Hnew i d Hd Hi) as [Hid Hkw]. split; [done|].
      intros kw Hin. rewrite posting_with_document.
      apply elem_of_app. left. by apply Hkw.
    + apply list_lookup_singleton_Some in Hd as [Hz <-]. simpl.
      assert (i = length (documents self1)) as -> by lia.
      split; [done|]. intros kw Hin. rewrite posting_with_document.
      rewrite decide_True by done. apply elem_of_app. right. by left.
Qed.

Lemma grows_from_process_files self file_paths : ∀ acc,
  grows_from self acc.1 →
  grows_from self (foldl (process_file H X) acc file_paths).1.
Proof.
  induction file_paths as [|f fs IH]; intros acc Hg; [done|].
  simpl. apply IH. rewrite process_file_processor.
  destruct (_extract_text X f); [|done].
  by apply grows_from_with_document.
Qed.

(** *** Well-formedness *)

Lemma well_formed_empty : well_formed empty_processor.
Proof.
  split; [|split].
  - by intros i d ?.
  - intros k i. unfold posting. simpl. rewrite lookup_total_empty.
    by intros ?%elem_of_nil.
  - by intros i d ?.
Qed.

Lemma well_formed_with_document self file_path text :
  well_formed self → well_formed (with_document H self file_path text).
Proof.
  intros (Hids & Hrange & Hcons).
  assert (∀ k, length (documents self) ∉ posting self k) as Hfresh.
  { intros k Hin. apply Hrange in Hin. lia. }
  split; [|split].
  - intros i d Hd. simpl in Hd.
    apply lookup_app_Some in Hd as [Hd | [Hlen Hd]]; [by apply Hids|].
    apply list_lookup_singleton_Some in Hd as [Hz <-]. simpl. lia.
  - intros k i. rewrite posting_with_document. simpl. rewrite length_app. simpl.
    intros [Hin | Hin]%elem_of_app.
    + apply Hrange in Hin. lia.
    + case_decide; [|by apply elem_of_nil in Hin].
      apply list_elem_of_singleton in Hin. lia.
  - intros i d Hd k. simpl in Hd.
    rewrite posting_with_document, occurrences_app.
    apply lookup_app_Some in Hd as [Hd | [Hlen Hd]].
    + rewrite (Hcons i d Hd k).
      apply lookup_lt_Some in Hd.
      rewrite (occurrences_absent i); [lia|].
      case_decide; [|by apply not_elem_of_nil].
      intros ?%list_elem_of_singleton. lia.
    + apply list_lookup_singleton_Some in Hd as [Hz <-]. simpl.
      assert (i = length (documents self)) as -> by lia.
      rewrite (occurrences_absent _ (posting self k)) by apply Hfresh.
      unfold occurrences. case_decide; [|done].
      by rewrite filter_cons_True.
Qed.

Lemma well_formed_process_files file_paths : ∀ acc,
  well_formed acc.1 →
  well_formed (foldl (process_file H X) acc file_paths).1.
Proof.
  induction file_paths as [|f fs IH]; intros acc Hwf; [done|].
  simpl. apply IH. rewrite process_file_processor.
  destruct (_extract_text X f); [|done].
  by apply well_formed_with_document.
Qed.

Lemma process_documents_processor self file_paths :
  (process_documents H X self file_paths).1 =
  (foldl (process_file H X) (self, empty_report) file_paths).1.
Proof. by rewrite process_documents_unfold. Qed.

Lemma well_formed_process_documents self file_paths :
  well_formed self → well_formed (process_documents H X self file_paths).1.
Proof.
  intros Hwf. rewrite process_documents_processor.
  by apply well_formed_process_files.
Qed.

Lemma postings_in_range_lookup self k i :
  postings_in_range self → i ∈ posting self k →
  is_Some (documents self !! i).
Proof. intros Hr Hin. apply lookup_lt_is_Some. by eapply Hr. Qed.

(** ingesting the same file twice *)
Lemma process_documents_twice self file_path text :
  _extract_text X file_path = Ret text →
  (process_documents H X self [file_path; file_path]).1 =
  with_document H (with_document H self file_path text) file_path text.
Proof.
  intros Ht. rewrite process_documents_processor. simpl.
  by rewrite !process_file_processor, Ht.
Qed.

(** C9: ingestion gives every new document the number of documents stored
    before it as id, only appends to the document list and to the posting
    lists (the old lists are prefixes of the new ones), and lists the new
    id under each keyword of the document; so in an index built by
    ingestion every id in a posting list is an index into the document
    list. Ingesting a file twice stores two documents with consecutive
    ids and appends both ids to the posting list of each keyword. *)
Theorem C9_dense_ids :
  (∀ self file_paths,
     grows_from self (process_documents H X self file_paths).1)
  ∧ (∀ self file_path text,
       (with_document H self file_path text).(documents) !! length (documents self)
       = Some {| doc_id := length (documents self);
                 doc_file := basename file_path;
                 doc_text := text;
                 doc_keywords := _extract_keywords H text;
                 doc_preview := make_preview text |})
  ∧ well_formed empty_processor
  ∧ (∀ self file_paths,
       well_formed self →
       let self' := (process_documents H X self file_paths).1 in
       well_formed self'
       ∧ ∀ k i, i ∈ posting self' k → is_Some (documents self' !! i))
  ∧ (∀ self file_path text,
       _extract_text X file_path = Ret text →
       let n := length (documents self) in
       let self' := (process_documents H X self [file_path; file_path]).1 in
       length (documents self') = n + 2
       ∧ doc_id <$> drop n (documents self') = [n; n + 1]
       ∧ doc_text <$> drop n (documents self') = [text; text]
       ∧ ∀ kw, kw ∈ _extract_keywords H text →
               posting self' kw = posting self kw ++ [n; n + 1]).
Proof.
  split; [|split; [|split; [exact well_formed_empty|split]]].
  - intros self fs. rewrite process_documents_processor.
    apply grows_from_process_files, grows_from_refl.
  - intros self f text. simpl. by rewrite lookup_app_r, Nat.sub_diag.
  - intros self fs Hwf. simpl.
    pose proof (well_formed_process_documents self fs Hwf) as Hwf'.
    split; [done|]. intros k i. apply postings_in_range_lookup, Hwf'.
  - intros self f text Ht. simpl.
    rewrite (process_documents_twice self f text Ht).
    split; [|split; [|split]].
    + simpl. rewrite !length_app. simpl. lia.
    + simpl. rewrite <- app_assoc, drop_app_length. simpl.
      rewrite length_app. simpl. by rewrite Nat.add_1_r.
    + simpl. by rewrite <- app_assoc, drop_app_length.
    + intros kw Hkw. rewrite !posting_with_document, !decide_True by done.
      simpl. rewrite length_app, <- app_assoc. simpl. by rewrite Nat.add_1_r.
Qed.

End index_invariants.

(** ** Search *)

Section search.
Import document_processor.

(** *** Insertion-ordered dictionaries *)

Lemma dict_get_set {K V} `{EqDecision K} (d : list (K * V)) k v k' :
  dict_get (dict_set d k v) k' =
  if decide (k = k') then Some v else dict_get d k'.
Proof.
  induction d as [|[k0 v0] d IH]; simpl; [done|].
  destruct (decide (k0 = k)) as [->|Hne]; simpl.
  - by case_decide.
  - rewrite IH. repeat case_decide; congruence.
Qed.

Lemma dict_set_keys {V} (d : list (nat * V)) k v :
  (dict_set d k v).*1 = add_new d.*1 k.
Proof.
  unfold add_new. induction d as [|[k0 v0] d IH]; [done|].
  cbn [dict_set fmap list_fmap fst].
  destruct (decide (k0 = k)) as [->|Hne]; cbn [fmap list_fmap fst].
  - by rewrite decide_True by left.
  - rewrite IH. destruct (decide (k ∈ d.*1)).
    + by rewrite decide_True by by right.
    + rewrite decide_False; [done|]. intros [?|?]%elem_of_cons; congruence.
Qed.

Lemma dict_set_Forall {V} (P : nat * V → Prop) d k v :
  Forall P d → P (k, v) → Forall P (dict_set d k v).
Proof.
  intros Hd Hkv. induction Hd as [|[k0 v0] d H0 Hd IH]; simpl.
  - by repeat constructor.
  - case_decide; constructor; auto.
Qed.

Lemma dict_get_elem {V} (d : list (nat * V)) k v :
  NoDup d.*1 → (k, v) ∈ d → dict_get d k = Some v.
Proof.
  induction d as [|[k0 v0] d IH]; simpl.
  - by intros _ ?%elem_of_nil.
  - intros [Hnin Hnd]%NoDup_cons [Heq | Hin]%elem_of_cons.
    + injection Heq as -> ->. by rewrite decide_True.
    + rewrite decide_False; [by apply IH|]. intros ->.
      apply Hnin. apply list_elem_of_fmap. by exists (k, v).
Qed.

Lemma add_new_NoDup seen i : NoDup seen → NoDup (add_new seen i).
Proof.
  unfold add_new. intros Hnd. case_decide; [done|].
  apply NoDup_app. split; [done|]. split; [|apply NoDup_singleton].
  by intros j Hj ->%list_elem_of_singleton.
Qed.

Lemma foldl_add_new_NoDup ids : ∀ seen,
  NoDup seen → NoDup (foldl add_new seen ids).
Proof.
  induction ids as [|i ids IH]; intros seen Hnd; [done|].
  simpl. by apply IH, add_new_NoDup.
Qed.

Lemma foldl_add_new_elem ids : ∀ seen i,
  i ∈ foldl add_new seen ids ↔ i ∈ seen ∨ i ∈ ids.
Proof.
  induction ids as [|j ids IH]; intros seen i; simpl.
  - rewrite elem_of_nil. tauto.
  - rewrite IH, elem_of_cons. unfold add_new. case_decide.
    + split; [tauto|]. intros [?|[->|?]]; tauto.
    + rewrite elem_of_app, list_elem_of_singleton. tauto.
Qed.

(** *** Scoring *)

Lemma score_of_bump d j i :
  score_of (bump d j) i = score_of d i + (if decide (j = i) then 1 else 0).
Proof.
  unfold score_of, bump. rewrite dict_get_set.
  case_decide; [by subst|]. simpl. lia.
Qed.

Lemma score_of_bumps ids : ∀ d i,
  score_of (foldl bump d ids) i = score_of d i + occurrences i ids.
Proof.
  unfold occurrences.
  induction ids as [|j ids IH]; intros d i; simpl; [lia|].
  rewrite IH, score_of_bump, filter_cons.
  case_decide; simpl; lia.
Qed.

Lemma keys_bumps ids : ∀ d, (foldl bump d ids).*1 = foldl add_new d.*1 ids.
Proof.
  induction ids as [|j ids IH]; intros d; [done|].
  simpl. rewrite IH. unfold bump. by rewrite dict_set_keys.
Qed.

Lemma positive_bumps ids : ∀ d,
  Forall (λ e, 0 < e.2) d → Forall (λ e, 0 < e.2) (foldl bump d ids).
Proof.
  induction ids as [|j ids IH]; intros d Hd; [done|].
  simpl. apply IH. unfold bump. apply dict_set_Forall; [done|]. simpl. lia.
Qed.

(** the loop body reads the posting list of the lower-cased keyword *)
Lemma score_keyword_posting self d kw :
  score_keyword self d kw = foldl bump d (posting self (lower kw)).
Proof.
  unfold score_keyword, posting. rewrite lookup_total_alt.
  by destruct (keyword_index self !! lower kw).
Qed.

Lemma score_keywords_scanned self qk : ∀ d,
  foldl (score_keyword self) d qk = foldl bump d (scanned self qk).
Proof.
  unfold scanned. induction qk as [|kw qk IH]; intros d; [done|].
  simpl. by rewrite foldl_app, IH, score_keyword_posting.
Qed.

Lemma scores_scanned self qk : scores self qk = foldl bump [] (scanned self qk).
Proof. apply score_keywords_scanned. Qed.

Lemma scores_keys self qk : (scores self qk).*1 = encounter_order self qk.
Proof. by rewrite scores_scanned, keys_bumps. Qed.

Lemma scores_NoDup self qk : NoDup (scores self qk).*1.
Proof. rewrite scores_keys. apply foldl_add_new_NoDup, NoDup_nil_2. Qed.

Lemma scores_positive self qk : Forall (λ e, 0 < e.2) (scores self qk).
Proof. rewrite scores_scanned. by apply positive_bumps. Qed.

Lemma occurrences_scanned self qk i :
  occurrences i (scanned self qk) =
  sum_list ((λ kw, occurrences i (posting self (lower kw))) <$> qk).
Proof.
  unfold scanned. induction qk as [|kw qk IH]; [done|].
  simpl. by rewrite occurrences_app, IH.
Qed.

(** the score of an entry is the number of times its id was scanned *)
Lemma scores_entry self qk e :
  e ∈ scores self qk →
  e.2 = occurrences e.1 (scanned self qk) ∧ 0 < e.2
  ∧ e.1 ∈ scanned self qk.
Proof.
  intros He. destruct e as [i n]. simpl.
  assert (0 < n) as Hpos.
  { by apply (proj1 (Forall_forall _ _) (scores_positive self qk) (i, n)). }
  pose proof (dict_get_elem _ _ _ (scores_NoDup self qk) He) as Hget.
  assert (score_of (scores self qk) i = n) as Hs.
  { unfold score_of. by rewrite Hget. }
  rewrite scores_scanned, score_of_bumps in Hs. unfold score_of in Hs.
  simpl in Hs. split; [lia|]. split; [done|].
  apply occurrences_present. lia.
Qed.

(** *** Sorting *)

Lemma insert_desc_Permutation x l : insert_desc x l ≡ₚ x :: l.
Proof.
  induction l as [|y l IH]; simpl; [done|].
  case_match; [|done]. rewrite IH. apply Permutation_swap.
Qed.

Lemma sorted_desc_Permutation d : sorted_desc d ≡ₚ d.
Proof.
  induction d as [|x d IH]; simpl; [done|].
  by rewrite insert_desc_Permutation, IH.
Qed.

Lemma insert_desc_sorted x l :
  StronglySorted (λ a b, b.2 ≤ a.2) l →
  StronglySorted (λ a b, b.2 ≤ a.2) (insert_desc x l).
Proof.
  induction 1 as [|y l Hl IH Hy]; simpl.
  - repeat constructor.
  - destruct (Nat.ltb_spec x.2 y.2).
    + constructor; [done|]. rewrite insert_desc_Permutation.
      constructor; [lia|done].
    + constructor; [by constructor|]. constructor; [done|].
      eapply Forall_impl; [exact Hy|]. simpl. intros; lia.
Qed.

Lemma sorted_desc_sorted d :
  StronglySorted (λ a b, b.2 ≤ a.2) (sorted_desc d).
Proof.
  induction d as [|x d IH]; simpl; [constructor|].
  by apply insert_desc_sorted.
Qed.

(** the sort is stable: entries with the same score keep their order *)
Lemma insert_desc_stable s x l :
  filter (λ e, e.2 = s) (insert_desc x l) = filter (λ e, e.2 = s) (x :: l).
Proof.
  induction l as [|y l IH]; simpl; [done|].
  destruct (Nat.ltb_spec x.2 y.2); [|done].
  rewrite (filter_cons _ y), IH, !(filter_cons _ x), (filter_cons _ y).
  repeat case_decide; try done; lia.
Qed.

Lemma sorted_desc_stable s d :
  filter (λ e, e.2 = s) (sorted_desc d) = filter (λ e, e.2 = s) d.
Proof.
  induction d as [|x d IH]; simpl; [done|].
  by rewrite insert_desc_stable, !filter_cons, IH.
Qed.

Lemma StronglySorted_sublist {A} (R : relation A) l1 l2 :
  l1 `sublist_of` l2 → StronglySorted R l2 → StronglySorted R l1.
Proof.
  induction 1 as [|x l1 l2 Hs IH|x l1 l2 Hs IH]; intros Hl2; [done|..].
  - apply StronglySorted_inv in Hl2 as [Hl2 Hx]. constructor; [by apply IH|].
    eapply Forall_forall. intros y Hy.
    eapply (proj1 (Forall_forall _ _) Hx), elem_of_sublist; eauto.
  - apply StronglySorted_inv in Hl2 as [Hl2 _]. by apply IH.
Qed.

(** *** Slicing *)

Lemma slice_to_take {A} k (l : list A) : ∃ n, slice_to k l = take n l.
Proof. unfold slice_to. case_match; eauto. Qed.

Lemma slice_to_length {A} k (l : list A) :
  (0 ≤ k)%Z → length (slice_to k l) ≤ Z.to_nat k.
Proof.
  intros Hk. unfold slice_to.
  rewrite (proj2 (Z.leb_le 0 k) Hk), length_take. lia.
Qed.

Lemma filter_take_prefix {A} (P : A → Prop) `{∀ x, Decision (P x)} n (l : list A) :
  filter P (take n l) `prefix_of` filter P l.
Proof.
  rewrite <- (take_drop n l) at 2. rewrite filter_app. by apply prefix_app_r.
Qed.

(** *** Hits *)

Lemma hit_for_elem self qk e h :
  h ∈ hit_for self qk e →
  documents self !! e.1 = Some (hit_doc h)
  ∧ match_score h = e.2
  ∧ matched_keywords h = filter (λ kw, lower kw ∈ doc_keywords (hit_doc h)) qk.
Proof.
  unfold hit_for. destruct (documents self !! e.1) as [doc|]; [|by intros ?%elem_of_nil].
  by intros ->%list_elem_of_singleton.
Qed.

Lemma hits_elem self qk es h :
  h ∈ flat_map (hit_for self qk) es →
  ∃ e, e ∈ es ∧ h ∈ hit_for self qk e.
Proof.
  rewrite list_elem_of_In, in_flat_map. intros (e & He & Hh).
  exists e. by rewrite !list_elem_of_In.
Qed.

Lemma hits_length self qk es :
  length (flat_map (hit_for self qk) es) ≤ length es.
Proof.
  induction es as [|e es IH]; [done|]. simpl. rewrite length_app.
  unfold hit_for at 1. destruct (documents self !! e.1); simpl; lia.
Qed.

Lemma hits_scores_sublist self qk es :
  match_score <$> flat_map (hit_for self qk) es `sublist_of` es.*2.
Proof.
  induction es as [|e es IH]; [done|]. simpl. rewrite fmap_app.
  unfold hit_for at 1. destruct (documents self !! e.1); simpl.
  - by apply sublist_skip.
  - by apply sublist_cons.
Qed.

(** in a well-formed index every entry yields a hit, which shows the
    entry's id and score *)
Lemma hits_entries self qk es :
  ids_dense self →
  (∀ e, e ∈ es → e.1 < length (documents self)) →
  hit_entry <$> flat_map (hit_for self qk) es = es.
Proof.
  intros Hids. induction es as [|[i n] es IH]; intros Hrange; [done|].
  simpl. rewrite fmap_app, IH by (intros; apply Hrange; by right).
  unfold hit_for. simpl.
  destruct (lookup_lt_is_Some_2 (documents self) i) as [doc Hdoc].
  { apply (Hrange (i, n)). by left. }
  rewrite Hdoc. simpl. unfold hit_entry. simpl. by rewrite (Hids i doc Hdoc).
Qed.

End search.

Section search_results.
Import document_processor.

Lemma sum_indicator {A} (P : A → Prop) `{∀ x, Decision (P x)} (l : list A) :
  sum_list ((λ x, if decide (P x) then 1 else 0) <$> l) = length (filter P l).
Proof.
  induction l as [|x l IH]; [done|]. csimpl. rewrite filter_cons, IH.
  by case_decide.
Qed.

(** the entries the hits are made from *)
Lemma search_hits H self query top_k :
  ∃ n,
    search H self query top_k =
    flat_map (hit_for self (_extract_keywords H query))
      (take n (sorted_desc (scores self (_extract_keywords H query))))
    ∧ ((0 ≤ top_k)%Z → n ≤ Z.to_nat top_k).
Proof.
  unfold search. destruct (_extract_keywords H query) as [|kw qk] eqn:Hqk.
  - exists 0. rewrite take_0. split; [done|lia].
  - unfold slice_to. destruct (Z.leb_spec 0 top_k); eexists; split; try done; lia.
Qed.

Lemma taken_entry self qk n e :
  e ∈ take n (sorted_desc (scores self qk)) → e ∈ scores self qk.
Proof.
  intros He. rewrite <- (sorted_desc_Permutation (scores self qk)).
  eapply elem_of_sublist; [exact He|apply sublist_take].
Qed.

(** a hit, the entry it was made from, and what the entry counts *)
Lemma search_hit H self query top_k h :
  h ∈ search H self query top_k →
  let qk := _extract_keywords H query in
  ∃ i,
    documents self !! i = Some (hit_doc h)
    ∧ i ∈ scanned self qk
    ∧ match_score h = occurrences i (scanned self qk)
    ∧ 0 < match_score h
    ∧ matched_keywords h = filter (λ kw, lower kw ∈ doc_keywords (hit_doc h)) qk.
Proof.
  intros Hh qk. destruct (search_hits H self query top_k) as (n & Hs & _).
  rewrite Hs in Hh. apply hits_elem in Hh as (e & He & Hh).
  apply hit_for_elem in Hh as (Hdoc & Hscore & Hmk).
  apply taken_entry, scores_entry in He as (Hocc & Hpos & Hin).
  exists e.1. rewrite Hscore. eauto.
Qed.

(** the score of a consistent document counts its matched keywords *)
Lemma consistent_score self qk i d :
  doc_consistent self i d →
  occurrences i (scanned self qk) =
  length (filter (λ kw, lower kw ∈ doc_keywords d) qk).
Proof.
  intros Hc. rewrite occurrences_scanned, <- sum_indicator.
  f_equal. apply list_fmap_ext. intros _ kw _. apply Hc.
Qed.

Lemma consistent_posting self i d k :
  doc_consistent self i d → i ∈ posting self k ↔ k ∈ doc_keywords d.
Proof.
  intros Hc. specialize (Hc k). split.
  - intros Hin. destruct (decide (k ∈ doc_keywords d)); [done|].
    apply occurrences_absent_inv in Hc. done.
  - intros Hin. rewrite decide_True in Hc by done.
    apply occurrences_present. lia.
Qed.

Lemma StronglySorted_lookup {A} (R : relation A) l : ∀ i j x y,
  StronglySorted R l → l !! i = Some x → l !! j = Some y → i < j → R x y.
Proof.
  induction l as [|z l IH]; intros i j x y Hl Hi Hj Hij; [done|].
  apply StronglySorted_inv in Hl as [Hl Hz].
  destruct j as [|j]; [lia|]. destruct i as [|i]; simpl in *.
  - injection Hi as ->.
    apply (proj1 (Forall_forall _ _) Hz), list_elem_of_lookup. eauto.
  - apply (IH i j); auto with lia.
Qed.

Lemma filter_keys {V} (f : nat → V) `{EqDecision V} (s : V) (l : list (nat * V)) :
  (∀ e, e ∈ l → e.2 = f e.1) →
  (filter (λ e, e.2 = s) l).*1 = filter (λ i, f i = s) l.*1.
Proof.
  induction l as [|e l IH]; intros Hf; [done|].
  rewrite fmap_cons, !filter_cons, <- IH by (intros; apply Hf; by right).
  rewrite <- (Hf e) by left. by case_decide.
Qed.

Lemma filter_hit_entries s (hits : list hit) :
  (doc_id ∘ hit_doc) <$> filter (λ h, match_score h = s) hits =
  (filter (λ e, e.2 = s) (hit_entry <$> hits)).*1.
Proof.
  induction hits as [|h hits IH]; [done|].
  rewrite fmap_cons, !filter_cons. simpl.
  case_decide; csimpl; by rewrite IH.
Qed.

(** the entries of a well-formed index are in range *)
Lemma taken_in_range self qk n e :
  postings_in_range self →
  e ∈ take n (sorted_desc (scores self qk)) →
  e.1 < length (documents self).
Proof.
  intros Hrange (_ & _ & Hin)%taken_entry%scores_entry.
  unfold scanned in Hin. apply list_elem_of_In, in_flat_map in Hin as (kw & _ & Hin).
  apply list_elem_of_In in Hin. by eapply Hrange.
Qed.

(** in a well-formed index the hits show the entries taken *)
Lemma search_entries H self query top_k :
  well_formed self →
  ∃ n,
    hit_entry <$> search H self query top_k =
    take n (sorted_desc (scores self (_extract_keywords H query))).
Proof.
  intros (Hids & Hrange & _).
  destruct (search_hits H self query top_k) as (n & -> & _).
  exists n. apply hits_entries; [done|].
  intros e He. by eapply taken_in_range.
Qed.

(** C10: the matched keywords of a hit are the query keywords whose
    lower-cased form is among the stored keywords of its document; and
    when those stored keywords agree with the posting lists, they are a
    non-empty duplicate-free part of the query keywords, as many as the
    match score. *)
Theorem C10_matched_keywords H self query top_k h :
  h ∈ search H self query top_k →
  (∀ i, documents self !! i = Some (hit_doc h) →
        doc_consistent self i (hit_doc h)) →
  let qk := _extract_keywords H query in
  matched_keywords h = filter (λ kw, lower kw ∈ doc_keywords (hit_doc h)) qk
  ∧ matched_keywords h ≠ []
  ∧ matched_keywords h ⊆ qk
  ∧ NoDup (matched_keywords h)
  ∧ length (matched_keywords h) = match_score h.
Proof.
  intros Hh Hcons qk.
  destruct (search_hit H self query top_k h Hh)
    as (i & Hdoc & Hin & Hscore & Hpos & Hmk). fold qk in Hin, Hscore, Hmk.
  rewrite (consistent_score self qk i _ (Hcons i Hdoc)), <- Hmk in Hscore.
  split; [done|]. split; [|split; [|split]].
  - intros Hnil. rewrite Hnil in Hscore. simpl in Hscore. lia.
  - rewrite Hmk. intros kw [_ ?]%list_elem_of_filter. done.
  - rewrite Hmk. apply NoDup_filter, extract_keywords_NoDup.
  - done.
Qed.

(** C4, as the specification states it, fails twice. Ties are not listed
    by ascending document id: for the query "python java" on the sample
    index, documents 0 and 3 hold python, 1 and 2 hold java, and in
    whichever order the two keywords are iterated a larger id comes
    before a smaller one with the same score. And a negative [top_k] is
    no upper bound: [top_k = -1] drops the last candidate and returns the
    two others. *)
Lemma C4_ties_not_by_id :
  (∀ H, ¬ ties_by_ascending_id (search H samples.index "python java" 5))
  ∧ hit_entry <$> search order_of_last_occurrence samples.index "python java" 5
    = [(4, 2); (0, 1); (3, 1); (1, 1); (2, 1)]
  ∧ hit_entry <$> search reverse_order samples.index "python java" 5
    = [(4, 2); (1, 1); (2, 1); (0, 1); (3, 1)]
  ∧ length (search order_of_last_occurrence samples.index "java" (-1)) = 2
  ∧ ¬ (Z.of_nat (length (search order_of_last_occurrence samples.index "java" (-1)))
       ≤ -1)%Z.
Proof.
  split; [|by vm_compute].
  intros H Hties.
  assert (_extract_keywords H "python java" ≡ₚ ["python"; "java"]) as Hp.
  { rewrite (extract_keywords_order H order_of_last_occurrence). by vm_compute. }
  assert (_extract_keywords H "python java" = ["python"; "java"]
          ∨ _extract_keywords H "python java" = ["java"; "python"]) as Hqk.
  { pose proof (Permutation_length Hp) as Hlen.
    destruct (_extract_keywords H "python java") as [|a [|b [|c l]]];
      try discriminate Hlen.
    assert (a ∈ ["python"; "java"]) as Ha by (rewrite <- Hp; left).
    assert (b ∈ ["python"; "java"]) as Hb by (rewrite <- Hp; right; left).
    assert (NoDup [a; b]) as Hnd.
    { rewrite Hp. apply NoDup_cons. split; [|apply NoDup_singleton].
      by intros ?%list_elem_of_singleton. }
    apply NoDup_cons in Hnd as [Hab _]. rewrite list_elem_of_singleton in Hab.
    apply elem_of_cons in Ha as [Ha|Ha%list_elem_of_singleton];
      apply elem_of_cons in Hb as [Hb|Hb%list_elem_of_singleton];
      subst; auto; by destruct Hab. }
  unfold ties_by_ascending_id, search in Hties.
  destruct Hqk as [Hqk | Hqk]; rewrite Hqk in Hties.
  - specialize (Hties 2 3 _ _ eq_refl eq_refl). vm_compute in Hties.
    specialize (Hties (le_n 3) eq_refl). lia.
  - specialize (Hties 2 3 _ _ eq_refl eq_refl). vm_compute in Hties.
    specialize (Hties (le_n 3) eq_refl). lia.
Qed.

(** C4 (amended): on an index built by ingestion, [search] returns at
    most [top_k] hits when [top_k] is not negative; the hits are listed by
    descending score, the score of a document being the number of query
    keywords whose posting lists contain it, so that a document with a
    higher score than a listed one is listed before it; hits with equal
    scores are listed in the order in which their documents are first met
    when the posting lists of the query keywords are read one after the
    other; and each hit reports the query keywords that matched it. *)
Theorem C4_search_ranking H self query top_k :
  well_formed self →
  let qk := _extract_keywords H query in
  let hits := search H self query top_k in
  ((0 ≤ top_k)%Z → length hits ≤ Z.to_nat top_k)
  ∧ StronglySorted (λ a b, b ≤ a) (match_score <$> hits)
  ∧ (∀ h, h ∈ hits →
       documents self !! doc_id (hit_doc h) = Some (hit_doc h)
       ∧ match_score h =
         length (filter (λ kw, doc_id (hit_doc h) ∈ posting self (lower kw)) qk)
       ∧ ∀ kw, kw ∈ matched_keywords h ↔
               kw ∈ qk ∧ doc_id (hit_doc h) ∈ posting self (lower kw))
  ∧ (∀ p hA iB,
       hits !! p = Some hA →
       match_score hA
       < length (filter (λ kw, iB ∈ posting self (lower kw)) qk) →
       ∃ q hB, q < p ∧ hits !! q = Some hB ∧ doc_id (hit_doc hB) = iB)
  ∧ (∀ s,
       (doc_id ∘ hit_doc) <$> filter (λ h, match_score h = s) hits
       `prefix_of`
       filter (λ i, occurrences i (scanned self qk) = s) (encounter_order self qk)).
Proof.
  intros Hwf qk hits. pose proof Hwf as (Hids & Hrange & Hcons).
  destruct (search_hits H self query top_k) as (n & Hs & Hn). fold qk hits in Hs.
  destruct (search_entries H self query top_k Hwf) as (n' & He). fold qk hits in He.
  set (sorted := sorted_desc (scores self qk)) in *.
  assert (StronglySorted (λ a b : nat * nat, b.2 ≤ a.2) sorted) as Hsorted
    by apply sorted_desc_sorted.
  assert (∀ i d, documents self !! i = Some d →
            occurrences i (scanned self qk) =
            length (filter (λ kw, i ∈ posting self (lower kw)) qk)) as Hcount.
  { intros i d Hd. rewrite (consistent_score self qk i d (Hcons i d Hd)).
    f_equal. apply list_filter_iff. intros kw.
    symmetry. apply consistent_posting, Hcons, Hd. }
  split; [|split; [|split; [|split]]].
  - intros Hk. rewrite Hs. etrans; [apply hits_length|].
    rewrite length_take. specialize (Hn Hk). lia.
  - rewrite Hs. eapply StronglySorted_sublist; [apply hits_scores_sublist|].
    apply (StronglySorted_fmap snd (λ a b : nat * nat, b.2 ≤ a.2)); [done|].
    eapply StronglySorted_sublist; [apply sublist_take|done].
  - intros h Hh.
    destruct (search_hit H self query top_k h Hh)
      as (i & Hdoc & Hin & Hscore & Hpos & Hmk). fold qk in Hin, Hscore, Hmk.
    rewrite (Hids i _ Hdoc). split; [done|]. split.
    + rewrite Hscore. by eapply Hcount.
    + intros kw. rewrite Hmk, list_elem_of_filter.
      rewrite (consistent_posting self i _ _ (Hcons i _ Hdoc)). tauto.
  - intros p hA iB HA Hlt.
    assert (take n' sorted !! p = Some (hit_entry hA)) as HeA.
    { rewrite <- He, list_lookup_fmap, HA. done. }
    apply lookup_take_Some in HeA as [HeA Hp].
    assert (iB ∈ scanned self qk) as HiB.
    { destruct (filter (λ kw, iB ∈ posting self (lower kw)) qk) as [|kw l] eqn:Hf;
        [simpl in Hlt; lia|].
      assert (kw ∈ filter (λ kw, iB ∈ posting self (lower kw)) qk) as Hkw
        by (rewrite Hf; left).
      apply list_elem_of_filter in Hkw as [Hkw1 Hkw2].
      unfold scanned. apply list_elem_of_In, in_flat_map.
      exists kw. by rewrite <- !list_elem_of_In. }
    assert (iB ∈ (scores self qk).*1) as Hkey.
    { rewrite scores_keys. apply foldl_add_new_elem. by right. }
    apply list_elem_of_fmap in Hkey as ([iB' nB] & -> & HeB). simpl in *.
    pose proof (scores_entry self qk _ HeB) as (HnB & _ & _). simpl in HnB.
    assert (is_Some (documents self !! iB')) as [dB HdB].
    { apply lookup_lt_is_Some. unfold scanned in HiB.
      apply list_elem_of_In, in_flat_map in HiB as (kw & _ & Hin).
      apply list_elem_of_In in Hin. by eapply Hrange. }
    rewrite <- (Hcount iB' dB HdB), <- HnB in Hlt.
    assert ((iB', nB) ∈ sorted) as HsB.
    { unfold sorted. by rewrite sorted_desc_Permutation. }
    apply list_elem_of_lookup in HsB as [q Hq].
    assert (q < p) as Hqp.
    { destruct (decide (q < p)); [done|]. exfalso.
      destruct (decide (q = p)) as [->|].
      - rewrite HeA in Hq. injection Hq as _ Hq. lia.
      - assert (p < q) as Hpq by lia.
        pose proof (StronglySorted_lookup _ _ _ _ _ _ Hsorted HeA Hq Hpq) as Hle.
        simpl in Hle. lia. }
    assert (take n' sorted !! q = Some (iB', nB)) as HqB.
    { apply lookup_take_Some. split; [done|lia]. }
    rewrite <- He in HqB.
    apply list_lookup_fmap_Some in HqB as (hB & HhB & HB).
    exists q, hB. split; [done|]. split; [done|].
    unfold hit_entry in HhB. by injection HhB as -> _.
  - intros s. rewrite filter_hit_entries, He.
    assert ((filter (λ e, e.2 = s) (scores self qk)).*1
            = filter (λ i, occurrences i (scanned self qk) = s)
                (encounter_order self qk)) as <-.
    { rewrite <- scores_keys. apply filter_keys.
      intros e Hin. by apply scores_entry. }
    rewrite <- (sorted_desc_stable s (scores self qk)). fold sorted.
    destruct (filter_take_prefix (λ e : nat * nat, e.2 = s) n' sorted) as [k ->].
    rewrite fmap_app. by apply prefix_app_r.
Qed.

End search_results.

(** ** The cache and the top-level entry point *)

Section entry_point.
Import cache query_engine.

Lemma no_such_method ping c name args :
  class_method name = None →
  call_method ping c name args =
    (Raise (Exn "AttributeError"
              ("'SmartCache' object has no attribute '" +:+ name +:+ "'")), c).
Proof. unfold call_method. by intros ->. Qed.

(** C1 fails on the code: the class [SmartCache] defines [connect] and
    [close] only. A call of [set], [get] or [cache_key] on the cache, with
    or without Redis, raises AttributeError and stores or returns
    nothing; so does every call of a function wrapped by [cached], before
    the function itself is run. *)
Theorem C1_cache_has_no_get_set :
  (∀ ping c k v ttl,
     call_method ping c "set" [k; v; ttl] =
       (Raise (Exn "AttributeError" "'SmartCache' object has no attribute 'set'"), c))
  ∧ (∀ ping c k,
       call_method ping c "get" [k] =
         (Raise (Exn "AttributeError" "'SmartCache' object has no attribute 'get'"), c))
  ∧ (∀ E prefix ttl (func : list value → res value * list E) ping c args,
       cached prefix ttl func ping c args =
         (Raise (Exn "AttributeError"
                   "'SmartCache' object has no attribute 'cache_key'"), [], c))
  ∧ (call_method false cache.cache "connect" [] = (Ret VNone, cache.cache)).
Proof. repeat split. Qed.

(** the degraded result of [process_query] *)
Lemma process_query_with_outcome handle_sql handle_document
    start_time end_time user_query :
  process_query_with handle_sql handle_document start_time end_time user_query
  = match route handle_sql handle_document (_classify_query user_query)
            [("query", VStr user_query);
             ("query_type", VStr (query_type_str (_classify_query user_query)));
             ("results", VList []);
             ("sources", VList []);
             ("performance", VDict []);
             ("cached", VBool false)] user_query with
    | Ret result =>
        Ret (dict_set result "performance"
               (VDict [("response_time", VFloat (round3 (end_time - start_time)))]))
    | Raise e =>
        Ret [("query", VStr user_query);
             ("error", VStr (exn_str e));
             ("query_type", VStr "unknown")]
    end.
Proof.
  unfold process_query_with.
  by destruct (route _ _ _ _ _).
Qed.

(** [round3] gives a multiple of 1/1000 *)
Lemma round3_thousandth x : ∃ n : Z, round3 x = Qmake n 1000.
Proof. by eexists. Qed.

Lemma round_half_even_near (x : Q) :
  (2 * Z.abs (round_half_even x * Zpos (Qden x) - Qnum x) ≤ Zpos (Qden x))%Z.
Proof.
  unfold round_half_even.
  assert (Zpos (Qden x) ≠ 0%Z) as Hd by lia.
  pose proof (Z.div_mod (Qnum x) (Zpos (Qden x)) Hd) as Hdm.
  assert (0 < Zpos (Qden x))%Z as Hpos by lia.
  pose proof (Z.mod_pos_bound (Qnum x) (Zpos (Qden x)) Hpos) as Hb.
  set (q := (Qnum x / Zpos (Qden x))%Z) in *.
  set (r := (Qnum x mod Zpos (Qden x))%Z) in *.
  destruct (Z.ltb_spec (2 * r) (Zpos (Qden x))); [nia|].
  destruct (Z.ltb_spec (Zpos (Qden x)) (2 * r)); [nia|].
  destruct (Z.even q); nia.
Qed.

(** and is within half a thousandth of its argument *)
Lemma round3_near (x : Q) : (Qabs (round3 x - x) <= 1 # 2000)%Q.
Proof.
  pose proof (round_half_even_near (x * 1000)) as Hn.
  unfold round3. set (z := round_half_even (x * 1000)) in *. clearbody z.
  destruct x as [n d].
  change (Qnum ((n # d) * 1000)) with (n * 1000)%Z in Hn.
  change (Qden ((n # d) * 1000)) with (d * 1)%positive in Hn.
  rewrite Pos.mul_1_r in Hn.
  apply Qabs_Qle_condition. unfold Qle, Qminus, Qplus, Qopp.
  cbn [Qnum Qden]. rewrite !Pos2Z.inj_mul.
  change (Z.pos 2000) with 2000%Z. change (Z.pos 1000) with 1000%Z.
  change (Z.neg 1) with (-1)%Z. change (Z.pos 1) with 1%Z.
  split; nia.
Qed.

(** C8: [process_query] never raises, whatever its handlers do. When the
    dispatch completes, the result carries [performance.response_time],
    the elapsed time rounded to three decimals; when anything in it
    raises, the result is the degraded one, with the query, the message of
    the exception as [error], and the query type "unknown". *)
Theorem C8_always_responds handle_sql handle_document
    start_time end_time user_query :
  ∃ result,
    process_query_with handle_sql handle_document start_time end_time user_query
    = Ret result
    ∧ ((dict_get result "performance" =
          Some (VDict [("response_time", VFloat (round3 (end_time - start_time)))])
        ∧ (∃ n : Z, round3 (end_time - start_time) = Qmake n 1000)
        ∧ (Qabs (round3 (end_time - start_time) - (end_time - start_time))
           <= 1 # 2000)%Q
        ∧ ∃ routed,
            route handle_sql handle_document (_classify_query user_query)
              [("query", VStr user_query);
               ("query_type", VStr (query_type_str (_classify_query user_query)));
               ("results", VList []);
               ("sources", VList []);
               ("performance", VDict []);
               ("cached", VBool false)] user_query = Ret routed)
       ∨ (∃ e,
            route handle_sql handle_document (_classify_query user_query)
              [("query", VStr user_query);
               ("query_type", VStr (query_type_str (_classify_query user_query)));
               ("results", VList []);
               ("sources", VList []);
               ("performance", VDict []);
               ("cached", VBool false)] user_query = Raise e
            ∧ result = [("query", VStr user_query);
                        ("error", VStr (exn_str e));
                        ("query_type", VStr "unknown")]
            ∧ dict_get result "query_type" = Some (VStr "unknown")
            ∧ dict_get result "error" = Some (VStr (exn_str e)))).
Proof.
  rewrite process_query_with_outcome.
  destruct (route _ _ _ _ _) as [routed | e] eqn:Hroute.
  - eexists. split; [done|]. left. split; [|split; [|split]].
    + rewrite dict_get_set. by rewrite decide_True.
    + apply round3_thousandth.
    + apply round3_near.
    + by exists routed.
  - eexists. split; [done|]. right. by exists e.
Qed.

(** On the engine as it is wired, the SQL handler is wrapped by [cached]:
    every query routed to the database, alone or with the documents, gets
    the degraded result. *)
Lemma process_query_sql_degraded H B schema doc_processor ping c
    start_time end_time user_query :
  _classify_query user_query ≠ document →
  process_query H B schema doc_processor ping c start_time end_time user_query
  = Ret [("query", VStr user_query);
         ("error", VStr "'SmartCache' object has no attribute 'cache_key'");
         ("query_type", VStr "unknown")].
Proof.
  intros Hq. unfold process_query. rewrite process_query_with_outcome.
  by destruct (_classify_query user_query).
Qed.

End entry_point.

(** ** The theorems on the sample data *)

Lemma sample_index_well_formed : well_formed samples.index.
Proof. apply well_formed_process_documents, well_formed_empty. Qed.

Lemma C4_search_ranking_witness :
  well_formed samples.index
  ∧ length (document_processor.search document_processor.order_of_last_occurrence
              samples.index "python java" 5) ≤ Z.to_nat 5.
Proof.
  split; [exact sample_index_well_formed|].
  apply (C4_search_ranking document_processor.order_of_last_occurrence
           samples.index "python java" 5 sample_index_well_formed).
  lia.
Defined.

Lemma C10_matched_keywords_witness :
  samples.eve_hit
  ∈ document_processor.search document_processor.order_of_last_occurrence
      samples.index "python java" 5
  ∧ length (document_processor.matched_keywords samples.eve_hit)
    = document_processor.match_score samples.eve_hit.
Proof.
  assert (samples.eve_hit
          ∈ document_processor.search document_processor.order_of_last_occurrence
              samples.index "python java" 5) as Hin.
  { apply list_elem_of_lookup_2 with 0. vm_compute. reflexivity. }
  split; [exact Hin|].
  apply (C10_matched_keywords document_processor.order_of_last_occurrence
           samples.index "python java" 5 samples.eve_hit Hin).
  intros i Hi. by apply sample_index_well_formed.
Defined.

Lemma C3_validation_witness :
  (text_to_sql._validate_sql "DROP TABLE employees;").1 = false
  ∧ query_engine.sql_handler_body samples.hostile ["employees"] "remove everyone"
    = ([("error", VStr "Dangerous operation: DROP")], []).
Proof.
  split; [reflexivity|].
  destruct C3_validation as (_ & _ & _ & _ & _ & Hexec).
  exact (Hexec samples.hostile ["employees"] "remove everyone"
           "DROP TABLE employees;" eq_refl eq_refl).
Defined.

Lemma C5_keyword_extraction_witness :
  document_processor._extract_keywords
    document_processor.order_of_last_occurrence "is this it" = []
  ∧ document_processor.search document_processor.order_of_last_occurrence
      samples.index "is this it" 5 = [].
Proof.
  split; [reflexivity|].
  destruct C5_keyword_extraction as (_ & _ & _ & _ & _ & Hempty).
  exact (Hempty document_processor.order_of_last_occurrence samples.index
           "is this it" 5%Z eq_refl).
Defined.

Lemma C6_partial_failure_witness :
  unsupported "notes.md"
  ∧ extracts samples.disk "notes.md" = false
  ∧ document_processor.failed
      (document_processor.process_documents
         document_processor.order_of_last_occurrence samples.disk
         document_processor.empty_processor samples.batch).2 = 2.
Proof.
  assert (unsupported "notes.md") as Hu.
  { unfold unsupported. vm_compute. intros Hin.
    repeat (apply elem_of_cons in Hin as [Hin|Hin]; [discriminate Hin|]).
    by apply elem_of_nil in Hin. }
  destruct (C6_partial_failure document_processor.order_of_last_occurrence
              samples.disk) as (Hext & _ & _ & Hbatch).
  split; [exact Hu|]. split; [exact (proj1 (Hext "notes.md" Hu))|].
  destruct (Hbatch document_processor.empty_processor samples.batch)
    as (_ & Hfailed & _).
  exact Hfailed.
Defined.

Lemma C9_dense_ids_witness :
  well_formed document_processor.empty_processor
  ∧ ∀ k i, i ∈ document_processor.posting samples.index k →
           is_Some (document_processor.documents samples.index !! i).
Proof.
  destruct (C9_dense_ids document_processor.order_of_last_occurrence samples.disk)
    as (_ & _ & Hempty & Hwf & _).
  split; [exact Hempty|].
  exact (proj2 (Hwf document_processor.empty_processor samples.batch Hempty)).
Defined.

(** the report of the sample batch: five files ingested, two failed *)
Example sample_batch_report :
  (document_processor.process_documents
     document_processor.order_of_last_occurrence samples.disk
     document_processor.empty_processor samples.batch).2
  = {| document_processor.processed := 5;
       document_processor.failed := 2;
       document_processor.total_documents := 5;
       document_processor.report_documents :=
         [("ann.txt", 3); ("bob.txt", 3); ("cid.txt", 3); ("dee.txt", 3);
          ("eve.txt", 4)] |}.
Proof. reflexivity. Qed.

(** a query for the database on the engine as wired *)
Example sample_sql_query :
  query_engine.process_query document_processor.order_of_last_occurrence
    samples.hostile ["employees"] samples.index false cache.cache 10 (21 # 2)
    "how many employees are in engineering"
  = Ret [("query", VStr "how many employees are in engineering");
         ("error", VStr "'SmartCache' object has no attribute 'cache_key'");
         ("query_type", VStr "unknown")].
Proof. reflexivity. Qed.

(** a query for the documents: two hits, timed at half a second *)
Example sample_document_query :
  (result ← query_engine.process_query
              document_processor.order_of_last_occurrence
              samples.hostile ["employees"] samples.index false cache.cache
              10 (21 # 2) "who reviews";
   mret (dict_get result "query_type", dict_get result "performance",
         dict_get result "count", dict_get result "sources"))
  = Ret (Some (VStr "document"),
         Some (VDict [("response_time", VFloat (500 # 1000))]),
         Some (VInt 2),
         Some (VList [VStr "documents"])).
Proof. reflexivity. Qed.

(* ===================================================================== *)
(** * Part 3: further properties                                         *)
(* ===================================================================== *)

(** ** Keywords are whole words *)

Section whole_words.
Import document_processor.

Lemma sforall_snoc P (s : string) c :
  sforall P (s +:+ String c "") = sforall P s && P c.
Proof. rewrite sforall_append. simpl. by rewrite andb_true_r. Qed.

Lemma boundary_before_snoc pre c :
  is_word c = false → boundary_before (pre +:+ String c "").
Proof. intros Hc. right. by exists pre, c. Qed.

(** a reported word stands between two word boundaries *)
Lemma findall_words_go_bounded text : ∀ pre run alpha w,
  boundary_before pre →
  w ∈ findall_words_go run alpha text →
  ∃ pre' post',
    pre +:+ run +:+ text = pre' +:+ w +:+ post'
    ∧ boundary_before pre' ∧ boundary_after post'.
Proof.
  induction text as [|c text IH]; intros pre run alpha w Hpre; simpl.
  - intros (-> & _)%flush_elem. exists pre, "". by repeat split; [|left].
  - destruct (is_word c) eqn:Hc.
    + intros Hw. destruct (IH pre _ _ _ Hpre Hw) as (pre' & post' & E & ? & ?).
      exists pre', post'. by rewrite <- E, append_assoc.
    + intros [(-> & _)%flush_elem | Hw]%elem_of_app.
      * exists pre, (String c text). repeat split; [done|].
        right. by exists c, text.
      * destruct (IH (pre +:+ run +:+ String c "") "" true w) as
          (pre' & post' & E & ? & ?); [|done|].
        { rewrite <- append_assoc. by apply boundary_before_snoc. }
        exists pre', post'. by rewrite <- E, append_nil_l, !append_assoc.
Qed.

(** reading on through word characters *)
Lemma findall_words_go_word u : ∀ run alpha text,
  sforall is_word u = true →
  findall_words_go run alpha (u +:+ text) =
  findall_words_go (run +:+ u) (alpha && sforall is_alpha u) text.
Proof.
  induction u as [|c u IH]; intros run alpha text; simpl.
  - intros _. by rewrite append_nil_l, append_nil_r, andb_true_r.
  - intros [Hc Hu]%andb_true_iff. rewrite Hc, IH by done.
    by rewrite append_assoc, andb_assoc.
Qed.

Lemma cons_snoc_inv c (s p : string) c' :
  String c s = p +:+ String c' "" →
  (p = "" ∧ s = "" ∧ c = c') ∨ ∃ p', p = String c p' ∧ s = p' +:+ String c' "".
Proof.
  destruct p as [|a p].
  - rewrite append_nil_l. intros E. injection E as -> ->. by left.
  - rewrite append_cons. intros E. injection E as -> ->. right. by exists p.
Qed.

Lemma boundary_before_tail c pre :
  pre ≠ "" → boundary_before (String c pre) → boundary_before pre.
Proof.
  intros Hne [?|(p & c' & E & Hc')]; [done|].
  apply cons_snoc_inv in E as [(_ & -> & _)|(p' & _ & ->)]; [done|].
  right. by exists p', c'.
Qed.

Lemma boundary_before_single c :
  boundary_before (String c "") → is_word c = false.
Proof.
  intros [?|(p & c' & E & Hc')]; [done|].
  apply cons_snoc_inv in E as [(_ & _ & ->)|(p' & _ & E)]; [done|].
  destruct p'; [rewrite append_nil_l in E|rewrite append_cons in E];
    discriminate E.
Qed.

(** what is reported after a word boundary is reported whatever came
    before the boundary *)
Lemma findall_words_go_skip pre : ∀ run alpha text w,
  pre ≠ "" → boundary_before pre →
  w ∈ findall_words_go "" true text →
  w ∈ findall_words_go run alpha (pre +:+ text).
Proof.
  induction pre as [|c pre IH]; intros run alpha text w Hne Hb Hw; [done|].
  rewrite append_cons. simpl.
  destruct (decide (pre = "")) as [->|Hpre].
  - rewrite (boundary_before_single c Hb), append_nil_l.
    apply elem_of_app. by right.
  - apply boundary_before_tail in Hb; [|done].
    destruct (is_word c); [by apply IH|].
    apply elem_of_app. right. by apply IH.
Qed.

Lemma findall_words_whole text w :
  w ∈ findall_words text ↔ whole_word w text.
Proof.
  split.
  - intros Hw.
    destruct (findall_words_go_bounded text "" "" true w) as
      (pre & post & E & ? & ?); [by left|done|].
    apply findall_words_spec in Hw as (_ & ? & ?).
    by exists pre, post.
  - intros (pre & post & -> & Hpre & Hpost & Ha & Hl).
    assert (sforall is_word w = true) as Hword.
    { clear -Ha. induction w as [|c w IH]; [done|]. simpl in *.
      apply andb_true_iff in Ha as [Hc Hw]. rewrite (IH Hw), andb_true_r.
      unfold is_word. by rewrite Hc. }
    assert (w ∈ findall_words_go "" true (w +:+ post)) as Hin.
    { rewrite findall_words_go_word, append_nil_l, Ha by done. cbn [andb].
      assert (flush w true = [w]) as Hflush.
      { unfold flush. cbn [andb]. by rewrite (proj2 (Nat.leb_le 3 (len w)) Hl). }
      destruct Hpost as [->|(c & p & -> & Hc)]; cbn [findall_words_go].
      - rewrite Hflush. by left.
      - rewrite Hc, Hflush. by left. }
    destruct (decide (pre = "")) as [->|Hne]; [done|].
    by apply findall_words_go_skip.
Qed.


End whole_words.

(** ** Search on an index built by ingestion *)

Section search_more.
Import document_processor.

Lemma ascii_lower_upper c : ascii_lower (ascii_upper c) = ascii_lower c.
Proof. by destruct c as [[] [] [] [] [] [] [] []]; vm_compute. Qed.


Lemma ascii_upper_lower c : ascii_upper (ascii_lower c) = ascii_upper c.
Proof. by destruct c as [[] [] [] [] [] [] [] []]; vm_compute. Qed.

Lemma smap_smap f g (s : string) : smap f (smap g s) = smap (f ∘ g) s.
Proof. induction s as [|c s IH]; [done|]. simpl. by rewrite IH. Qed.

Lemma smap_ext f g (s : string) : (∀ c, f c = g c) → smap f s = smap g s.
Proof. intros E. induction s as [|c s IH]; [done|]. simpl. by rewrite E, IH. Qed.

Lemma lower_upper (s : string) : lower (upper s) = lower s.
Proof. unfold lower, upper. rewrite smap_smap. apply smap_ext, ascii_lower_upper. Qed.


Lemma upper_lower (s : string) : upper (lower s) = upper s.
Proof. unfold lower, upper. rewrite smap_smap. apply smap_ext, ascii_upper_lower. Qed.


(** [search] for a [top_k] that is not negative *)
Lemma search_nonneg H self query top_k :
  (0 ≤ top_k)%Z →
  search H self query top_k =
  flat_map (hit_for self (_extract_keywords H query))
    (take (Z.to_nat top_k)
       (sorted_desc (scores self (_extract_keywords H query)))).
Proof.
  intros Hk. unfold search.
  destruct (_extract_keywords H query) as [|kw qk] eqn:Hqk.
  - by destruct (Z.to_nat top_k).
  - unfold slice_to. by rewrite (proj2 (Z.leb_le 0 top_k) Hk).
Qed.

Lemma search_nonneg_entries H self query top_k :
  well_formed self → (0 ≤ top_k)%Z →
  hit_entry <$> search H self query top_k =
  take (Z.to_nat top_k) (sorted_desc (scores self (_extract_keywords H query))).
Proof.
  intros (Hids & Hrange & _) Hk. rewrite search_nonneg by done.
  apply hits_entries; [done|]. intros e He. by eapply taken_in_range.
Qed.

Lemma NoDup_bounded_length (l : list nat) n :
  NoDup l → (∀ i, i ∈ l → i < n) → length l ≤ n.
Proof.
  intros Hnd Hlt. trans (length (seq 0 n)); [|by rewrite length_seq].
  apply submseteq_length, NoDup_submseteq; [done|].
  intros i Hi. apply elem_of_seq. specialize (Hlt i Hi). lia.
Qed.

Lemma scanned_elem self qk i :
  i ∈ scanned self qk ↔ ∃ kw, kw ∈ qk ∧ i ∈ posting self (lower kw).
Proof.
  unfold scanned. rewrite list_elem_of_In, in_flat_map.
  split; intros (kw & ? & ?); exists kw; by rewrite ?list_elem_of_In in *.
Qed.

Lemma encounter_order_elem self qk i :
  i ∈ encounter_order self qk ↔ i ∈ scanned self qk.
Proof.
  unfold encounter_order. rewrite foldl_add_new_elem, elem_of_nil. tauto.
Qed.

Lemma encounter_order_NoDup self qk : NoDup (encounter_order self qk).
Proof. apply foldl_add_new_NoDup, NoDup_nil_2. Qed.

Lemma encounter_order_length self qk :
  postings_in_range self → length (encounter_order self qk) ≤ length (documents self).
Proof.
  intros Hrange. apply NoDup_bounded_length; [apply encounter_order_NoDup|].
  intros i (kw & _ & Hin)%encounter_order_elem%scanned_elem. by eapply Hrange.
Qed.

Lemma sorted_desc_length d : length (sorted_desc d) = length d.
Proof. by rewrite sorted_desc_Permutation. Qed.

Lemma scores_length self qk :
  length (scores self qk) = length (encounter_order self qk).
Proof. by rewrite <- scores_keys, length_fmap. Qed.

(** the candidates of a query in a well-formed index: the documents that
    store one of its keywords *)
Lemma candidates self H query i :
  well_formed self →
  i ∈ encounter_order self (_extract_keywords H query) ↔
  ∃ kw d, kw ∈ _extract_keywords H query
          ∧ documents self !! i = Some d ∧ kw ∈ doc_keywords d.
Proof.
  intros (_ & Hrange & Hcons). rewrite encounter_order_elem, scanned_elem. split.
  - intros (kw & Hkw & Hin).
    destruct (lookup_lt_is_Some_2 (documents self) i) as [d Hd];
      [by eapply Hrange|].
    exists kw, d. split; [done|]. split; [done|].
    rewrite (extract_keywords_lower H query kw Hkw) in Hin.
    by apply (consistent_posting self i d kw (Hcons i d Hd)).
  - intros (kw & d & Hkw & Hd & Hin). exists kw. split; [done|].
    rewrite (extract_keywords_lower H query kw Hkw).
    by apply (consistent_posting self i d kw (Hcons i d Hd)).
Qed.

(** X3: on an index built by ingestion and for a [top_k] that is not
    negative, [search] returns exactly [top_k] hits, or all the candidates
    when there are fewer; the candidates are the documents that store at
    least one keyword of the query, each once. So when [top_k] is at least
    the number of stored documents, every document that stores a keyword
    of the query is returned. *)
Theorem X3_search_returns_the_candidates H self query top_k :
  well_formed self → (0 ≤ top_k)%Z →
  let qk := _extract_keywords H query in
  length (search H self query top_k)
  = min (Z.to_nat top_k) (length (encounter_order self qk))
  ∧ NoDup (encounter_order self qk)
  ∧ (∀ i, i ∈ encounter_order self qk ↔
          ∃ kw d, kw ∈ qk ∧ documents self !! i = Some d ∧ kw ∈ doc_keywords d)
  ∧ (length (documents self) ≤ Z.to_nat top_k →
     ∀ i d kw, documents self !! i = Some d → kw ∈ qk → kw ∈ doc_keywords d →
               ∃ h, h ∈ search H self query top_k ∧ hit_doc h = d).
Proof.
  intros Hwf Hk qk. pose proof Hwf as (Hids & Hrange & Hcons).
  pose proof (search_nonneg_entries H self query top_k Hwf Hk) as He.
  fold qk in He.
  split; [|split; [apply encounter_order_NoDup|split]].
  - rewrite <- (length_fmap hit_entry), He, length_take.
    by rewrite sorted_desc_length, scores_length.
  - intros i. by apply candidates.
  - intros Hall i d kw Hd Hkw Hin.
    assert (i ∈ (scores self qk).*1) as Hkey.
    { rewrite scores_keys. apply candidates; [done|]. by exists kw, d. }
    apply list_elem_of_fmap in Hkey as ([i' n] & -> & Hentry). simpl in *.
    rewrite <- (sorted_desc_Permutation (scores self qk)) in Hentry.
    rewrite take_ge in He.
    2:{ rewrite sorted_desc_length, scores_length.
        pose proof (encounter_order_length self qk Hrange). lia. }
    rewrite <- He in Hentry.
    apply list_elem_of_fmap in Hentry as (h & Hh & Hin').
    exists h. split; [done|].
    destruct (search_hit H self query top_k h Hin') as (j & Hj & _).
    pose proof (Hids j _ Hj) as Hid. unfold hit_entry in Hh.
    injection Hh as Hi _. assert (j = i') as -> by congruence. congruence.
Qed.

(** *** Documents built from their text *)

Lemma documents_from_text_empty : documents_from_text empty_processor.
Proof. by intros d ?%elem_of_nil. Qed.

Lemma documents_from_text_with_document H self file_path text :
  documents_from_text self →
  documents_from_text (with_document H self file_path text).
Proof.
  intros Hself d [Hd | Hd]%elem_of_app; [by apply Hself|].
  apply list_elem_of_singleton in Hd as ->. split; [|done].
  intros w. simpl. apply extract_keywords_elem.
Qed.

Lemma documents_from_text_process_files H X file_paths : ∀ acc,
  documents_from_text acc.1 →
  documents_from_text (foldl (process_file H X) acc file_paths).1.
Proof.
  induction file_paths as [|f fs IH]; intros acc Hacc; [done|].
  simpl. apply IH. rewrite process_file_processor.
  destruct (_extract_text X f); [|done].
  by apply documents_from_text_with_document.
Qed.

Lemma documents_from_text_process_documents H X self file_paths :
  documents_from_text self →
  documents_from_text (process_documents H X self file_paths).1.
Proof.
  intros Hself. rewrite process_documents_processor.
  by apply documents_from_text_process_files.
Qed.

(** X4: in an index whose documents were built from their text (as
    ingestion builds them), every keyword reported for a hit is a whole
    word of the lower-cased query and of the lower-cased text of the hit's
    document, and no stopword. *)
Theorem X4_matched_keywords_occur H self query top_k h kw :
  documents_from_text self →
  h ∈ search H self query top_k →
  kw ∈ matched_keywords h →
  whole_word kw (lower query)
  ∧ whole_word kw (lower (doc_text (hit_doc h)))
  ∧ kw ∉ stopwords.
Proof.
  intros Hdocs Hh Hkw.
  destruct (search_hit H self query top_k h Hh) as (i & Hdoc & _ & _ & _ & Hmk).
  rewrite Hmk in Hkw. apply list_elem_of_filter in Hkw as [Hstored Hq].
  rewrite (extract_keywords_lower H query kw Hq) in Hstored.
  apply extract_keywords_elem in Hq as (Hq & Hstop & _).
  destruct (Hdocs (hit_doc h)) as [Hkws _].
  { by eapply list_elem_of_lookup_2. }
  apply Hkws in Hstored as (Hd & _ & _).
  by rewrite <- !findall_words_whole.
Qed.

End search_more.

(** ** Ingestion: what it keeps and how batches compose *)

Section ingestion_more.
Import document_processor.
Context (H : HashOrder) (X : Extractors).

(** what ingestion appends to a posting list are ids of new documents *)
Lemma posting_growth file_paths : ∀ self acc,
  length (documents self) ≤ length (documents acc.1) →
  (∀ k, ∃ rest, posting acc.1 k = posting self k ++ rest
                ∧ Forall (λ j, length (documents self) ≤ j) rest) →
  let acc' := foldl (process_file H X) acc file_paths in
  ∀ k, ∃ rest, posting acc'.1 k = posting self k ++ rest
               ∧ Forall (λ j, length (documents self) ≤ j) rest.
Proof.
  induction file_paths as [|f fs IH]; intros self acc Hlen Hacc; [done|].
  simpl. apply IH.
  - rewrite process_file_processor. destruct (_extract_text X f); [|done].
    simpl. rewrite length_app. lia.
  - intros k. rewrite process_file_processor.
    destruct (_extract_text X f) as [text|]; [|done].
    destruct (Hacc k) as (rest & E & Hrest).
    rewrite posting_with_document, E, <- app_assoc. eexists. split; [done|].
    apply Forall_app. split; [done|]. case_decide; by repeat constructor.
Qed.

Lemma score_of_scores self qk i :
  score_of (scores self qk) i = occurrences i (scanned self qk).
Proof. by rewrite scores_scanned, score_of_bumps. Qed.

(** X5: ingesting further files never changes the score that a query
    gives to a document already stored: the ids appended to the posting
    lists are those of the new documents. *)
Theorem X5_scores_survive_ingestion self file_paths query_keywords i :
  i < length (documents self) →
  let self' := (process_documents H X self file_paths).1 in
  score_of (scores self' query_keywords) i
  = score_of (scores self query_keywords) i
  ∧ documents self' !! i = documents self !! i.
Proof.
  intros Hi self'. split.
  - rewrite !score_of_scores, !occurrences_scanned. f_equal.
    apply list_fmap_ext. intros _ kw _.
    unfold self'. rewrite process_documents_processor.
    destruct (posting_growth file_paths self (self, empty_report))
      with (k := lower kw) as (rest & -> & Hrest); [done|..].
    { intros k. exists []. by rewrite app_nil_r. }
    rewrite occurrences_app, (occurrences_absent i rest); [lia|].
    intros Hin. apply (proj1 (Forall_forall _ _) Hrest) in Hin. lia.
  - destruct (grows_from_process_files H X self file_paths (self, empty_report))
      as ([rest E] & _); [apply grows_from_refl|].
    unfold self'. rewrite process_documents_processor, E.
    by apply lookup_app_l.
Qed.

(** *** Ascending posting lists *)

Lemma postings_ascending_empty : postings_ascending empty_processor.
Proof.
  intros k. unfold posting. simpl. rewrite lookup_total_empty. constructor.
Qed.

Lemma postings_ascending_with_document self file_path text :
  postings_in_range self → postings_ascending self →
  postings_ascending (with_document H self file_path text).
Proof.
  intros Hrange Hasc k. rewrite posting_with_document.
  apply StronglySorted_app_2; [|done|case_decide; repeat constructor].
  intros i j Hi Hj. apply Hrange in Hi.
  case_decide; [|by apply elem_of_nil in Hj].
  apply list_elem_of_singleton in Hj. lia.
Qed.

Lemma postings_ascending_process_files file_paths : ∀ acc,
  well_formed acc.1 → postings_ascending acc.1 →
  postings_ascending (foldl (process_file H X) acc file_paths).1.
Proof.
  induction file_paths as [|f fs IH]; intros acc Hwf Hasc; [done|].
  simpl.
  apply IH; rewrite process_file_processor; destruct (_extract_text X f);
    try done.
  - by apply well_formed_with_document.
  - apply postings_ascending_with_document; [apply Hwf|done].
Qed.

Lemma postings_ascending_process_documents self file_paths :
  well_formed self → postings_ascending self →
  postings_ascending (process_documents H X self file_paths).1.
Proof.
  intros. rewrite process_documents_processor.
  by apply postings_ascending_process_files.
Qed.

(** *** Batches *)

(** the loop started with another report *)
Lemma process_files_report file_paths : ∀ self r,
  foldl (process_file H X) (self, r) file_paths =
  let acc := foldl (process_file H X) (self, empty_report) file_paths in
  (acc.1, {| processed := processed r + processed acc.2;
             failed := failed r + failed acc.2;
             total_documents := total_documents r;
             report_documents := report_documents r ++ report_documents acc.2 |}).
Proof.
  induction file_paths as [|f fs IH]; intros self [p fl t docs]; simpl.
  { by rewrite !Nat.add_0_r, app_nil_r. }
  destruct (extracts X f) eqn:Hf.
  - destruct (process_file_success H X (self, Build_report p fl t docs) f Hf)
      as (text & Ht & ->).
    destruct (process_file_success H X (self, empty_report) f Hf)
      as (text' & Ht' & ->).
    assert (text' = text) as -> by congruence. simpl.
    rewrite IH. symmetry. rewrite IH. simpl.
    f_equal. f_equal; [lia|by rewrite <- app_assoc].
  - rewrite !(process_file_failure H X _ f Hf). simpl.
    rewrite IH. symmetry. rewrite IH. simpl. f_equal. f_equal. lia.
Qed.

(** X6: ingesting a list of files in two batches gives the same index as
    ingesting it in one, and the two reports add up to the report of the
    single batch. *)
Theorem X6_batches_compose self files1 files2 :
  let one := process_documents H X self (files1 ++ files2) in
  let first := process_documents H X self files1 in
  let second := process_documents H X first.1 files2 in
  one.1 = second.1 ∧ one.2 = report_add first.2 second.2.
Proof.
  simpl. rewrite !process_documents_unfold. simpl.
  rewrite foldl_app.
  destruct (foldl (process_file H X) (self, empty_report) files1) as [s1 r1].
  simpl. rewrite (process_files_report files2 s1 r1). simpl.
  split; [done|]. unfold report_add. simpl. done.
Qed.



End ingestion_more.

(** ** A query with a single keyword *)

Section single_keyword.
Import document_processor.

Lemma dict_get_fresh {V} (d : list (nat * V)) k : k ∉ d.*1 → dict_get d k = None.
Proof.
  induction d as [|[k0 v0] d IH]; [done|].
  cbn [fmap list_fmap fst]. intros [Hne Hd]%not_elem_of_cons. simpl.
  rewrite decide_False by done. by apply IH.
Qed.

Lemma dict_set_fresh {V} (d : list (nat * V)) k v :
  k ∉ d.*1 → dict_set d k v = d ++ [(k, v)].
Proof.
  induction d as [|[k0 v0] d IH]; [done|].
  cbn [fmap list_fmap fst]. intros [Hne Hd]%not_elem_of_cons. simpl.
  rewrite decide_False by done. by rewrite IH.
Qed.

(** ids met once each get the score 1, in the order they are met *)
Lemma bumps_fresh ids : ∀ d,
  NoDup (d.*1 ++ ids) → foldl bump d ids = d ++ ((λ i, (i, 1)) <$> ids).
Proof.
  induction ids as [|i ids IH]; intros d Hnd; simpl.
  { by rewrite app_nil_r. }
  assert (i ∉ d.*1) as Hi.
  { apply NoDup_app in Hnd as (_ & Hnd & _). intros Hin.
    apply (Hnd i Hin). by left. }
  unfold bump at 2. rewrite (dict_get_fresh d i Hi), dict_set_fresh by done.
  simpl. rewrite IH.
  - by rewrite <- app_assoc.
  - rewrite fmap_app. simpl. by rewrite <- app_assoc.
Qed.

Lemma sorted_desc_const s d :
  Forall (λ e : nat * nat, e.2 = s) d → sorted_desc d = d.
Proof.
  induction 1 as [|x d Hx Hd IH]; [done|]. simpl. rewrite IH.
  destruct Hd as [|y d Hy Hd]; [done|]. simpl.
  rewrite Hx, Hy. by rewrite Nat.ltb_irrefl.
Qed.

Lemma StronglySorted_lt_NoDup (l : list nat) : StronglySorted lt l → NoDup l.
Proof.
  induction 1 as [|x l Hl IH Hx]; constructor; [|done].
  intros Hin. apply (proj1 (Forall_forall _ _) Hx) in Hin. lia.
Qed.

(** X8: on an index built by ingestion, the hits of a query with a single
    keyword all have the score 1 and are listed by ascending document id:
    they are the first entries of the keyword's posting list. With one
    keyword, ties are in the order of the ids. *)
Theorem X8_single_keyword_by_id H self query top_k kw :
  well_formed self → postings_ascending self →
  _extract_keywords H query = [kw] →
  let hits := search H self query top_k in
  ties_by_ascending_id hits
  ∧ Forall (λ h, match_score h = 1) hits
  ∧ (doc_id ∘ hit_doc) <$> hits `prefix_of` posting self kw.
Proof.
  intros Hwf Hasc Hqk hits.
  destruct (search_entries H self query top_k Hwf) as (n & He).
  fold hits in He. rewrite Hqk in He.
  assert (lower kw = kw) as Hlow.
  { apply (extract_keywords_lower H query). rewrite Hqk. by left. }
  assert (scores self [kw] = (λ i, (i, 1)) <$> posting self kw) as Hs.
  { unfold scores. simpl. rewrite score_keyword_posting, Hlow.
    rewrite bumps_fresh; [done|]. simpl. apply StronglySorted_lt_NoDup, Hasc. }
  rewrite Hs, sorted_desc_const with (s := 1), <- fmap_take in He.
  2:{ apply Forall_fmap, Forall_forall. done. }
  assert ((doc_id ∘ hit_doc) <$> hits = take n (posting self kw)) as Hids.
  { transitivity ((hit_entry <$> hits).*1).
    - rewrite <- list_fmap_compose. done.
    - rewrite He, <- list_fmap_compose. apply list_fmap_id. }
  split; [|split].
  - intros i j hi hj Hi Hj Hij _.
    assert (take n (posting self kw) !! i = Some (doc_id (hit_doc hi))) as Hi'.
    { rewrite <- Hids, list_lookup_fmap, Hi. done. }
    assert (take n (posting self kw) !! j = Some (doc_id (hit_doc hj))) as Hj'.
    { rewrite <- Hids, list_lookup_fmap, Hj. done. }
    eapply (StronglySorted_lookup lt); [|exact Hi'|exact Hj'|exact Hij].
    eapply StronglySorted_sublist; [apply sublist_take|apply Hasc].
  - apply Forall_forall. intros h Hh.
    assert (hit_entry h ∈ hit_entry <$> hits) as Hin
      by (apply list_elem_of_fmap; eauto).
    rewrite He in Hin. apply list_elem_of_fmap in Hin as (i & E & _).
    unfold hit_entry in E. by injection E.
  - rewrite Hids. apply prefix_take.
Qed.

End single_keyword.

(** ** The extension of a path *)

Section extensions.
Import document_processor.

Lemma rev_app_append (s t : string) : String.rev_app s t = String.rev s +:+ t.
Proof.
  unfold String.rev. revert t. induction s as [|c s IH]; intros t; [done|].
  simpl. rewrite IH, (IH (String c "")). by rewrite append_assoc.
Qed.

Lemma rev_cons c (s : string) : String.rev (String c s) = String.rev s +:+ String c "".
Proof. unfold String.rev at 1. simpl. apply rev_app_append. Qed.

Lemma rev_append (s t : string) :
  String.rev (s +:+ t) = String.rev t +:+ String.rev s.
Proof.
  induction s as [|c s IH].
  - by rewrite append_nil_l, append_nil_r.
  - by rewrite append_cons, !rev_cons, IH, append_assoc.
Qed.

Lemma rev_rev (s : string) : String.rev (String.rev s) = s.
Proof.
  induction s as [|c s IH]; [done|]. by rewrite rev_cons, rev_append, IH.
Qed.

(** a segment without the separator is read to its end *)
Lemma last_segment_go_plain sep ext : ∀ cur,
  sforall (λ c, bool_decide (c ≠ sep)) ext = true →
  last_segment_go sep cur ext = String.rev cur +:+ ext.
Proof.
  induction ext as [|c ext IH]; intros cur; simpl.
  - by rewrite append_nil_r.
  - intros [Hc Hext]%andb_true_iff. apply bool_decide_eq_true in Hc.
    rewrite decide_False by done. rewrite IH by done.
    by rewrite rev_cons, append_assoc.
Qed.

(** what precedes a separator is forgotten *)
Lemma last_segment_go_sep sep stem ext : ∀ cur,
  last_segment_go sep cur (stem +:+ String sep ext) = last_segment_go sep "" ext.
Proof.
  induction stem as [|c stem IH]; intros cur.
  - rewrite append_nil_l. simpl. by rewrite decide_True.
  - rewrite append_cons. simpl. case_decide; apply IH.
Qed.

Lemma last_segment_after sep stem ext :
  sforall (λ c, bool_decide (c ≠ sep)) ext = true →
  last_segment sep (stem +:+ String sep ext) = ext.
Proof.
  intros Hext. unfold last_segment.
  by rewrite last_segment_go_sep, last_segment_go_plain.
Qed.

Lemma last_segment_whole sep path :
  sforall (λ c, bool_decide (c ≠ sep)) path = true →
  last_segment sep path = path.
Proof. intros Hp. unfold last_segment. by rewrite last_segment_go_plain. Qed.

(** X9: the extractor of a file is chosen by the text after the last dot
    of its path, whatever the case of its letters: report.PDF is read as
    a PDF file. Any other ending raises ValueError with the lower-cased
    ending in the message. A path without a dot is its own extension: it
    is read only if, lower-cased, it is exactly pdf, docx or txt. *)
Theorem X9_extractor_by_extension X stem ext :
  sforall (λ c, bool_decide (c ≠ "."%char)) ext = true →
  let path := stem +:+ "." +:+ ext in
  (lower ext = "pdf" → _extract_text X path = _extract_pdf X path)
  ∧ (lower ext = "docx" → _extract_text X path = _extract_docx X path)
  ∧ (lower ext = "txt" → _extract_text X path = _extract_txt X path)
  ∧ (lower ext ∉ ["pdf"; "docx"; "txt"] →
     _extract_text X path
     = Raise (Exn "ValueError" ("Unsupported file type: " +:+ lower ext)))
  ∧ (lower ext ∉ ["pdf"; "docx"; "txt"] →
     _extract_text X ext
     = Raise (Exn "ValueError" ("Unsupported file type: " +:+ lower ext))).
Proof.
  intros Hext path. unfold _extract_text, path.
  change ("." +:+ ext) with (String "."%char ext).
  rewrite last_segment_after, last_segment_whole by done.
  repeat split; intros E; repeat case_decide; try done; try congruence;
    exfalso; apply E; set_solver.
Qed.

End extensions.

(** ** The row-count ceiling *)

Section optimisation.
Import text_to_sql.

Lemma smap_append f (s t : string) : smap f (s +:+ t) = smap f s +:+ smap f t.
Proof. induction s as [|c s IH]; [done|]. rewrite !append_cons. simpl. by rewrite IH. Qed.

Lemma upper_append (s t : string) : upper (s +:+ t) = upper s +:+ upper t.
Proof. apply smap_append. Qed.

Lemma occurs_in_append_l needle (a b : string) :
  occurs_in needle a → occurs_in needle (a +:+ b).
Proof.
  intros (pre & post & ->). exists pre, (post +:+ b). by rewrite !append_assoc.
Qed.

Lemma occurs_in_append_r needle (a b : string) :
  occurs_in needle b → occurs_in needle (a +:+ b).
Proof.
  intros (pre & post & ->). exists (a +:+ pre), post. by rewrite !append_assoc.
Qed.

Lemma begins_with_append p (a b : string) :
  begins_with p a → begins_with p (a +:+ b).
Proof. intros (rest & ->). exists (rest +:+ b). by rewrite append_assoc. Qed.

(** a prefix that lacks the character [c] ends before it *)
Lemma startswith_before c p : ∀ a b,
  sforall (λ x, bool_decide (x ≠ c)) p = true →
  startswith p (a +:+ String c b) = true → startswith p a = true.
Proof.
  induction p as [|x p IH]; intros a b; simpl; [done|].
  intros [Hx Hp]%andb_true_iff. apply bool_decide_eq_true in Hx.
  destruct a as [|y a].
  - rewrite append_nil_l. by rewrite decide_False.
  - rewrite append_cons. case_decide; [|done]. by apply IH.
Qed.

(** an occurrence of a word that lacks the character [c] lies on one side
    of it *)
Lemma contains_around c needle : ∀ a b,
  sforall (λ x, bool_decide (x ≠ c)) needle = true →
  contains needle (a +:+ String c b) = true →
  contains needle a = true ∨ contains needle b = true.
Proof.
  intros a b Hn. induction a as [|y a IH].
  - rewrite append_nil_l, contains_unfold.
    intros [Hs | Hc]%orb_true_iff; [|by right].
    left. apply (startswith_before c needle "" b Hn) in Hs.
    rewrite contains_unfold. by rewrite Hs.
  - rewrite append_cons, contains_unfold.
    intros [Hs | Hc]%orb_true_iff.
    + left. rewrite <- append_cons in Hs.
      apply (startswith_before c needle _ b Hn) in Hs.
      rewrite contains_unfold. by rewrite Hs.
    + destruct (IH Hc) as [Ha | Hb]; [|by right].
      left. rewrite contains_unfold, Ha. apply orb_true_r.
Qed.

(** *** Stripping *)

Lemma lstrip_by_split P (s : string) :
  ∃ t, s = t +:+ lstrip_by P s ∧ sforall P t = true.
Proof.
  induction s as [|c s (t & E & Ht)]; simpl; [by exists ""|].
  destruct (P c) eqn:Hc.
  - exists (String c t). rewrite append_cons, <- E. simpl. by rewrite Hc.
  - by exists "".
Qed.

Lemma sforall_rev P (s : string) : sforall P (String.rev s) = sforall P s.
Proof.
  induction s as [|c s IH]; [done|].
  rewrite rev_cons, sforall_append, IH. simpl.
  by rewrite andb_true_r, andb_comm.
Qed.

(** [rstrip] takes a run of stripped characters off the end *)
Lemma rstrip_by_split P (s : string) :
  ∃ t, s = rstrip_by P s +:+ t ∧ sforall P t = true.
Proof.
  unfold rstrip_by.
  destruct (lstrip_by_split P (String.rev s)) as (t & E & Ht).
  exists (String.rev t). split; [|by rewrite sforall_rev].
  rewrite <- rev_append, <- E. by rewrite rev_rev.
Qed.

Lemma lstrip_by_append P (a b : string) :
  lstrip_by P (a +:+ b) =
  if sforall P a then lstrip_by P b else lstrip_by P a +:+ b.
Proof.
  induction a as [|c a IH]; [done|]. rewrite append_cons. simpl.
  destruct (P c); [done|]. by rewrite append_cons.
Qed.

Lemma lstrip_by_nonempty P (s : string) :
  lstrip_by P s ≠ "" → sforall P s = false.
Proof.
  induction s as [|c s IH]; simpl; [done|].
  destruct (P c); [exact IH|done].
Qed.

Lemma rstrip_by_kept P (s : string) c :
  P c = false → rstrip_by P (s +:+ String c "") = s +:+ String c "".
Proof.
  intros Hc. unfold rstrip_by. rewrite rev_append.
  change (String.rev (String c "")) with (String c "").
  rewrite append_cons, append_nil_l. simpl. rewrite Hc.
  rewrite rev_cons, rev_rev. done.
Qed.

(** *** [_optimize_sql] *)

Lemma limit_appended (s : string) :
  occurs_in "LIMIT" (upper (s +:+ " LIMIT 100;")).
Proof.
  rewrite upper_append. apply occurs_in_append_r.
  by apply contains_spec.
Qed.

Lemma optimize_unfold sql :
  _optimize_sql sql =
  if decide (occurs_in "LIMIT" (upper sql)) then sql
  else rstrip_semicolon sql +:+ " LIMIT 100;".
Proof.
  unfold _optimize_sql.
  destruct (contains "LIMIT" (upper sql)) eqn:Hc; simpl.
  - rewrite decide_True; [done|]. by apply contains_spec.
  - rewrite decide_False; [done|]. rewrite <- contains_spec. congruence.
Qed.

Lemma optimize_has_limit sql : occurs_in "LIMIT" (upper (_optimize_sql sql)).
Proof. rewrite optimize_unfold. case_decide; [done|apply limit_appended]. Qed.

(** X10: the statement [_optimize_sql] returns always mentions LIMIT.
    A statement that mentions LIMIT anywhere, in any case (also inside a
    name such as credit_limit), is returned unchanged; any other statement
    loses its trailing semicolons and gets " LIMIT 100;" appended.
    Optimising twice is optimising once. *)
Theorem X10_optimize_adds_the_ceiling_once sql :
  occurs_in "LIMIT" (upper (_optimize_sql sql))
  ∧ (occurs_in "LIMIT" (upper sql) → _optimize_sql sql = sql)
  ∧ (¬ occurs_in "LIMIT" (upper sql) →
     ∃ body semicolons,
       sql = body +:+ semicolons
       ∧ sforall (λ c, bool_decide (c = ";"%char)) semicolons = true
       ∧ body = rstrip_semicolon sql
       ∧ _optimize_sql sql = body +:+ " LIMIT 100;")
  ∧ _optimize_sql (_optimize_sql sql) = _optimize_sql sql.
Proof.
  split; [apply optimize_has_limit|]. split; [|split].
  - intros Hl. rewrite optimize_unfold. by rewrite decide_True.
  - intros Hl. rewrite optimize_unfold, decide_False by done.
    destruct (rstrip_by_split (λ c, bool_decide (c = ";"%char)) sql)
      as (t & E & Ht).
    by exists (rstrip_semicolon sql), t.
  - rewrite (optimize_unfold (_optimize_sql sql)).
    rewrite decide_True; [done|apply optimize_has_limit].
Qed.

(** *** Optimisation keeps a statement valid *)

Lemma dangerous_no_space keyword :
  keyword ∈ dangerous →
  sforall (λ x, bool_decide (x ≠ " "%char)) keyword = true
  ∧ contains keyword "LIMIT 100;" = false.
Proof.
  unfold dangerous. intros Hin.
  repeat (apply elem_of_cons in Hin as [->|Hin]; [by vm_compute|]).
  by apply elem_of_nil in Hin.
Qed.

Lemma upper_semicolons (t : string) :
  sforall (λ c, bool_decide (c = ";"%char)) t = true → upper t = t.
Proof.
  induction t as [|c t IH]; [done|]. simpl.
  intros [Hc Ht]%andb_true_iff. apply bool_decide_eq_true in Hc as ->.
  unfold upper in *. simpl. by rewrite IH.
Qed.

Lemma optimize_valid sql :
  (_validate_sql sql).1 = true → (_validate_sql (_optimize_sql sql)).1 = true.
Proof.
  intros Hv. rewrite optimize_unfold. case_decide as Hl; [done|].
  destruct (_validate_sql (rstrip_semicolon sql +:+ " LIMIT 100;")).1 eqn:Hn;
    [done|exfalso].
  assert (¬ (_validate_sql sql).1 = false) as Hok by (rewrite Hv; done).
  rewrite validate_rejects in Hok.
  destruct (rstrip_by_split (λ c, bool_decide (c = ";"%char)) sql)
    as (semis & E & Hsemis).
  fold (rstrip_semicolon sql) in E. set (body := rstrip_semicolon sql) in *.
  clearbody body.
  assert (upper sql = upper body +:+ semis) as EU.
  { trans (upper (body +:+ semis)); [by rewrite <- E|].
    by rewrite upper_append, (upper_semicolons semis Hsemis). }
  apply validate_rejects in Hn as [Hempty | [(keyword & Hin & Hocc) | Hsel]].
  - destruct body; [rewrite append_nil_l in Hempty|rewrite append_cons in Hempty];
      discriminate Hempty.
  - apply Hok. right. left. exists keyword. split; [done|].
    destruct (dangerous_no_space keyword Hin) as [Hsp Hnot].
    rewrite upper_append in Hocc. apply contains_spec in Hocc.
    change (upper " LIMIT 100;") with (String " "%char "LIMIT 100;") in Hocc.
    apply (contains_around _ _ _ _ Hsp) in Hocc as [Hocc | Hocc];
      [|congruence].
    rewrite EU. apply occurs_in_append_l. by apply contains_spec.
  - apply Hsel.
    assert (begins_with "SELECT" (lstrip_by is_space (upper sql))) as Hb.
    { destruct (decide (begins_with "SELECT" (strip (upper sql)))) as [Hb|Hb];
        [|exfalso; apply Hok; by right; right].
      unfold strip in Hb.
      destruct (rstrip_by_split is_space (lstrip_by is_space (upper sql)))
        as (t & Et & _).
      rewrite Et. by apply begins_with_append. }
    assert (startswith "SELECT" (lstrip_by is_space (upper body)) = true) as Hs.
    { rewrite EU, lstrip_by_append in Hb. apply startswith_spec in Hb.
      destruct (sforall is_space (upper body)).
      - destruct semis as [|c semis]; [done|]. simpl in Hsemis.
        apply andb_true_iff in Hsemis as [Hc _].
        apply bool_decide_eq_true in Hc as ->. done.
      - destruct semis as [|c semis]; [by rewrite append_nil_r in Hb|].
        simpl in Hsemis. apply andb_true_iff in Hsemis as [Hc _].
        apply bool_decide_eq_true in Hc as ->.
        by apply (startswith_before ";"%char "SELECT") in Hb. }
    assert (sforall is_space (upper body) = false) as Hns.
    { apply lstrip_by_nonempty. intros Hnil. by rewrite Hnil in Hs. }
    unfold strip. rewrite upper_append, lstrip_by_append, Hns.
    change (upper " LIMIT 100;") with (" LIMIT 100" +:+ String ";"%char "").
    rewrite <- append_assoc, rstrip_by_kept by done.
    rewrite append_assoc. apply begins_with_append. by apply startswith_spec.
Qed.

(** X11: optimisation keeps a statement valid. A statement that passes
    [_validate_sql] still passes it after [_optimize_sql]: appending the
    row-count ceiling brings in none of the forbidden keywords and leaves
    SELECT at the start. *)
Theorem X11_optimisation_keeps_validity sql :
  (_validate_sql sql).1 = true →
  _validate_sql (_optimize_sql sql) = (true, "")
  ∧ occurs_in "LIMIT" (upper (_optimize_sql sql)).
Proof.
  intros Hv. split; [|apply optimize_has_limit].
  pose proof (optimize_valid sql Hv) as Ho.
  unfold _validate_sql in *.
  destruct (decide (_optimize_sql sql = "")); [done|].
  destruct (first_dangerous (upper (_optimize_sql sql))); [done|].
  by destruct (startswith "SELECT" (strip (upper (_optimize_sql sql)))).
Qed.

End optimisation.

(** ** From the answer of the model to the database *)

Section generation.
Import text_to_sql query_engine.

Lemma len_smap f (s : string) : len (smap f s) = len s.
Proof. induction s as [|c s IH]; [done|]. simpl. by rewrite IH. Qed.

Lemma len_rev (s : string) : len (String.rev s) = len s.
Proof.
  induction s as [|c s IH]; [done|].
  rewrite rev_cons, len_append, IH. simpl. lia.
Qed.

Lemma len_lstrip_by P (s : string) : len (lstrip_by P s) ≤ len s.
Proof.
  destruct (lstrip_by_split P s) as (t & E & _).
  rewrite E at 2. rewrite len_append. lia.
Qed.

Lemma len_strip (s : string) : len (strip s) ≤ len s.
Proof.
  unfold strip, rstrip_by. rewrite len_rev.
  etrans; [apply len_lstrip_by|]. rewrite len_rev. apply len_lstrip_by.
Qed.

Lemma startswith_len p : ∀ s, startswith p s = true → len p ≤ len s.
Proof.
  induction p as [|a p IH]; intros [|b s]; simpl; try done; [lia|].
  case_decide; [|done]. intros Hs%IH. lia.
Qed.

Lemma len_stake n : ∀ s, len (stake n s) ≤ n.
Proof.
  induction n as [|n IH]; intros [|c s]; cbn [stake]; unfold len in *;
    cbn [String.length]; try lia.
  specialize (IH s). lia.
Qed.

Lemma sdrop_nonempty n : ∀ s, n < len s → sdrop n s ≠ "".
Proof.
  induction n as [|n IH]; intros [|c s]; unfold len in *;
    cbn [sdrop String.length]; try done; try lia.
  intros Hn. apply IH. lia.
Qed.

(** a statement of fewer than six characters is rejected *)
Lemma validate_short sql : len sql < 6 → (_validate_sql sql).1 = false.
Proof.
  intros Hl. unfold _validate_sql.
  destruct (decide (sql = "")); [done|].
  destruct (first_dangerous (upper sql)); [done|].
  destruct (startswith "SELECT" (strip (upper sql))) eqn:Hs; [|done].
  apply startswith_len in Hs.
  pose proof (len_strip (upper sql)) as Hstrip.
  unfold upper in Hstrip. rewrite len_smap in Hstrip.
  change (len "SELECT") with 6 in Hs. unfold upper in Hs. lia.
Qed.

(** *** Where a pattern starts to match *)

Lemma find_ci_unfold word s :
  find_ci word s =
  if startswith word (lower s)
  then Some (stake (len word) s, sdrop (len word) s)
  else match s with "" => None | String _ s' => find_ci word s' end.
Proof. by destruct s. Qed.

Lemma find_ci_followed word pre c post : ∀ text,
  lower text = pre +:+ word +:+ String c post →
  ∃ w rest, find_ci word text = Some (w, rest)
            ∧ rest ≠ "" ∧ len w ≤ len word.
Proof.
  induction pre as [|p pre IH]; intros text E; rewrite find_ci_unfold.
  - rewrite append_nil_l in E.
    assert (startswith word (lower text) = true) as ->.
    { apply startswith_spec. by exists (String c post). }
    eexists _, _. split; [done|]. split; [|apply len_stake].
    apply sdrop_nonempty.
    assert (len text = len (lower text)) as -> by (unfold lower; by rewrite len_smap).
    rewrite E, len_append. simpl. lia.
  - destruct (startswith word (lower text)) eqn:Hs.
    + eexists _, _. split; [done|]. split; [|apply len_stake].
      apply sdrop_nonempty.
      assert (len text = len (lower text)) as -> by (unfold lower; by rewrite len_smap).
      rewrite E, !len_append. simpl. lia.
    + destruct text as [|a text]; [discriminate E|].
      rewrite append_cons in E. injection E as _ E. by apply IH.
Qed.

Lemma find_ci_absent word : ∀ text,
  ¬ occurs_in word (lower text) → find_ci word text = None.
Proof.
  induction text as [|a text IH]; intros Hn; rewrite find_ci_unfold.
  - destruct (startswith word (lower "")) eqn:Hs; [|done].
    exfalso. apply Hn. apply startswith_spec in Hs as [rest ->].
    by exists "", rest.
  - destruct (startswith word (lower (String a text))) eqn:Hs.
    + exfalso. apply Hn. apply startswith_spec in Hs as [rest ->].
      by exists "", rest.
    + apply IH. intros (pre & post & E). apply Hn.
      exists (String (ascii_lower a) pre), post.
      unfold lower in *. simpl. by rewrite E.
Qed.

(** *** [_extract_sql] *)

Lemma strip_kept (x : string) c :
  is_space c = false →
  ∃ y, strip (x +:+ String c "") = y +:+ String c "" ∧ len y ≤ len x.
Proof.
  intros Hc. unfold strip. rewrite lstrip_by_append.
  destruct (sforall is_space x).
  - exists "". simpl. rewrite Hc. split; [|lia].
    by apply (rstrip_by_kept is_space "" c).
  - exists (lstrip_by is_space x). split; [by apply rstrip_by_kept|].
    apply len_lstrip_by.
Qed.

Lemma endswith_snoc (s : string) c :
  endswith (String c "") (s +:+ String c "") = true.
Proof.
  unfold endswith. rewrite rev_append.
  change (String.rev (String c "")) with (String c "").
  rewrite append_cons. simpl. by rewrite decide_True.
Qed.

(** X12: when the answer of the model contains "sql" (in any case, as in
    a fenced block opened by three backquotes and the word sql) followed
    by at least one character, the statement cut out of it has at most one
    character, fails validation, and [generate_sql] reports an error
    instead of a statement: the lazy group of the first pattern takes a
    single character. *)
Theorem X12_sql_marker_loses_the_statement answer pre c post :
  lower answer = pre +:+ "sql" +:+ String c post →
  len (_extract_sql answer) ≤ 1
  ∧ (_validate_sql (_extract_sql answer)).1 = false
  ∧ ∀ B user_query schema,
      generate_content B user_query = Ret answer →
      dict_get (generate_sql B user_query schema) "sql" = Some VNone
      ∧ dict_get (generate_sql B user_query schema) "error"
        = Some (VStr (_validate_sql (_extract_sql answer)).2).
Proof.
  intros E.
  assert (len (_extract_sql answer) ≤ 1) as Hlen.
  { destruct (find_ci_followed "sql" pre c post answer E)
      as (w & rest & Hf & Hrest & _).
    unfold _extract_sql, search_sql_marker. rewrite Hf.
    destruct rest as [|r rest]; [done|].
    destruct (lstrip_by is_space (String r rest)) as [|c' ?].
    - etrans; [apply len_strip|].
      clear. generalize (String r rest). intros s.
      induction s as [|a [|b s] IH]; simpl in *; lia.
    - etrans; [apply len_strip|]. done. }
  assert ((_validate_sql (_extract_sql answer)).1 = false) as Hbad
    by (apply validate_short; lia).
  split; [done|]. split; [done|].
  intros B user_query schema Hgen.
  by rewrite (generate_sql_rejected B user_query schema answer Hgen Hbad).
Qed.

(** X13: when the answer of the model contains no "sql" but contains
    "select" (in any case) followed by at least one character, the
    statement cut out of it has at most eight characters and ends with a
    semicolon: the select word, at most one more character, and the
    terminator. Whatever follows in the answer, the column list and the
    FROM clause included, is dropped. *)
Theorem X13_select_is_cut_short answer pre c post :
  ¬ occurs_in "sql" (lower answer) →
  lower answer = pre +:+ "select" +:+ String c post →
  len (_extract_sql answer) ≤ 8
  ∧ endswith ";" (_extract_sql answer) = true.
Proof.
  intros Hno E.
  destruct (find_ci_followed "select" pre c post answer E)
    as (w & rest & Hf & Hrest & Hw).
  change (len "select") with 6 in Hw.
  unfold _extract_sql, search_sql_marker, search_select.
  rewrite (find_ci_absent "sql" answer Hno), Hf.
  destruct rest as [|r rest]; [done|]. clear Hrest.
  destruct (startswith ";" rest).
  - destruct (strip_kept (w +:+ String r "") ";"%char) as (y & Ey & Hy); [done|].
    rewrite len_append in Hy. simpl in Hy.
    rewrite <- append_assoc, Ey.
    rewrite endswith_snoc. simpl. rewrite len_append. simpl. split; [lia|].
    apply endswith_snoc.
  - rewrite append_nil_r.
    pose proof (len_strip (w +:+ String r "")) as Hs.
    rewrite len_append in Hs. simpl in Hs.
    destruct (endswith ";" (strip (w +:+ String r ""))) eqn:He; simpl.
    + split; [lia|done].
    + rewrite len_append. simpl. split; [lia|apply endswith_snoc].
Qed.

(** *** [generate_sql] and the handler *)

(** the two outcomes of [generate_sql] *)
Lemma generate_sql_cases B user_query schema :
  (∃ msg,
     generate_sql B user_query schema
     = [("sql", VNone); ("error", VStr msg)]
     ∧ ∃ e, generate_content B user_query = Raise e ∧ msg = exn_str e)
  ∨ (∃ answer,
       generate_content B user_query = Ret answer
       ∧ (_validate_sql (_extract_sql answer)).1 = false
       ∧ generate_sql B user_query schema
         = [("sql", VNone);
            ("error", VStr (_validate_sql (_extract_sql answer)).2);
            ("explanation", VStr answer)])
  ∨ (∃ answer,
       generate_content B user_query = Ret answer
       ∧ (_validate_sql (_extract_sql answer)).1 = true
       ∧ generate_sql B user_query schema
         = [("sql", VStr (_optimize_sql (_extract_sql answer)));
            ("explanation", VStr answer);
            ("tables_used",
              VList (VStr <$> _extract_tables
                                (_optimize_sql (_extract_sql answer)) schema))]).
Proof.
  unfold generate_sql.
  destruct (generate_content B user_query) as [answer|e] eqn:Hgen; simpl.
  - right. destruct (_validate_sql (_extract_sql answer)) as [[] msg] eqn:Hv;
      simpl; [right|left]; exists answer; by rewrite ?Hv.
  - left. exists (exn_str e). split; [done|]. by exists e.
Qed.

(** X14: [generate_sql] never raises and returns one of two things: an
    error message with no statement (the call of the model raised, or the
    statement cut out of its answer failed validation), or a statement
    with no error. A returned statement is the optimised form of a
    statement that passed validation; it passes validation itself and
    mentions LIMIT. *)
Theorem X14_generate_sql_outcome B user_query schema :
  let r := generate_sql B user_query schema in
  (∃ msg, dict_get r "error" = Some (VStr msg)
          ∧ dict_get r "sql" = Some VNone)
  ∨ (∃ answer statement,
       generate_content B user_query = Ret answer
       ∧ (_validate_sql (_extract_sql answer)).1 = true
       ∧ statement = _optimize_sql (_extract_sql answer)
       ∧ dict_get r "sql" = Some (VStr statement)
       ∧ dict_get r "error" = None
       ∧ dict_get r "explanation" = Some (VStr answer)
       ∧ _validate_sql statement = (true, "")
       ∧ occurs_in "LIMIT" (upper statement)).
Proof.
  intros r. subst r.
  destruct (generate_sql_cases B user_query schema)
    as [(msg & -> & _) | [(answer & _ & _ & ->) | (answer & Hgen & Hv & ->)]].
  - left. by exists msg.
  - left. by eexists.
  - right. exists answer, (_optimize_sql (_extract_sql answer)).
    repeat split; try done.
    + pose proof (optimize_valid _ Hv) as Ho. unfold _validate_sql in *.
      destruct (decide (_optimize_sql (_extract_sql answer) = "")); [done|].
      destruct (first_dangerous (upper (_optimize_sql (_extract_sql answer))));
        [done|].
      by destruct (startswith "SELECT"
                     (strip (upper (_optimize_sql (_extract_sql answer))))).
    + apply optimize_has_limit.
Qed.

(** X15: the body of the SQL handler sends at most one statement to the
    database, and only the optimised form of a statement that passed
    validation, which is valid itself and mentions LIMIT. Its result
    is either an error alone, or the statement sent with the rows it
    returned and their number as [row_count]; nothing is sent when the
    model or the validation failed. *)
Theorem X15_handler_sends_only_valid_statements B schema query :
  let out := sql_handler_body B schema query in
  length out.2 ≤ 1
  ∧ (∀ statement, statement ∈ out.2 →
       ∃ answer,
         generate_content B query = Ret answer
         ∧ (_validate_sql (_extract_sql answer)).1 = true
         ∧ statement = _optimize_sql (_extract_sql answer)
         ∧ (_validate_sql statement).1 = true
         ∧ occurs_in "LIMIT" (upper statement))
  ∧ ((∃ error, out.1 = [("error", error)]
               ∧ (out.2 = [] ∨ ∃ statement e,
                    out.2 = [statement] ∧ execute B statement = Raise e
                    ∧ error = VStr ("SQL execution failed: " +:+ exn_str e)))
     ∨ (∃ statement data,
          out.2 = [statement] ∧ execute B statement = Ret data
          ∧ out.1 = [("sql", VStr statement); ("data", VList data);
                     ("row_count", VInt (Z.of_nat (length data)))])).
Proof.
  simpl. unfold sql_handler_body.
  destruct (generate_sql_cases B query schema)
    as [(msg & -> & _) | [(answer & _ & Hbad & ->) | (answer & Hgen & Hv & ->)]].
  - simpl. destruct (bool_decide (msg = "")); simpl.
    + split; [lia|]. split; [by intros ? ?%elem_of_nil|]. left. eauto.
    + split; [lia|]. split; [by intros ? ?%elem_of_nil|]. left. eauto.
  - pose proof (validate_message _ Hbad) as Ht.
    destruct (_validate_sql (_extract_sql answer)) as [ok msg].
    simpl in *. rewrite Ht. simpl.
    split; [lia|]. split; [by intros ? ?%elem_of_nil|]. left. eauto.
  - simpl.
    destruct (execute B (_optimize_sql (_extract_sql answer))) as [data|e] eqn:Hx;
      simpl; (split; [lia|]); (split; [|eauto 10]).
    + intros statement ->%list_elem_of_singleton. exists answer.
      repeat split; try done; [by apply optimize_valid|apply optimize_has_limit].
    + intros statement ->%list_elem_of_singleton. exists answer.
      repeat split; try done; [by apply optimize_valid|apply optimize_has_limit].
Qed.

End generation.

(** ** The engine as it is wired *)

Section wired_engine.
Import cache document_processor query_engine.

Lemma cached_never_runs {E} prefix ttl (func : list value → res value * list E)
    ping c args :
  cached prefix ttl func ping c args =
  (Raise (Exn "AttributeError" "'SmartCache' object has no attribute 'cache_key'"),
   [], c).
Proof. unfold cached. by rewrite no_such_method. Qed.

(** X16: [process_query] of the engine as it is wired has one of two
    results, fixed by the classification of the query alone. A query
    classified as a document query gets the documents found by [search]
    with [top_k = 5], at most five, under [results] and [documents], their
    number under [count], and the single source "documents". Every other
    query gets the degraded result with the AttributeError of the cache
    as its message, and no statement reaches the database: the decorator
    raises before the handler runs. *)
Theorem X16_wired_engine H B schema doc_processor ping c
    start_time end_time user_query :
  let found := hit_value <$> search H doc_processor user_query 5 in
  (_handle_sql_query B schema ping c (VStr "self") user_query).1.2 = []
  ∧ length found ≤ 5
  ∧ process_query H B schema doc_processor ping c start_time end_time user_query
    = match _classify_query user_query with
      | document =>
          Ret [("query", VStr user_query);
               ("query_type", VStr "document");
               ("results", VList found);
               ("sources", VList [VStr "documents"]);
               ("performance",
                 VDict [("response_time",
                          VFloat (round3 (end_time - start_time)))]);
               ("cached", VBool false);
               ("documents", VList found);
               ("count", VInt (Z.of_nat (length found)))]
      | _ =>
          Ret [("query", VStr user_query);
               ("error",
                 VStr "'SmartCache' object has no attribute 'cache_key'");
               ("query_type", VStr "unknown")]
      end.
Proof.
  intros found. split; [|split].
  - unfold _handle_sql_query. by rewrite cached_never_runs.
  - unfold found. rewrite length_fmap, search_nonneg by lia.
    etrans; [apply hits_length|]. rewrite length_take. lia.
  - unfold process_query. rewrite process_query_with_outcome.
    destruct (_classify_query user_query); unfold route.
    + unfold _handle_sql_query. by rewrite cached_never_runs.
    + unfold found. simpl. by rewrite length_fmap.
    + unfold _handle_sql_query. by rewrite cached_never_runs.
Qed.

End wired_engine.

(** ** The analysis of a database *)

Section schema_analysis.
Import schema_discovery.
Context {Σ : Type} (S : Session Σ).

Lemma detect_outcome σ :
  ∃ db_type σ', _detect_database_type S σ = (Ret db_type, σ')
                ∧ db_type ∈ ["postgresql"; "mysql"; "sqlite"].
Proof.
  unfold _detect_database_type, io_try, io_bind, io_ret.
  destruct (scalar_str S "SELECT version()" σ) as [[version|e] σ1].
  - destruct (contains "PostgreSQL" version);
      [|destruct (contains "MySQL" version)];
      eexists _, _; (split; [done|set_solver]).
  - eexists _, _. split; [done|set_solver].
Qed.

Lemma get_table_names_outcome db_type σ :
  match (_get_table_names S db_type σ).1 with
  | Ret _ => True
  | Raise e => raised_by_a_listing S e
  end.
Proof.
  unfold _get_table_names.
  repeat case_decide;
    match goal with
    | |- context [first_column S ?q σ] =>
        destruct (first_column S q σ) as [[names|e] σ1] eqn:E; [done|];
        left; exists q, σ; by rewrite E
    end.
Qed.

Lemma analyze_table_outcome table db_type σ :
  match (_analyze_table S table db_type σ).1 with
  | Ret info => table_name info = table ∧ purpose_inferred info
  | Raise e => raised_by_a_listing S e
  end.
Proof.
  unfold _analyze_table, io_bind, io_try, io_ret.
  case_decide.
  - destruct (pragma_rows S _ σ) as [[rows|e] σ1] eqn:E.
    + by destruct (mapping_rows S _ σ1) as [[sample|e] σ2].
    + right. left. eexists _, σ. by rewrite E.
  - destruct (column_rows S table σ) as [[rows|e] σ1] eqn:E.
    + by destruct (mapping_rows S _ σ1) as [[sample|e] σ2].
    + right. right. eexists _, σ. by rewrite E.
Qed.

Lemma analyze_tables_outcome db_type tables : ∀ σ,
  match (io_for (λ table, _analyze_table S table db_type) tables σ).1 with
  | Ret infos => table_name <$> infos = tables ∧ Forall purpose_inferred infos
  | Raise e => raised_by_a_listing S e
  end.
Proof.
  induction tables as [|table tables IH]; intros σ; [done|].
  cbn [io_for]. unfold io_bind at 1.
  pose proof (analyze_table_outcome table db_type σ) as Ht.
  destruct (_analyze_table S table db_type σ) as [[info|e] σ1]; [|done].
  unfold io_bind at 1. specialize (IH σ1).
  destruct (io_for _ tables σ1) as [[infos|e] σ2]; [|done].
  cbn [fst] in *. destruct Ht as [<- Hp], IH as [<- Hps].
  unfold io_ret. cbn [fst]. by split; [|constructor].
Qed.

Lemma discover_relationships_outcome db_type σ :
  ∃ relationships σ',
    _discover_relationships S db_type σ = (Ret relationships, σ')
    ∧ (db_type ≠ "postgresql" → relationships = []).
Proof.
  unfold _discover_relationships, io_try, io_ret.
  repeat case_decide; try by eexists _, _.
  destruct (key_rows S σ) as [[rows|e] σ1]; by eexists _, _.
Qed.

(** the whole analysis, by cases on its outcome *)
Lemma analyze_database_outcome σ :
  match (analyze_database S σ).1 with
  | Ret info =>
      let s := schema_summary info in
      database_type s ∈ ["postgresql"; "mysql"; "sqlite"]
      ∧ total_tables s = length (schema_tables info)
      ∧ total_columns s
        = sum_list (length ∘ table_columns <$> schema_tables info)
      ∧ total_relationships s = length (schema_relationships info)
      ∧ (database_type s ≠ "postgresql" → schema_relationships info = [])
      ∧ Forall purpose_inferred (schema_tables info)
      ∧ ∃ σ1, (_get_table_names S (database_type s) σ1).1
              = Ret (table_name <$> schema_tables info)
  | Raise e => raised_by_a_listing S e
  end.
Proof.
  unfold analyze_database. unfold io_bind at 1.
  destruct (detect_outcome σ) as (db_type & σ1 & -> & Hdb).
  unfold io_bind at 1.
  pose proof (get_table_names_outcome db_type σ1) as Hn.
  destruct (_get_table_names S db_type σ1) as [[names|e] σ2] eqn:En; [|done].
  unfold io_bind at 1.
  pose proof (analyze_tables_outcome db_type names σ2) as Ht.
  destruct (io_for _ names σ2) as [[infos|e] σ3]; [|done].
  unfold io_bind at 1.
  destruct (discover_relationships_outcome db_type σ3)
    as (relationships & σ4 & -> & Hr).
  cbn [fst] in Ht. destruct Ht as [<- Hp]. cbn [fst io_ret].
  cbn [schema_summary database_type total_tables total_columns
       total_relationships schema_tables schema_relationships].
  repeat split; try done.
  - by rewrite length_fmap.
  - exists σ1. by rewrite En.
Qed.

(** X17: a schema returned by [analyze_database] is consistent with its
    summary: the database type is one of postgresql, mysql and sqlite, the
    three totals count the tables, their columns and the relationships of
    the schema itself, relationships are reported for PostgreSQL only, every
    table carries the purpose inferred from its name, and the tables are
    those of the listing statement for that database type, in its order. *)
Theorem X17_schema_matches_its_summary σ σ' info :
  analyze_database S σ = (Ret info, σ') →
  let s := schema_summary info in
  database_type s ∈ ["postgresql"; "mysql"; "sqlite"]
  ∧ total_tables s = length (schema_tables info)
  ∧ total_columns s = sum_list (length ∘ table_columns <$> schema_tables info)
  ∧ total_relationships s = length (schema_relationships info)
  ∧ (database_type s ≠ "postgresql" → schema_relationships info = [])
  ∧ Forall (λ t, table_purpose t
                 = _infer_table_purpose (table_name t) (table_columns t))
      (schema_tables info)
  ∧ ∃ σ1, (_get_table_names S (database_type s) σ1).1
          = Ret (table_name <$> schema_tables info).
Proof.
  intros E. pose proof (analyze_database_outcome σ) as Ho.
  by rewrite E in Ho.
Qed.

(** X18: an exception raised by [analyze_database] was raised by the
    statement that lists the tables or by one that lists the columns of
    a table. What the version probe, the sample rows and the foreign-key
    statement raise is caught and never reaches the caller. *)
Theorem X18_only_listings_fail σ σ' e :
  analyze_database S σ = (Raise e, σ') →
  (∃ statement σ1, (first_column S statement σ1).1 = Raise e)
  ∨ (∃ statement σ1, (pragma_rows S statement σ1).1 = Raise e)
  ∨ (∃ table σ1, (column_rows S table σ1).1 = Raise e).
Proof.
  intros E. pose proof (analyze_database_outcome σ) as Ho.
  by rewrite E in Ho.
Qed.

(** X19: when the statements listing the tables and the columns never
    raise, [analyze_database] returns a schema from every state of the
    connexion, whatever the version probe, the sample statements and the
    foreign-key statement do. *)
Theorem X19_analysis_returns :
  (∀ statement σ, ∃ names, (first_column S statement σ).1 = Ret names) →
  (∀ statement σ, ∃ rows, (pragma_rows S statement σ).1 = Ret rows) →
  (∀ table σ, ∃ rows, (column_rows S table σ).1 = Ret rows) →
  ∀ σ, ∃ info, (analyze_database S σ).1 = Ret info.
Proof.
  intros Hn Hp Hc σ. pose proof (analyze_database_outcome σ) as Ho.
  destruct (analyze_database S σ).1 as [info|e]; [by exists info|].
  destruct Ho as [(q & σ1 & E) | [(q & σ1 & E) | (t & σ1 & E)]].
  - destruct (Hn q σ1) as [? E']. congruence.
  - destruct (Hp q σ1) as [? E']. congruence.
  - destruct (Hc t σ1) as [? E']. congruence.
Qed.

End schema_analysis.

(** ** The routes *)

Section uploads.
Import document_processor routes routes_documents.

Lemma last_segment_go_suffix sep t :
  sforall (λ c, bool_decide (c ≠ sep)) t = true →
  ∀ s cur, ∃ u, last_segment_go sep cur (s +:+ t) = u +:+ t.
Proof.
  intros Ht. induction s as [|c s IH]; intros cur.
  - rewrite append_nil_l, last_segment_go_plain by done. by eexists.
  - rewrite append_cons. simpl. case_decide; apply IH.
Qed.

(** a string has no [sep], or a last one *)
Lemma split_at_last sep (s : string) :
  sforall (λ c, bool_decide (c ≠ sep)) s = true
  ∨ ∃ stem ext, s = stem +:+ String sep ext
                ∧ sforall (λ c, bool_decide (c ≠ sep)) ext = true.
Proof.
  induction s as [|c s [IH|(stem & ext & -> & Hext)]].
  - by left.
  - destruct (decide (c = sep)) as [->|Hc].
    + right. by exists "", s.
    + left. simpl. rewrite IH. by rewrite bool_decide_eq_true_2.
  - right. by exists (String c stem), ext.
Qed.

Lemma no_sep_no_occurrence sep (s : string) :
  sforall (λ c, bool_decide (c ≠ sep)) s = true →
  ¬ occurs_in (String sep "") s.
Proof.
  intros Hs (pre & post & ->).
  rewrite !sforall_append in Hs. simpl in Hs.
  rewrite bool_decide_eq_false_2 in Hs by (by intros []).
  by rewrite andb_false_r in Hs.
Qed.

Lemma lower_append (s t : string) : lower (s +:+ t) = lower s +:+ lower t.
Proof. apply smap_append. Qed.

Lemma saved_path_shape s job_id name :
  ∃ p, saved_path s job_id name = p +:+ String "_" name.
Proof.
  unfold saved_path, path_join.
  change (job_id +:+ "_" +:+ name) with (job_id +:+ String "_" name).
  destruct (startswith "/" _); [by eexists|].
  destruct (_ || _).
  - exists (UPLOAD_DIR s +:+ job_id). by rewrite append_assoc.
  - exists (UPLOAD_DIR s +:+ "/" +:+ job_id).
    by rewrite <- !append_assoc.
Qed.

Lemma underscore_not_supported (u e : string) :
  e ∈ ["pdf"; "docx"; "txt"] →
  u +:+ String "_" e ∉ ["pdf"; "docx"; "txt"].
Proof.
  intros He Hu. apply list_elem_of_In in He, Hu. simpl in He.
  destruct He as [<-|[<-|[<-|[]]]];
    destruct u as [|? [|? [|? [|? [|? ?]]]]]; simpl in Hu;
    destruct Hu as [Hu|[Hu|[Hu|[]]]]; discriminate Hu.
Qed.

(** X20: a file name accepted by the extension check of [upload_documents]
    is saved under a path that [_extract_text] supports exactly when the
    name contains a dot. An upload named txt, pdf or docx, in any case,
    passes the check, and the document processor then counts it as
    failed: the extension it reads from the saved path ends with the
    underscore and the name. *)
Theorem X20_accepted_name_needs_a_dot s job_id name :
  allowed (lower (last_segment "."%char name)) = true →
  unsupported (saved_path s job_id name) ↔ ¬ occurs_in "." name.
Proof.
  intros Hok. apply bool_decide_eq_true in Hok.
  destruct (saved_path_shape s job_id name) as [p Ep].
  destruct (split_at_last "."%char name) as [Hname|(stem & ext & -> & Hext)].
  - rewrite last_segment_whole in Hok by done.
    split; [intros _; by apply no_sep_no_occurrence|intros _].
    unfold unsupported, last_segment. rewrite Ep.
    destruct (last_segment_go_suffix "."%char (String "_" name)) with p ""
      as [u ->]; [by simpl; rewrite Hname|].
    rewrite lower_append.
    change (lower (String "_" name)) with (String "_" (lower name)).
    by apply underscore_not_supported.
  - rewrite last_segment_after in Hok by done.
    split.
    + intros Hu. exfalso. apply Hu. unfold unsupported. rewrite Ep.
      change (p +:+ String "_" (stem +:+ String "." ext))
        with (p +:+ (String "_" stem +:+ String "." ext)).
      by rewrite <- append_assoc, last_segment_after.
    + intros Hn. exfalso. apply Hn. by exists stem, ext.
Qed.

Lemma save_files_outcome s open_wb job_id files : ∀ file_paths w,
  ∃ n, n ≤ length files
       ∧ Forall (acceptable s) (take n files)
       ∧ (save_files s open_wb job_id files file_paths w).2
         = w ++ (saved s job_id <$> take n files)
       ∧ match (save_files s open_wb job_id files file_paths w).1 with
         | Responds paths =>
             n = length files
             ∧ paths = file_paths ++ ((fst ∘ saved s job_id) <$> files)
         | Fails r =>
             ∃ file, files !! n = Some file
               ∧ let ext := lower (last_segment "."%char (filename file)) in
                 (allowed ext = false
                  ∧ r = HTTPException 400 ("File type not allowed: " +:+ ext))
                 ∨ (allowed ext = true
                    ∧ (MAX_UPLOAD_SIZE s < size file)%Z
                    ∧ r = HTTPException 400
                            ("File too large: " +:+ filename file))
                 ∨ (acceptable s file
                    ∧ ∃ e, open_wb (saved_path s job_id (filename file))
                           = Raise e
                           ∧ r = Unhandled e)
         end.
Proof.
  induction files as [|file files IH]; intros file_paths w.
  { exists 0. simpl. by rewrite !app_nil_r. }
  cbn [save_files].
  destruct (allowed (lower (last_segment "."%char (filename file)))) eqn:Hext;
    cbn [negb].
  2:{ exists 0. cbn [take fmap list_fmap snd fst]. rewrite app_nil_r.
      split; [simpl; lia|]. split; [done|]. split; [done|].
      exists file. split; [done|]. left. by rewrite Hext. }
  destruct (Z.ltb_spec (MAX_UPLOAD_SIZE s) (size file)) as [Hbig|Hsize].
  { exists 0. cbn [take fmap list_fmap snd fst]. rewrite app_nil_r.
    split; [simpl; lia|]. split; [done|]. split; [done|].
    exists file. split; [done|]. right. left. by rewrite Hext. }
  assert (acceptable s file) as Hacc by done.
  destruct (open_wb (saved_path s job_id (filename file))) as [[]|e] eqn:Hopen.
  2:{ exists 0. cbn [take fmap list_fmap snd fst]. rewrite app_nil_r.
      split; [simpl; lia|]. split; [done|]. split; [done|].
      exists file. split; [done|]. right. right. split; [done|]. by exists e. }
  destruct (IH (file_paths ++ [saved_path s job_id (filename file)])
              (w ++ [(saved_path s job_id (filename file), content file)]))
    as (n & Hn & Hall & Hw & Hout).
  exists (S n). split; [simpl; lia|]. split; [by constructor|].
  split.
  { rewrite Hw. cbn [take fmap list_fmap]. by rewrite <- app_assoc. }
  destruct (save_files _ _ _ files _ _).1 as [paths|r].
  - destruct Hout as [-> ->]. split; [done|].
    cbn [fmap list_fmap]. by rewrite <- app_assoc.
  - done.
Qed.

(** X21: what an upload leaves behind. The files are checked and written
    one after the other, so the files written are those of a prefix of
    the upload. When the route responds, every file passed both checks
    and was written, the job is registered as processing with the number
    of files as its total, and one task is scheduled with the saved paths
    in the order of the upload. When it fails, the files before the
    first offending one stay written, no job is registered and no task is
    scheduled; the status is 400 for a refused extension or size and 500
    when the file could not be opened. *)
Theorem X21_upload_outcome s open_wb job_id files st :
  let out := (upload_documents s open_wb job_id files st).1 in
  let st' := (upload_documents s open_wb job_id files st).2 in
  doc_processor st' = doc_processor st
  ∧ ∃ n, n ≤ length files
      ∧ Forall (acceptable s) (take n files)
      ∧ written st' = written st ++ (saved s job_id <$> take n files)
      ∧ match out with
        | Responds r =>
            n = length files
            ∧ r = {| ur_job_id := job_id;
                     ur_status := "processing";
                     ur_message := "Processing " +:+ pretty (length files)
                                   +:+ " documents" |}
            ∧ job_status st'
              = <[job_id := [("status", VStr "processing");
                             ("progress", VFloat 0);
                             ("processed", VInt 0);
                             ("total", VInt (Z.of_nat (length files)))]]>
                  (job_status st)
            ∧ background_tasks st'
              = background_tasks st
                ++ [(job_id, (fst ∘ saved s job_id) <$> files)]
        | Fails r =>
            job_status st' = job_status st
            ∧ background_tasks st' = background_tasks st
            ∧ ∃ file, files !! n = Some file
                ∧ let ext := lower (last_segment "."%char (filename file)) in
                  (allowed ext = false
                   ∧ r = HTTPException 400
                           ("File type not allowed: " +:+ ext))
                  ∨ (allowed ext = true
                     ∧ (MAX_UPLOAD_SIZE s < size file)%Z
                     ∧ r = HTTPException 400
                             ("File too large: " +:+ filename file))
                  ∨ (acceptable s file
                     ∧ ∃ e, open_wb (saved_path s job_id (filename file))
                            = Raise e
                            ∧ r = HTTPException 500 (exn_str e))
        end.
Proof.
  intros out st'. subst out st'. unfold upload_documents.
  destruct (save_files_outcome s open_wb job_id files [] (written st))
    as (n & Hn & Hall & Hw & Hout).
  destruct (save_files s open_wb job_id files [] (written st)) as [[paths|r] w].
  - cbn [fst snd] in *. split; [done|]. exists n.
    destruct Hout as [-> ->]. by repeat split.
  - cbn [fst snd] in *. split; [done|]. exists n.
    do 3 (split; [done|]).
    destruct Hout as (file & Hfile & [[Hext ->]|[(Hext & Hbig & ->)|(Hacc & e & Hopen & ->)]]);
      cbn [reraise_as]; (split; [done|]); (split; [done|]);
      exists file; (split; [done|]); eauto 10.
Qed.

Lemma filter_extracts_split X (l : list string) :
  length (filter (λ f, extracts X f = true) l)
  + length (filter (λ f, extracts X f = false) l) = length l.
Proof.
  induction l as [|f l IH]; [done|]. rewrite !filter_cons.
  destruct (extracts X f); repeat case_decide; try done; simpl; lia.
Qed.

Lemma process_documents_counts H X self file_paths :
  let result := (process_documents H X self file_paths).2 in
  processed result + failed result = length file_paths
  ∧ processed result
    = length (filter (λ f, extracts X f = true) file_paths).
Proof.
  rewrite process_documents_unfold. cbn [snd processed failed].
  destruct (process_files_counts H X file_paths (self, empty_report))
    as (Hp & Hf & _). cbn [snd empty_report processed failed] in Hp, Hf.
  rewrite Hp, Hf. split; [|done].
  pose proof (filter_extracts_split X file_paths). lia.
Qed.

(** X22: the life of a job. After an upload that was accepted,
    [get_status] reports the job as processing with the number of uploaded
    files as its total. Once its task has run, whatever the extractors
    did, [get_status] reports it as completed with the same total, with
    the number of saved files whose text could be extracted as
    [processed], the report of [process_documents] as details and no
    error; the status of every other job is unchanged. A job that was
    never registered has status 404. *)
Theorem X22_job_completes H X s open_wb job_id files st r :
  (upload_documents s open_wb job_id files st).1 = Responds r →
  let st1 := (upload_documents s open_wb job_id files st).2 in
  let file_paths := (fst ∘ saved s job_id) <$> files in
  let st2 := process_documents_task H X job_id file_paths st1 in
  let result := (process_documents H X (doc_processor st) file_paths).2 in
  last (background_tasks st1) = Some (job_id, file_paths)
  ∧ get_status job_id st1
    = Responds {| sr_job_id := job_id;
                  sr_status := VStr "processing";
                  sr_progress := VFloat 0;
                  sr_processed := VInt 0;
                  sr_total := VInt (Z.of_nat (length files));
                  sr_details := VNone;
                  sr_error := VNone |}
  ∧ get_status job_id st2
    = Responds {| sr_job_id := job_id;
                  sr_status := VStr "completed";
                  sr_progress := VFloat 1;
                  sr_processed := VInt (Z.of_nat (processed result));
                  sr_total := VInt (Z.of_nat (length files));
                  sr_details := VDict (report_value result);
                  sr_error := VNone |}
  ∧ processed result
    = length (filter (λ f, extracts X f = true) file_paths)
  ∧ processed result ≤ length files
  ∧ (∀ other, other ≠ job_id → get_status other st2 = get_status other st1)
  ∧ (∀ other, job_status st2 !! other = None →
       get_status other st2 = Fails (HTTPException 404 "Job not found")).
Proof.
  intros Hr st1 file_paths st2 result.
  destruct (save_files_outcome s open_wb job_id files [] (written st))
    as (n & _ & _ & _ & Hout).
  assert (st1 =
    {| doc_processor := doc_processor st;
       job_status :=
         <[job_id := [("status", VStr "processing");
                      ("progress", VFloat 0);
                      ("processed", VInt 0);
                      ("total", VInt (Z.of_nat (length files)))]]>
           (job_status st);
       written := (save_files s open_wb job_id files [] (written st)).2;
       background_tasks := background_tasks st ++ [(job_id, file_paths)] |})
    as E1.
  { subst st1. unfold upload_documents in *.
    destruct (save_files s open_wb job_id files [] (written st))
      as [[paths|r'] w]; cbn [fst snd] in *.
    - by destruct Hout as [_ ->].
    - by destruct r'. }
  clearbody st1. subst st1.
  pose proof (process_documents_counts H X (doc_processor st) file_paths)
    as [Hsum Hproc].
  fold result in Hsum, Hproc.
  assert (length file_paths = length files) as Hlen
    by (unfold file_paths; apply length_fmap).
  assert (job_status st2 =
    <[job_id := [("status", VStr "completed");
                 ("progress", VFloat 1);
                 ("processed", VInt (Z.of_nat (processed result)));
                 ("total", VInt (Z.of_nat (length files)));
                 ("details", VDict (report_value result))]]>
      (<[job_id := [("status", VStr "processing");
                    ("progress", VFloat 0);
                    ("processed", VInt 0);
                    ("total", VInt (Z.of_nat (length files)))]]>
         (job_status st))) as E2.
  { subst st2 result. unfold process_documents_task. cbn [doc_processor].
    destruct (process_documents H X (doc_processor st) file_paths)
      as [self' res]. cbn [job_status snd] in *.
    replace (Z.of_nat (processed res) + Z.of_nat (failed res))%Z
      with (Z.of_nat (length files)) by lia.
    done. }
  split; [cbn [background_tasks]; apply last_snoc|].
  split; [unfold get_status; cbn [job_status]; by rewrite lookup_insert_eq|].
  split; [unfold get_status; rewrite E2; by rewrite lookup_insert_eq|].
  split; [done|]. split; [lia|]. split.
  - intros other Hother. unfold get_status. rewrite E2.
    by rewrite (lookup_insert_ne _ job_id other) by done.
  - intros other Hnone. unfold get_status. by rewrite Hnone.
Qed.

End uploads.

Section cache_users.
Import cache schema_discovery routes.

(** X23: the query route never answers a query. Its first statement
    calls [cache.get], which the cache class does not define; the
    AttributeError is turned into status 500 whatever the engine, the
    clock and the response model would do. The cache is left as it was,
    nothing is appended to the query history, and [get_history] returns
    what it returned before the request. *)
Theorem X23_query_route_always_fails engine now QueryResponse ping c
    query_history request_query :
  routes_query.process_query engine now QueryResponse ping c query_history
    request_query
  = (Fails (HTTPException 500 "'SmartCache' object has no attribute 'get'"),
     query_history, c)
  ∧ routes_query.get_history
      (routes_query.process_query engine now QueryResponse ping c
         query_history request_query).1.2
    = routes_query.get_history query_history.
Proof.
  unfold routes_query.process_query. by rewrite no_such_method.
Qed.

(** X24: [connect_database] never reports success. It answers with
    status 400 in every case: with the message of the connexion test or of
    the schema analysis when one of them raises, and otherwise, after the
    whole database was analysed, with the AttributeError of [cache.set].
    The cache is left as it was, and [get_schema] raises the
    AttributeError of [cache.get] instead of answering 404 or returning a
    schema. *)
Theorem X24_connect_never_succeeds {Σ} (S : Session Σ) ping c
    test_connection σ :
  (routes_database.connect_database S ping c test_connection σ).1.1
  = Fails (HTTPException 400
      match (if test_connection then exec S "SELECT 1" σ else (Ret (), σ)) with
      | (Raise e, _) => exn_str e
      | (Ret _, σ1) =>
          match (analyze_database S σ1).1 with
          | Raise e => exn_str e
          | Ret _ => "'SmartCache' object has no attribute 'set'"
          end
      end)
  ∧ (routes_database.connect_database S ping c test_connection σ).2 = c
  ∧ routes_database.get_schema ping c
    = (Fails (Unhandled
                (Exn "AttributeError"
                   "'SmartCache' object has no attribute 'get'")), c).
Proof.
  unfold routes_database.connect_database, routes_database.get_schema.
  rewrite no_such_method by done.
  destruct (if test_connection then exec S "SELECT 1" σ else (Ret (), σ))
    as [[[]|e] σ1]; [|done].
  destruct (analyze_database S σ1) as [[schema|e] σ2]; [|done].
  by rewrite no_such_method.
Qed.

End cache_users.

(** ** The tables a statement uses *)

Section tables_used.
Import text_to_sql.

Lemma occurs_in_trans (a b c : string) :
  occurs_in a b → occurs_in b c → occurs_in a c.
Proof.
  intros (p & q & ->) (p' & q' & ->).
  exists (p' +:+ p), (q +:+ q'). by rewrite !append_assoc.
Qed.

(** X25: the tables [_extract_tables] reports are the tables of the
    schema whose upper-cased name occurs somewhere in the upper-cased
    statement, in the order of the schema. The test is on substrings: a
    table whose name occurs inside the name of a reported table is
    reported as well, and since an optimised statement mentions LIMIT, a
    table whose name occurs in that word is reported for every statement
    [_optimize_sql] returns. *)
Theorem X25_tables_by_substring sql schema :
  _extract_tables sql schema `sublist_of` schema
  ∧ (∀ t, t ∈ _extract_tables sql schema
          ↔ t ∈ schema ∧ occurs_in (upper t) (upper sql))
  ∧ (∀ a b, a ∈ schema → b ∈ _extract_tables sql schema →
            occurs_in (upper a) (upper b) →
            a ∈ _extract_tables sql schema)
  ∧ (∀ t, t ∈ schema → occurs_in (upper t) "LIMIT" →
          t ∈ _extract_tables (_optimize_sql sql) schema).
Proof.
  assert (∀ statement t, t ∈ _extract_tables statement schema
            ↔ t ∈ schema ∧ occurs_in (upper t) (upper statement)) as Hin.
  { intros statement t. unfold _extract_tables.
    rewrite list_elem_of_filter, contains_spec. tauto. }
  split; [apply sublist_filter|]. split; [apply Hin|]. split.
  - intros a b Ha [_ Hb]%Hin Hab. apply Hin. split; [done|].
    by apply occurs_in_trans with (upper b).
  - intros t Ht Hl. apply Hin. split; [done|].
    apply occurs_in_trans with "LIMIT"; [done|apply optimize_has_limit].
Qed.

End tables_used.

(** ** How long a generated statement can be *)

Section short_statements.
Import text_to_sql query_engine.

Lemma stake_sdrop n : ∀ s, stake n s +:+ sdrop n s = s.
Proof.
  induction n as [|n IH]; intros [|c s]; try done.
  cbn [stake sdrop]. by rewrite append_cons, IH.
Qed.

(** [find_ci] finds the first occurrence *)
Lemma find_ci_first word : ∀ s w rest,
  find_ci word s = Some (w, rest) →
  len w ≤ len word
  ∧ ∃ pre, s = pre +:+ w +:+ rest
           ∧ ∀ pre' post', lower s = pre' +:+ word +:+ post' →
                           len pre ≤ len pre'.
Proof.
  induction s as [|a s IH]; intros w rest; rewrite find_ci_unfold.
  - destruct (startswith word (lower "")); [|done].
    intros [= <- <-]. split; [apply len_stake|].
    exists "". split; [by rewrite append_nil_l, stake_sdrop|]. simpl. lia.
  - destruct (startswith word (lower (String a s))) eqn:Hs.
    + intros [= <- <-]. split; [apply len_stake|].
      exists "". split; [by rewrite append_nil_l, stake_sdrop|]. simpl. lia.
    + intros (Hw & pre & -> & Hfirst)%IH. split; [done|].
      exists (String a pre). split; [done|].
      intros [|p pre'] post' E.
      * rewrite append_nil_l in E.
        assert (startswith word (lower (String a (pre +:+ w +:+ rest))) = true)
          as Hs'; [|congruence].
        apply startswith_spec. by exists post'.
      * rewrite append_cons in E. injection E as _ E.
        apply Hfirst in E. simpl. lia.
Qed.

Lemma find_ci_None_inv word : ∀ s,
  find_ci word s = None → ¬ occurs_in word (lower s).
Proof.
  induction s as [|a s IH]; rewrite find_ci_unfold.
  - destruct (startswith word (lower "")) eqn:Hs; [done|]. intros _.
    intros ([|p pre] & post & E); [|discriminate E].
    rewrite append_nil_l in E.
    assert (startswith word (lower "") = true) as Hs'; [|congruence].
    apply startswith_spec. by exists post.
  - destruct (startswith word (lower (String a s))) eqn:Hs; [done|].
    intros Hn%IH ([|p pre] & post & E).
    + rewrite append_nil_l in E.
      assert (startswith word (lower (String a s)) = true) as Hs'; [|congruence].
      apply startswith_spec. by exists post.
    + rewrite append_cons in E. injection E as _ E.
      apply Hn. by exists pre, post.
Qed.

Lemma lstrip_by_head P (s : string) :
  lstrip_by P s = "" ∨ ∃ c s', lstrip_by P s = String c s' ∧ P c = false.
Proof.
  induction s as [|c s IH]; [by left|]. simpl.
  destruct (P c) eqn:Hc; [done|]. right. by exists c, s.
Qed.

Lemma rstrip_by_head P c (s : string) :
  P c = false → ∃ s', rstrip_by P (String c s) = String c s'.
Proof.
  intros Hc. unfold rstrip_by. rewrite rev_cons, lstrip_by_append.
  destruct (sforall P (String.rev s)).
  - exists "". simpl. by rewrite Hc.
  - eexists. by rewrite rev_append.
Qed.

Lemma is_space_upper c : is_space (ascii_upper c) = is_space c.
Proof. by destruct c as [[] [] [] [] [] [] [] []]. Qed.

Lemma len_rstrip_by P (s : string) : len (rstrip_by P s) ≤ len s.
Proof.
  destruct (rstrip_by_split P s) as (t & E & _).
  rewrite E at 2. rewrite len_append. lia.
Qed.

Lemma validated_begins sql :
  (_validate_sql sql).1 = true → begins_with "SELECT" (strip (upper sql)).
Proof.
  intros Hv. apply startswith_spec.
  destruct (startswith "SELECT" (strip (upper sql))) eqn:Hs; [done|].
  assert ((_validate_sql sql).1 = false) as Hf; [|congruence].
  apply validate_rejects. right. right. intros Hb%startswith_spec. congruence.
Qed.

(** a validated statement that is a stripped text begins with "select",
    in any case *)
Lemma validated_strip text :
  (_validate_sql (strip text)).1 = true →
  ∃ a post, text = a +:+ lstrip_by is_space text
            ∧ lower text = lower a +:+ "select" +:+ post.
Proof.
  intros Hv. pose proof (validated_begins _ Hv) as Hb.
  destruct (lstrip_by_split is_space text) as (a & Ea & _).
  destruct (rstrip_by_split is_space (lstrip_by is_space text))
    as (b & Eb & _). fold (strip text) in Eb.
  exists a.
  assert (begins_with "select" (lower (strip text))) as [r Er].
  { destruct (lstrip_by_head is_space text) as [E0|(c & s' & Ec & Hc)].
    - unfold strip in Hv. rewrite E0 in Hv. done.
    - destruct (rstrip_by_head is_space c s' Hc) as [e' Ee].
      assert (strip text = String c e') as Es by (unfold strip; by rewrite Ec).
      rewrite Es in Hb |- *.
      destruct (rstrip_by_split is_space
                  (lstrip_by is_space (upper (String c e')))) as (t & Et & _).
      fold (strip (upper (String c e'))) in Et.
      assert (lstrip_by is_space (upper (String c e')) = upper (String c e'))
        as El.
      { unfold upper. simpl. by rewrite is_space_upper, Hc. }
      rewrite El in Et. destruct Hb as [r Hr]. rewrite Hr in Et.
      exists (lower (r +:+ t)).
      rewrite <- lower_upper, Et, append_assoc. by rewrite lower_append. }
  exists (r +:+ lower b). split; [done|].
  rewrite Ea at 1. rewrite lower_append. f_equal.
  rewrite Eb, lower_append, Er. by rewrite append_assoc.
Qed.

Lemma len_slast (s : string) : len (slast s) ≤ 1.
Proof.
  unfold len. induction s as [|a [|b s] IH]; simpl in *; lia.
Qed.

Lemma marker_group_short text group :
  search_sql_marker text = Some group → len group ≤ 1.
Proof.
  unfold search_sql_marker.
  destruct (find_ci "sql" text) as [[w [|r rest]]|]; try done.
  destruct (lstrip_by is_space (String r rest)) as [|c ?]; intros [= <-].
  - exact (len_slast (String r rest)).
  - done.
Qed.

Lemma select_group_short (w : string) r rest :
  len w ≤ 6 →
  let group := w +:+ String r "" +:+ (if startswith ";" rest then ";" else "") in
  len (if negb (endswith ";" (strip group)) then strip group +:+ ";"
       else strip group) ≤ 8.
Proof.
  intros Hw group. subst group. destruct (startswith ";" rest).
  - destruct (strip_kept (w +:+ String r "") ";"%char) as (y & Ey & Hy); [done|].
    rewrite len_append in Hy. simpl in Hy.
    rewrite <- append_assoc, Ey, endswith_snoc. simpl.
    rewrite len_append. simpl. lia.
  - rewrite append_nil_r.
    pose proof (len_strip (w +:+ String r "")) as Hs.
    rewrite len_append in Hs. simpl in Hs.
    destruct (endswith ";" (strip (w +:+ String r ""))); simpl; [lia|].
    rewrite len_append. simpl. lia.
Qed.

(** a statement that passes validation was cut to eight characters at
    most *)
Lemma extract_sql_short answer :
  (_validate_sql (_extract_sql answer)).1 = true →
  len (_extract_sql answer) ≤ 8.
Proof.
  unfold _extract_sql.
  destruct (search_sql_marker answer) as [group|] eqn:Em.
  { intros Hv. apply marker_group_short in Em.
    pose proof (len_strip group) as Hs.
    rewrite validate_short in Hv by lia. done. }
  unfold search_select.
  destruct (find_ci "select" answer) as [[w rest]|] eqn:Ef.
  - apply find_ci_first in Ef as (Hw & pre & E & Hfirst).
    change (len "select") with 6 in Hw.
    destruct rest as [|r rest]; [|intros _; by apply select_group_short].
    intros (a & post & Ea & El)%validated_strip.
    apply Hfirst in El. unfold lower in El. rewrite len_smap in El.
    pose proof (len_rstrip_by is_space (lstrip_by is_space answer)) as Hr.
    fold (strip answer) in Hr.
    assert (len answer = len a + len (lstrip_by is_space answer)) as Hl
      by (rewrite Ea at 1; apply len_append).
    assert (len answer = len pre + len w) as Hp.
    { rewrite E at 1. rewrite !len_append. unfold len. simpl. lia. }
    unfold len in *. lia.
  - intros (a & post & _ & El)%validated_strip.
    apply find_ci_None_inv in Ef. destruct Ef. by exists (lower a), post.
Qed.

Lemma optimize_adds_eleven sql : len (_optimize_sql sql) ≤ len sql + 11.
Proof.
  unfold _optimize_sql. destruct (negb _); [|lia].
  rewrite len_append. pose proof (len_rstrip_by (λ c, bool_decide (c = ";"%char)) sql).
  unfold rstrip_semicolon. simpl. lia.
Qed.

Lemma sent_statement B schema query statement :
  statement ∈ (sql_handler_body B schema query).2 →
  ∃ answer, generate_content B query = Ret answer
            ∧ (_validate_sql (_extract_sql answer)).1 = true
            ∧ statement = _optimize_sql (_extract_sql answer)
            ∧ dict_get (generate_sql B query schema) "sql"
              = Some (VStr statement).
Proof.
  unfold sql_handler_body.
  destruct (generate_sql_cases B query schema)
    as [(msg & -> & _) | [(answer & _ & Hbad & ->) | (answer & Hgen & Hv & ->)]].
  - simpl. destruct (bool_decide (msg = "")); simpl; by intros ?%elem_of_nil.
  - pose proof (validate_message _ Hbad) as Ht.
    destruct (_validate_sql (_extract_sql answer)) as [ok msg].
    simpl in *. rewrite Ht. simpl. by intros ?%elem_of_nil.
  - simpl.
    destruct (execute B (_optimize_sql (_extract_sql answer))); simpl;
      intros ->%list_elem_of_singleton; by exists answer.
Qed.

(** X26: whatever the model answers, a statement sent to the database has
    at most nineteen characters. The patterns of [_extract_sql] end in a
    lazy group, so a statement that passes validation is the word SELECT
    with at most two more characters; the rest of the answer, the column
    list and the FROM clause included, is lost before [_optimize_sql]
    appends the row ceiling. *)
Theorem X26_statements_are_short B schema query statement :
  statement ∈ (sql_handler_body B schema query).2 →
  len statement ≤ 19
  ∧ dict_get (generate_sql B query schema) "sql" = Some (VStr statement).
Proof.
  intros (answer & _ & Hv & -> & Hsql)%sent_statement. split; [|done].
  pose proof (extract_sql_short answer Hv).
  pose proof (optimize_adds_eleven (_extract_sql answer)). lia.
Qed.

End short_statements.

(** ** The further properties on the sample data *)

Section further_samples.
Import document_processor text_to_sql query_engine schema_discovery routes
  routes_documents.

Lemma sample_index_from_text : documents_from_text samples.index.
Proof.
  apply documents_from_text_process_documents, documents_from_text_empty.
Qed.

Lemma sample_index_ascending : postings_ascending samples.index.
Proof.
  apply postings_ascending_process_documents;
    [apply well_formed_empty|apply postings_ascending_empty].
Qed.

Lemma X3_search_returns_the_candidates_witness :
  well_formed samples.index ∧ (0 ≤ 5)%Z
  ∧ length (search order_of_last_occurrence samples.index "python java" 5)
    = min (Z.to_nat 5)
        (length (encounter_order samples.index
                   (_extract_keywords order_of_last_occurrence "python java"))).
Proof.
  split; [exact sample_index_well_formed|]. split; [lia|].
  refine (proj1 (X3_search_returns_the_candidates order_of_last_occurrence
                   samples.index "python java" 5 sample_index_well_formed _)).
  lia.
Defined.

Lemma X4_matched_keywords_occur_witness :
  documents_from_text samples.index
  ∧ samples.eve_hit
    ∈ search order_of_last_occurrence samples.index "python java" 5
  ∧ "python" ∈ matched_keywords samples.eve_hit
  ∧ whole_word "python" (lower "python java")
  ∧ whole_word "python" (lower (doc_text (hit_doc samples.eve_hit)))
  ∧ "python" ∉ stopwords.
Proof.
  assert (samples.eve_hit
          ∈ search order_of_last_occurrence samples.index "python java" 5)
    as Hin.
  { apply list_elem_of_lookup_2 with 0. vm_compute. reflexivity. }
  assert ("python" ∈ matched_keywords samples.eve_hit) as Hkw.
  { apply list_elem_of_lookup_2 with 0. reflexivity. }
  split; [exact sample_index_from_text|]. split; [exact Hin|].
  split; [exact Hkw|].
  exact (X4_matched_keywords_occur order_of_last_occurrence samples.index
           "python java" 5 samples.eve_hit "python"
           sample_index_from_text Hin Hkw).
Defined.

Lemma X5_scores_survive_ingestion_witness :
  0 < length (documents samples.index)
  ∧ documents (process_documents order_of_last_occurrence samples.disk
                 samples.index ["eve.txt"]).1 !! 0
    = documents samples.index !! 0.
Proof.
  assert (0 < length (documents samples.index)) as Hlt by (vm_compute; lia).
  split; [exact Hlt|].
  exact (proj2 (X5_scores_survive_ingestion order_of_last_occurrence
                  samples.disk samples.index ["eve.txt"] ["python"] 0 Hlt)).
Defined.

Lemma X8_single_keyword_by_id_witness :
  well_formed samples.index ∧ postings_ascending samples.index
  ∧ _extract_keywords order_of_last_occurrence "Python?" = ["python"]
  ∧ ties_by_ascending_id
      (search order_of_last_occurrence samples.index "Python?" 5).
Proof.
  assert (_extract_keywords order_of_last_occurrence "Python?" = ["python"])
    as Hqk by reflexivity.
  split; [exact sample_index_well_formed|].
  split; [exact sample_index_ascending|]. split; [exact Hqk|].
  exact (proj1 (X8_single_keyword_by_id order_of_last_occurrence samples.index
                  "Python?" 5 "python" sample_index_well_formed
                  sample_index_ascending Hqk)).
Defined.

Lemma X9_extractor_by_extension_witness :
  sforall (λ c, bool_decide (c ≠ "."%char)) "PDF" = true
  ∧ (lower "PDF" = "pdf" →
     _extract_text samples.disk "report.PDF"
     = _extract_pdf samples.disk "report.PDF").
Proof.
  assert (sforall (λ c, bool_decide (c ≠ "."%char)) "PDF" = true) as Hext
    by reflexivity.
  split; [exact Hext|].
  exact (proj1 (X9_extractor_by_extension samples.disk "report" "PDF" Hext)).
Defined.

Lemma X11_optimisation_keeps_validity_witness :
  (_validate_sql "SELECT name FROM employees").1 = true
  ∧ _validate_sql (_optimize_sql "SELECT name FROM employees") = (true, "").
Proof.
  assert ((_validate_sql "SELECT name FROM employees").1 = true) as Hv
    by reflexivity.
  split; [exact Hv|].
  exact (proj1 (X11_optimisation_keeps_validity
                  "SELECT name FROM employees" Hv)).
Defined.

Lemma X12_sql_marker_loses_the_statement_witness :
  lower "sql SELECT name FROM employees;"
  = "" +:+ "sql" +:+ String " " "select name from employees;"
  ∧ len (_extract_sql "sql SELECT name FROM employees;") ≤ 1.
Proof.
  assert (lower "sql SELECT name FROM employees;"
          = "" +:+ "sql" +:+ String " " "select name from employees;") as E
    by reflexivity.
  split; [exact E|].
  exact (proj1 (X12_sql_marker_loses_the_statement
                  "sql SELECT name FROM employees;" ""
                  " "%char "select name from employees;" E)).
Defined.

Lemma X13_select_is_cut_short_witness :
  ¬ occurs_in "sql" (lower "SELECT name FROM employees;")
  ∧ lower "SELECT name FROM employees;"
    = "" +:+ "select" +:+ String " " "name from employees;"
  ∧ len (_extract_sql "SELECT name FROM employees;") ≤ 8.
Proof.
  assert (¬ occurs_in "sql" (lower "SELECT name FROM employees;")) as Hno.
  { intros Ho%contains_spec. vm_compute in Ho. discriminate Ho. }
  assert (lower "SELECT name FROM employees;"
          = "" +:+ "select" +:+ String " " "name from employees;") as E
    by reflexivity.
  split; [exact Hno|]. split; [exact E|].
  exact (proj1 (X13_select_is_cut_short "SELECT name FROM employees;" ""
                  " "%char "name from employees;" Hno E)).
Defined.

Lemma X17_schema_matches_its_summary_witness :
  analyze_database fixtures.sqlite_session 0 = (Ret fixtures.sqlite_schema, 4)
  ∧ total_tables (schema_summary fixtures.sqlite_schema)
    = length (schema_tables fixtures.sqlite_schema).
Proof.
  assert (analyze_database fixtures.sqlite_session 0
          = (Ret fixtures.sqlite_schema, 4)) as E by reflexivity.
  split; [exact E|].
  exact (proj1 (proj2 (X17_schema_matches_its_summary fixtures.sqlite_session
                         0 4 fixtures.sqlite_schema E))).
Defined.

Lemma X18_only_listings_fail_witness :
  analyze_database fixtures.locked_session 0 = (Raise fixtures.locked, 2)
  ∧ ((∃ statement σ1,
        (first_column fixtures.locked_session statement σ1).1
        = Raise fixtures.locked)
     ∨ (∃ statement σ1,
          (pragma_rows fixtures.locked_session statement σ1).1
          = Raise fixtures.locked)
     ∨ (∃ table σ1,
          (column_rows fixtures.locked_session table σ1).1
          = Raise fixtures.locked)).
Proof.
  assert (analyze_database fixtures.locked_session 0
          = (Raise fixtures.locked, 2)) as E by reflexivity.
  split; [exact E|].
  exact (X18_only_listings_fail fixtures.locked_session 0 2 fixtures.locked E).
Defined.

Lemma X19_analysis_returns_witness :
  ∃ info, (analyze_database fixtures.sqlite_session 0).1 = Ret info.
Proof.
  apply (X19_analysis_returns fixtures.sqlite_session).
  - intros statement σ. eexists. reflexivity.
  - intros statement σ. eexists. reflexivity.
  - intros table σ. eexists. reflexivity.
Defined.

Lemma X20_accepted_name_needs_a_dot_witness :
  allowed (lower (last_segment "."%char "txt")) = true
  ∧ (unsupported (saved_path settings "job" "txt") ↔ ¬ occurs_in "." "txt").
Proof.
  assert (allowed (lower (last_segment "."%char "txt")) = true) as Hok
    by reflexivity.
  split; [exact Hok|].
  exact (X20_accepted_name_needs_a_dot settings "job" "txt" Hok).
Defined.

Lemma X22_job_completes_witness :
  (upload_documents settings fixtures.writable "job" fixtures.upload
     fixtures.fresh).1
  = Responds {| ur_job_id := "job";
                ur_status := "processing";
                ur_message := "Processing 2 documents" |}
  ∧ last (background_tasks
            (upload_documents settings fixtures.writable "job" fixtures.upload
               fixtures.fresh).2)
    = Some ("job", (fst ∘ saved settings "job") <$> fixtures.upload).
Proof.
  assert ((upload_documents settings fixtures.writable "job" fixtures.upload
             fixtures.fresh).1
          = Responds {| ur_job_id := "job";
                        ur_status := "processing";
                        ur_message := "Processing 2 documents" |}) as E
    by (vm_compute; reflexivity).
  split; [exact E|].
  exact (proj1 (X22_job_completes order_of_last_occurrence fixtures.uploaded
                  settings fixtures.writable "job" fixtures.upload
                  fixtures.fresh _ E)).
Defined.

Lemma X26_statements_are_short_witness :
  "SELECT LIMIT 100;" ∈ (sql_handler_body fixtures.helpful [] "names").2
  ∧ len "SELECT LIMIT 100;" ≤ 19.
Proof.
  assert ("SELECT LIMIT 100;"
          ∈ (sql_handler_body fixtures.helpful [] "names").2) as Hin.
  { apply list_elem_of_lookup_2 with 0. vm_compute. reflexivity. }
  split; [exact Hin|].
  exact (proj1 (X26_statements_are_short fixtures.helpful [] "names"
                  "SELECT LIMIT 100;" Hin)).
Defined.

End further_samples.
